(** * pdf-parser.js: text extraction from PDF documents

    A shallow embedding of [src/pdf-parser.js] and the properties of its
    extraction pipeline.

    Conventions of the embedding.
    - A JavaScript string is the list of its UTF-16 code units ([N]).
    - A JavaScript number is an exact rational ([Q]): coordinates, widths,
      font sizes and confidences are finite, and the decimal constants of
      the source ([0.3], [0.6], ...) are taken at their decimal value.
      [Math.round x] is [Qfloor (x + 1/2)].
    - Where a statement depends on how a threshold rounds (the spacing
      inside a line, the detection and the order of the columns), the code
      is embedded a second time on the binary64 numbers of the language
      themselves ([Module Binary64]): every sum, product and quotient is
      the IEEE 754 operation, and [0.3] is the double nearest to 3/10.
    - The external collaborators (pdfjs-dist, Tesseract.js, the canvas and
      [Math.pow]) are oracles gathered in an environment record; every call
      the pipeline makes to them is recorded in a trace of events, and a
      rejected promise or thrown exception is the [Throw] result. *)

From Stdlib Require Import List String Ascii Bool Arith NArith ZArith QArith Qabs Qround Lia Lqa Permutation Sorted.
From Stdlib Require PrimFloat SpecFloat FloatOps FloatAxioms Uint63.
Import ListNotations.

Set Implicit Arguments.

#[local] Abbreviation length := List.length.
#[local] Close Scope Q_scope.
#[local] Open Scope nat_scope.
#[local] Open Scope list_scope.

(** ** JavaScript strings *)

Module JS.

Definition jsstring := list N.

(** A string literal of the source, for characters below 128. *)
Definition str (s : string) : jsstring := map N_of_ascii (list_ascii_of_string s).

Definition LF : N := 10%N.
Definition SP : N := 32%N.
Definition TAB : N := 9%N.

Definition in_range (lo hi c : N) : bool := ((lo <=? c) && (c <=? hi))%N.

(** ECMAScript LineTerminator: LF, CR, LS, PS. *)
Definition isLineTerminator (c : N) : bool :=
  ((c =? 10) || (c =? 13) || (c =? 8232) || (c =? 8233))%N.

(** ECMAScript WhiteSpace and LineTerminator code units: what
    [String.prototype.trim] strips and what [\s] matches. *)
Definition isWhiteSpace (c : N) : bool :=
  in_range 9 13 c || (c =? 32)%N || (c =? 160)%N || (c =? 5760)%N
  || in_range 8192 8202 c || (c =? 8232)%N || (c =? 8233)%N
  || (c =? 8239)%N || (c =? 8287)%N || (c =? 12288)%N || (c =? 65279)%N.

Fixpoint trimStart (s : jsstring) : jsstring :=
  match s with
  | [] => []
  | c :: rest => if isWhiteSpace c then trimStart rest else s
  end.

Definition trimEnd (s : jsstring) : jsstring := rev (trimStart (rev s)).

Definition trim (s : jsstring) : jsstring := trimEnd (trimStart s).

(** Truthiness of a string: the empty string is falsy. *)
Definition truthy (s : jsstring) : bool :=
  match s with [] => false | _ :: _ => true end.

(** [s.split('\n')]: always at least one piece. *)
Fixpoint split_on (sep : N) (s : jsstring) : list jsstring :=
  match s with
  | [] => [[]]
  | c :: rest =>
      if (c =? sep)%N then [] :: split_on sep rest
      else match split_on sep rest with
           | [] => [[c]]
           | piece :: pieces => (c :: piece) :: pieces
           end
  end.

(** [pieces.join(sep)]. *)
Fixpoint join (sep : jsstring) (pieces : list jsstring) : jsstring :=
  match pieces with
  | [] => []
  | [p] => p
  | p :: rest => p ++ sep ++ join sep rest
  end.

End JS.

Import JS.

(** ** Regular expressions

    The subset of ECMAScript patterns that [postProcessText] uses, with the
    backtracking semantics of the language: greedy quantifiers (applied here
    to character classes only), ordered alternation, the assertions [^], [$]
    and [(?! )], capture groups, and the flags [m] and [i]. *)

Module RegExp.

Inductive re : Type :=
| Chr (c : N)                                  (* a pattern character *)
| Cls (p : N -> bool)                          (* a class or escape: one code unit *)
| Rep (p : N -> bool) (lo : nat) (hi : option nat)   (* class{lo,hi}, greedy *)
| RepChr (c : N) (lo : nat) (hi : option nat)  (* character{lo,hi}, greedy *)
| Seq (r1 r2 : re)
| Alt (r1 r2 : re)
| Bol                                          (* ^ *)
| Eol                                          (* $ *)
| NotAhead (r : re)                            (* (?!r) *)
| Group (n : nat) (r : re).                    (* n-th capture group *)

Record flags := { multiline : bool; ignoreCase : bool }.

(** Canonicalize of the [i] flag without [u]: the upper-case mapping of one
    code unit. It is exact on Latin-1, and the identity above it, where no
    code unit maps onto a character of the patterns below. *)
Definition canonicalize (c : N) : N :=
  if in_range 97 122 c then (c - 32)%N
  else if in_range 224 254 c && negb (c =? 247)%N then (c - 32)%N
  else if (c =? 255)%N then 376%N
  else if (c =? 181)%N then 924%N
  else c.

Definition chr_matches (fl : flags) (pat c : N) : bool :=
  if ignoreCase fl then (canonicalize pat =? canonicalize c)%N else (pat =? c)%N.

(** Matcher state: the code unit before the current position (if any), the
    input from the current position on, and the captures made so far. *)
Record mstate := {
  prev : option N;
  rest : list N;
  caps : list (nat * jsstring)
}.

Definition at_line_start (fl : flags) (st : mstate) : bool :=
  match prev st with
  | None => true
  | Some c => multiline fl && isLineTerminator c
  end.

Definition at_line_end (fl : flags) (st : mstate) : bool :=
  match rest st with
  | [] => true
  | c :: _ => multiline fl && isLineTerminator c
  end.

(** Consume [n] code units. *)
Fixpoint advance (n : nat) (st : mstate) : mstate :=
  match n with
  | O => st
  | S n' =>
      match rest st with
      | [] => st
      | c :: tl => advance n' {| prev := Some c; rest := tl; caps := caps st |}
      end
  end.

(** Length of the longest prefix of [s] inside the class, capped by [hi]. *)
Fixpoint run_length (p : N -> bool) (hi : option nat) (s : list N) : nat :=
  match s with
  | [] => O
  | c :: tl =>
      match hi with
      | Some O => O
      | Some (S h) => if p c then S (run_length p (Some h) tl) else O
      | None => if p c then S (run_length p None tl) else O
      end
  end.

(** Greedy choice: try [n] repetitions, then [n-1], ... down to [lo]. *)
Fixpoint try_down (k : mstate -> option mstate) (st : mstate) (lo n : nat)
  : option mstate :=
  if n <? lo then None
  else match k (advance n st) with
       | Some r => Some r
       | None => match n with
                 | O => None
                 | S n' => try_down k st lo n'
                 end
       end.

Definition captured (st0 st1 : mstate) : jsstring :=
  firstn (length (rest st0) - length (rest st1)) (rest st0).

Fixpoint exec (fl : flags) (r : re) (st : mstate)
              (k : mstate -> option mstate) {struct r} : option mstate :=
  match r with
  | Chr c =>
      match rest st with
      | x :: _ => if chr_matches fl c x then k (advance 1 st) else None
      | [] => None
      end
  | Cls p =>
      match rest st with
      | x :: _ => if p x then k (advance 1 st) else None
      | [] => None
      end
  | Rep p lo hi => try_down k st lo (run_length p hi (rest st))
  | RepChr c lo hi => try_down k st lo (run_length (chr_matches fl c) hi (rest st))
  | Seq r1 r2 => exec fl r1 st (fun st1 => exec fl r2 st1 k)
  | Alt r1 r2 =>
      match exec fl r1 st k with
      | Some res => Some res
      | None => exec fl r2 st k
      end
  | Bol => if at_line_start fl st then k st else None
  | Eol => if at_line_end fl st then k st else None
  | NotAhead r1 =>
      match exec fl r1 st (fun st1 => Some st1) with
      | Some _ => None
      | None => k st
      end
  | Group n r1 =>
      exec fl r1 st (fun st1 =>
        k {| prev := prev st1; rest := rest st1;
             caps := (n, captured st st1) :: caps st1 |})
  end.

(** A match attempt at the current position. *)
Definition match_here (fl : flags) (r : re) (p : option N) (s : list N)
  : option mstate :=
  exec fl r {| prev := p; rest := s; caps := [] |} (fun st => Some st).

(** Replacement templates: literal text and [$n]. *)
Inductive piece : Type :=
| Text (s : jsstring)
| Ref (n : nat).

Fixpoint lookup_cap (n : nat) (cs : list (nat * jsstring)) : jsstring :=
  match cs with
  | [] => []
  | (m, s) :: tl => if Nat.eqb m n then s else lookup_cap n tl
  end.

Definition expand (tpl : list piece) (cs : list (nat * jsstring)) : jsstring :=
  flat_map (fun pc => match pc with Text s => s | Ref n => lookup_cap n cs end) tpl.

(** [s.replace(/r/g, tpl)]: leftmost matches, scanned left to right; after
    an empty match the scan moves on by one code unit. *)
Fixpoint replace_from (fuel : nat) (fl : flags) (r : re) (tpl : list piece)
                      (p : option N) (s : list N) : jsstring :=
  match fuel with
  | O => s
  | S fuel' =>
      let step :=
        match s with
        | [] => []
        | c :: tl => c :: replace_from fuel' fl r tpl (Some c) tl
        end in
      match match_here fl r p s with
      | Some st =>
          if (length (rest st) <? length s)%nat
          then expand tpl (caps st) ++ replace_from fuel' fl r tpl (prev st) (rest st)
          else expand tpl (caps st) ++ step
      | None => step
      end
  end.

Definition replaceAll (fl : flags) (r : re) (tpl : list piece) (s : jsstring)
  : jsstring :=
  replace_from (S (length s)) fl r tpl None s.

(** [s.replace(/r/, tpl)] without the [g] flag: the first match only. *)
Fixpoint replaceFirst_from (fl : flags) (r : re) (tpl : list piece)
                           (p : option N) (s : list N) : jsstring :=
  match match_here fl r p s with
  | Some st => expand tpl (caps st) ++ rest st
  | None =>
      match s with
      | [] => []
      | c :: tl => c :: replaceFirst_from fl r tpl (Some c) tl
      end
  end.

Definition replaceFirst (fl : flags) (r : re) (tpl : list piece) (s : jsstring)
  : jsstring :=
  replaceFirst_from fl r tpl None s.

(** A literal run of pattern characters. *)
Fixpoint lit (s : jsstring) : re :=
  match s with
  | [] => Rep (fun _ => false) O (Some O)
  | [c] => Chr c
  | c :: tl => Seq (Chr c) (lit tl)
  end.

(** Ordered alternation of a non-empty list of patterns. *)
Fixpoint alts (r : re) (rs : list re) : re :=
  match rs with
  | [] => r
  | r' :: tl => Alt r (alts r' tl)
  end.

Definition no_flags := {| multiline := false; ignoreCase := false |}.
Definition flag_m := {| multiline := true; ignoreCase := false |}.
Definition flag_im := {| multiline := true; ignoreCase := true |}.

End RegExp.

(** ** Post-processing: clean and normalize extracted text *)

Module Normalizer.

Import RegExp.

Definition isDigit (c : N) : bool := in_range 48 57 c.
Definition isLower (c : N) : bool := in_range 97 122 c.
Definition isUpper (c : N) : bool := in_range 65 90 c.

(** [\w] *)
Definition isWordChar (c : N) : bool :=
  isLower c || isUpper c || isDigit c || (c =? 95)%N.

(** [[^a-zA-ZÀ-ÿ0-9]] *)
Definition notAlphaNum (c : N) : bool :=
  negb (isLower c || isUpper c || in_range 192 255 c || isDigit c).

(** [[ \t]] *)
Definition isSpaceOrTab (c : N) : bool := (c =? 32)%N || (c =? 9)%N.

(** [[.\-_=•·]] *)
Definition isDecoration (c : N) : bool :=
  ((c =? 46) || (c =? 45) || (c =? 95) || (c =? 61) || (c =? 8226) || (c =? 183))%N.

(** [/^[^a-zA-ZÀ-ÿ0-9]{1,2}$/gm] *)
Definition re_noise : re := Seq Bol (Seq (Rep notAlphaNum 1 (Some 2)) Eol).

(** [/(\w)-\n(\w)/g] *)
Definition re_hyphen : re :=
  Seq (Group 1 (Cls isWordChar)) (Seq (Chr 45) (Seq (Chr 10) (Group 2 (Cls isWordChar)))).

(** [/\n{4,}/g] *)
Definition re_blank_lines : re := RepChr 10 4 None.

(** [/[ \t]{3,}/g] *)
Definition re_wide_gap : re := Rep isSpaceOrTab 3 None.

(** [/ {2}(?! )/g] *)
Definition re_double_space : re := Seq (RepChr 32 2 (Some 2)) (NotAhead (Chr 32)).

(** [/^[.\-_=•·]{3,}$/gm] *)
Definition re_decoration : re := Seq Bol (Seq (Rep isDecoration 3 None) Eol).

(** [/^\n+/] and [/\n+$/] *)
Definition re_leading_newlines : re := Seq Bol (RepChr 10 1 None).
Definition re_trailing_newlines : re := Seq (RepChr 10 1 None) Eol.

Definition e_acute : N := 233.
Definition e_circ : N := 234.

(** The alternatives of [sectionHeaders] after the first, in the order of
    the source. *)
Definition header_alternatives : list re :=
  [ lit (str "experience");
    lit (str "formation");
    lit (str "education");
    lit (str "comp" ++ [e_acute] ++ str "tences");
    lit (str "skills");
    lit (str "langues");
    lit (str "languages");
    lit (str "certifications");
    lit (str "projets");
    lit (str "projects");
    lit (str "profil");
    lit (str "profile");
    lit (str "r" ++ [e_acute] ++ str "sum" ++ [e_acute]);
    lit (str "summary");
    lit (str "contact");
    lit (str "r" ++ [e_acute] ++ str "f" ++ [e_acute] ++ str "rences");
    lit (str "references");
    lit (str "objectif");
    lit (str "objective");
    lit (str "centres d'int" ++ [e_acute] ++ str "r" ++ [e_circ] ++ str "t");
    lit (str "hobbies");
    Seq (lit (str "information"))
      (Seq (RepChr 115 0 (Some 1))
        (Seq (Rep isWhiteSpace 0 None)
          (Seq (lit (str "personnelle")) (RepChr 115 0 (Some 1)))));
    Seq (lit (str "personal")) (Seq (Rep isWhiteSpace 0 None) (lit (str "info"))) ].

(** [sectionHeaders.source]: [^(expérience|experience|...|personal\s*info)] *)
Definition sectionHeaders : re :=
  Seq Bol (Group 3 (alts (lit (str "exp" ++ [e_acute] ++ str "rience")) header_alternatives)).

(** [new RegExp(`(\\S)\\n(${sectionHeaders.source})`, 'gim')] *)
Definition re_header_break : re :=
  Seq (Group 1 (Cls (fun c => negb (isWhiteSpace c))))
      (Seq (Chr 10) (Group 2 sectionHeaders)).

Definition postProcessText (text : jsstring) : jsstring :=
  if negb (truthy text) then []
  else
    let cleaned := text in
    (* 1. isolated one- or two-character lines of noise *)
    let cleaned := replaceAll flag_m re_noise [] cleaned in
    (* 2. lines broken at a hyphen *)
    let cleaned := replaceAll no_flags re_hyphen [Ref 1; Ref 2] cleaned in
    (* 3. runs of blank lines *)
    let cleaned := replaceAll no_flags re_blank_lines [Text [LF; LF; LF]] cleaned in
    (* 4. spaces within lines *)
    let cleaned := replaceAll no_flags re_wide_gap [Text [SP; SP; SP; SP]] cleaned in
    let cleaned := replaceAll no_flags re_double_space [Text [SP]] cleaned in
    (* 5. common OCR misreads *)
    let cleaned := replaceAll no_flags (Cls (N.eqb 124)) [Text (str "l")] cleaned in
    let cleaned := replaceAll no_flags (Chr 123) [Text (str "(")] cleaned in
    let cleaned := replaceAll no_flags (Chr 125) [Text (str ")")] cleaned in
    (* 6. decorative lines *)
    let cleaned := replaceAll flag_m re_decoration [] cleaned in
    (* 7. trim each line *)
    let cleaned := join [LF] (map trim (split_on LF cleaned)) in
    (* 8. leading and trailing blank lines *)
    let cleaned := replaceFirst no_flags re_trailing_newlines []
                     (replaceFirst no_flags re_leading_newlines [] cleaned) in
    (* 9. a blank line before section headers *)
    replaceAll flag_im re_header_break [Ref 1; Text [LF; LF]; Ref 2] cleaned.

(** Step 4 alone (the two replacements on spaces and tabs). *)
Definition collapseSpaces (s : jsstring) : jsstring :=
  replaceAll no_flags re_double_space [Text [SP]]
    (replaceAll no_flags re_wide_gap [Text [SP; SP; SP; SP]] s).

End Normalizer.

Import Normalizer.

(** ** JavaScript numbers *)

Module Num.

Definition gt (a b : Q) : bool := negb (Qle_bool a b).
Definition lt (a b : Q) : bool := negb (Qle_bool b a).
Definition ge (a b : Q) : bool := Qle_bool b a.

(** [a || b] on numbers: [0] is falsy. *)
Definition or_else (a b : Q) : Q := if Qeq_bool a 0 then b else a.

Definition Math_max (a b : Q) : Q := if Qle_bool a b then b else a.
Definition Math_min (a b : Q) : Q := if Qle_bool a b then a else b.
Definition Math_abs (a : Q) : Q := Qabs a.

(** [Math.round]: the nearest integer, halves upwards. *)
Definition Math_round (a : Q) : Z := Qfloor (a + (1 # 2)).

(** [Math.min(...xs)] and [Math.max(...xs)] of a non-empty array. The
    arrays spread in the source are the runs of a line, never empty;
    on the empty array this model answers [0]. *)
Definition Math_min_of (xs : list Q) : Q :=
  match xs with
  | [] => 0%Q
  | x :: tl => fold_left Math_min tl x
  end.

Definition Math_max_of (xs : list Q) : Q :=
  match xs with
  | [] => 0%Q
  | x :: tl => fold_left Math_max tl x
  end.

(** [xs.reduce((a, b) => a + b, 0)] *)
Definition sum (xs : list Q) : Q := fold_left Qplus xs 0%Q.

Definition of_nat (n : nat) : Q := inject_Z (Z.of_nat n).

(** [xs.sort(cmp)]: the stable sort, by insertion. A negative [cmp a b]
    puts [a] first. ECMAScript fixes the result only for a consistent
    comparator; on those every engine returns this order. *)
Fixpoint insert_sorted {A} (cmp : A -> A -> Q) (x : A) (sorted : list A) : list A :=
  match sorted with
  | [] => [x]
  | e :: tl => if lt (cmp x e) 0 then x :: e :: tl else e :: insert_sorted cmp x tl
  end.

Definition Array_sort {A} (cmp : A -> A -> Q) (xs : list A) : list A :=
  fold_left (fun acc x => insert_sorted cmp x acc) xs [].

End Num.

Import Num.

(** ** Strategy 1: spatial-aware text extraction *)

Module Layout.

(** The six numbers of a pdf.js transform; [d] is index 3 (vertical
    scale), [e] and [f] are indices 4 and 5 (the origin of the run). *)
Record Transform := { ta : Q; tb : Q; tc : Q; td : Q; te : Q; tf : Q }.

(** A text item of [page.getTextContent()]. *)
Record TextItem := {
  item_str : jsstring;
  item_transform : Transform;
  item_width : Q;
  item_height : Q
}.

(** A run placed on a line. *)
Record Run := {
  x : Q;
  text : jsstring;
  width : Q;
  run_fontSize : Q
}.

Record Line := {
  y : option Q;            (* [null] before the first run *)
  items : list Run;
  fontSize : Q
}.

(** An emitted line of the two-column branch. *)
Record ColumnLine := {
  cl_y : option Q;
  cl_text : jsstring;
  cl_fontSize : Q;
  fullWidth : bool
}.

(** [Math.abs(item.transform[3] || item.height || 10)] *)
Definition fontSizeOf (item : TextItem) : Q :=
  Math_abs (or_else (or_else (td (item_transform item)) (item_height item)) 10).

(** [item => item.str && item.str.trim()] *)
Definition hasText (item : TextItem) : bool :=
  truthy (item_str item) && truthy (trim (item_str item)).

(** The comparator of the first sort: top to bottom, then left to right. *)
Definition compareItems (lineThreshold : Q) (a b : TextItem) : Q :=
  let yA := tf (item_transform a) in
  let yB := tf (item_transform b) in
  let yDiff := (yB - yA)%Q in
  if gt (Math_abs yDiff) lineThreshold then yDiff
  else (te (item_transform a) - te (item_transform b))%Q.

(** One turn of the grouping loop: [lines] and [currentLine] after [item]. *)
Definition groupStep (lineThreshold : Q) (st : list Line * Line) (item : TextItem)
  : list Line * Line :=
  let (lines, currentLine) := st in
  let y0 := tf (item_transform item) in
  let fs := fontSizeOf item in
  let startsNew :=
    match y currentLine with
    | None => true
    | Some cy => gt (Math_abs (cy - y0)) lineThreshold
    end in
  let lines1 :=
    if startsNew
    then match items currentLine with [] => lines | _ :: _ => lines ++ [currentLine] end
    else lines in
  let cur1 :=
    if startsNew then {| y := Some y0; items := []; fontSize := fs |} else currentLine in
  let cur2 :=
    {| y := y cur1;
       items := items cur1 ++ [ {| x := te (item_transform item);
                                   text := item_str item;
                                   width := or_else (item_width item) 0;
                                   run_fontSize := fs |} ];
       fontSize := fontSize cur1 |} in
  let cur3 :=
    if gt fs (fontSize cur2)
    then {| y := y cur2; items := items cur2; fontSize := fs |}
    else cur2 in
  (lines1, cur3).

Definition groupLines (lineThreshold : Q) (sortedItems : list TextItem) : list Line :=
  let (lines, currentLine) :=
    fold_left (groupStep lineThreshold) sortedItems
              ([], {| y := None; items := []; fontSize := 0 |}) in
  match items currentLine with
  | [] => lines
  | _ :: _ => lines ++ [currentLine]
  end.

(** [line.items.reduce((s, it) => s + it.x, 0) / line.items.length] *)
Definition avgX (its : list Run) : Q :=
  (fold_left (fun s it => s + x it) its 0 / of_nat (length its))%Q.

(** The separator that [buildLineText] puts before a run. The thresholds
    are exact here; [Binary64.separator] has them as the code rounds them. *)
Definition separator (avgFontSize : Q) (prevItem item : Run) : jsstring :=
  let gap := (x item - (x prevItem + width prevItem))%Q in
  let spaceWidth := (avgFontSize * (3 # 10))%Q in
  if gt gap (spaceWidth * 6) then [SP; SP; SP; SP]
  else if gt gap (spaceWidth * (5 # 10)) then [SP]
  else [].

(** The loop of [buildLineText] from index [j] on: [prevItem] is
    [items[j-1]], absent when [j = 0]. *)
Fixpoint buildLineText_loop (avgFontSize : Q) (prevItem : option Run)
                            (its : list Run) (lineText : jsstring) : jsstring :=
  match its with
  | [] => lineText
  | item :: tl =>
      let lineText1 :=
        match prevItem with
        | Some p => lineText ++ separator avgFontSize p item
        | None => lineText
        end in
      buildLineText_loop avgFontSize (Some item) tl (lineText1 ++ text item)
  end.

Definition buildLineText (its : list Run) (avgFontSize : Q) : jsstring :=
  buildLineText_loop avgFontSize None its [].

(** [line.items.sort((a, b) => a.x - b.x)] *)
Definition sortByX (its : list Run) : list Run :=
  Array_sort (fun a b => (x a - x b)%Q) its.

(** Column detection: the two counters after the loop over the lines. The
    thresholds are exact here; [Binary64.countStep] has them as the code
    rounds them. *)
Definition countStep (midPage : Q) (cnt : nat * nat) (line : Line) : nat * nat :=
  let (leftCount, rightCount) := cnt in
  let a := avgX (items line) in
  if lt a (midPage * (6 # 10)) then (S leftCount, rightCount)
  else if gt a (midPage * (8 # 10)) then (leftCount, S rightCount)
  else (leftCount, rightCount).

Definition columnCounts (pageWidth : Q) (lines : list Line) : nat * nat :=
  fold_left (countStep (pageWidth / 2)) lines (O, O).

Definition isTwoColumn (pageWidth : Q) (lines : list Line) : bool :=
  let (leftCount, rightCount) := columnCounts pageWidth lines in
  (3 <? leftCount)%nat && (3 <? rightCount)%nat
  && gt (of_nat (Nat.min leftCount rightCount) / of_nat (Nat.max leftCount rightCount))
        (25 # 100).

(** [if (t.trim()) pageText += t.trim() + '\n'] *)
Definition emitLine (pageText t : jsstring) : jsstring :=
  if truthy (trim t) then pageText ++ trim t ++ [LF] else pageText.

(** The bucketing loop of the two-column branch: [leftLines] and
    [rightLines] after [line]. *)
Definition bucketStep (pageWidth avgFontSize : Q)
                      (st : list ColumnLine * list ColumnLine) (line : Line)
  : list ColumnLine * list ColumnLine :=
  let (leftLines, rightLines) := st in
  let its := sortByX (items line) in
  let a := avgX its in
  let minX := Math_min_of (map x its) in
  let maxX := Math_max_of (map (fun it => x it + width it)%Q its) in
  let span := (maxX - minX)%Q in
  let out fw := {| cl_y := y line; cl_text := buildLineText its avgFontSize;
                   cl_fontSize := fontSize line; fullWidth := fw |} in
  if gt span (pageWidth * (6 # 10)) then (leftLines ++ [out true], rightLines)
  else if lt a (pageWidth / 2 * (7 # 10)) then (leftLines ++ [out false], rightLines)
  else (leftLines, rightLines ++ [out false]).

Definition nonEmpty {A} (l : list A) : bool :=
  match l with [] => false | _ :: _ => true end.

Definition twoColumnText (pageWidth avgFontSize : Q) (lines : list Line) : jsstring :=
  let (leftLines, rightLines) :=
    fold_left (bucketStep pageWidth avgFontSize) lines ([], []) in
  let fullWidthLines := filter fullWidth leftLines in
  let pureLeftLines := filter (fun l => negb (fullWidth l)) leftLines in
  let pageText := fold_left (fun t l => emitLine t (cl_text l)) fullWidthLines [] in
  let pageText :=
    if nonEmpty fullWidthLines && (nonEmpty pureLeftLines || nonEmpty rightLines)
    then pageText ++ [LF] else pageText in
  let pageText := fold_left (fun t l => emitLine t (cl_text l)) pureLeftLines pageText in
  let pageText :=
    if nonEmpty pureLeftLines && nonEmpty rightLines
    then pageText ++ [LF] else pageText in
  fold_left (fun t l => emitLine t (cl_text l)) rightLines pageText.

Definition singleColumnText (avgFontSize : Q) (lines : list Line) : jsstring :=
  fold_left (fun t line => emitLine t (buildLineText (sortByX (items line)) avgFontSize))
            lines [].

(** The text of the page, from its lines. *)
Definition linesText (pageWidth avgFontSize : Q) (lines : list Line) : jsstring :=
  if isTwoColumn pageWidth lines
  then twoColumnText pageWidth avgFontSize lines
  else singleColumnText avgFontSize lines.

Definition avgFontSizeOf (its : list TextItem) : Q :=
  (sum (map fontSizeOf its) / of_nat (length its))%Q.

(** The body of the page loop once the page has text-bearing items. *)
Definition pageText (pageWidth : Q) (its : list TextItem) : jsstring :=
  let avgFontSize := avgFontSizeOf its in
  let lineThreshold := Math_max (avgFontSize * (4 # 10)) 2 in
  let sortedItems := Array_sort (compareItems lineThreshold) its in
  let lines := groupLines lineThreshold sortedItems in
  linesText pageWidth avgFontSize lines.

(** The page-break marker. *)
Definition pageBreak : jsstring := [LF] ++ str "---" ++ [LF].

End Layout.

Import Layout.

(** ** Spacing and columns on binary64 numbers

    The part of strategy 1 whose outcome depends on the rounding of a
    threshold, with the numbers of the language: [float] is the binary64
    format, and [+], [-], [*], [/] and [<?] are its IEEE 754 operations. *)

Module Binary64.

Import PrimFloat.
#[local] Open Scope float_scope.
#[local] Set Warnings "-inexact-float".

(** [a > b] and [a < b]: false when either side is [NaN]. *)
Definition gt (a b : float) : bool := b <? a.
Definition lt (a b : float) : bool := a <? b.

(** The length of an array, as a number: exact, an array having fewer
    than 2^32 elements. *)
Definition of_nat (n : nat) : float := of_uint63 (Uint63.of_Z (Z.of_nat n)).

(** [Math.min] and [Math.max] of two numbers: [NaN] if either is, and
    [-0] below [+0]. *)
Definition Math_min (a b : float) : float :=
  if is_nan a || is_nan b then nan
  else if a <? b then a
  else if b <? a then b
  else if get_sign a then a else b.

Definition Math_max (a b : float) : float :=
  if is_nan a || is_nan b then nan
  else if a <? b then b
  else if b <? a then a
  else if get_sign a then b else a.

(** [Math.min(...xs)] and [Math.max(...xs)]: [Infinity] and [-Infinity]
    on the empty array. *)
Definition Math_min_of (xs : list float) : float := fold_left Math_min xs infinity.
Definition Math_max_of (xs : list float) : float := fold_left Math_max xs neg_infinity.

(** [xs.sort(cmp)]: the stable sort, by insertion. A negative [cmp a b]
    puts [a] first. *)
Fixpoint insert_sorted {A} (cmp : A -> A -> float) (a : A) (sorted : list A) : list A :=
  match sorted with
  | [] => [a]
  | e :: tl => if lt (cmp a e) 0 then a :: e :: tl else e :: insert_sorted cmp a tl
  end.

Definition Array_sort {A} (cmp : A -> A -> float) (xs : list A) : list A :=
  fold_left (fun acc a => insert_sorted cmp a acc) xs [].

(** The six numbers of a pdf.js transform; [d] is index 3 (vertical
    scale), [e] and [f] are indices 4 and 5 (the origin of the run). *)
Record Transform := {
  ta : float; tb : float; tc : float; td : float; te : float; tf : float
}.

(** A text item of [page.getTextContent()]. *)
Record TextItem := {
  item_str : jsstring;
  item_transform : Transform;
  item_width : float;
  item_height : float
}.

(** [a || b] on numbers: [0], [-0] and [NaN] are falsy. *)
Definition or_else (a b : float) : float := if is_zero a || is_nan a then b else a.

(** [Math.abs(item.transform[3] || item.height || 10)] *)
Definition fontSizeOf (item : TextItem) : float :=
  abs (or_else (or_else (td (item_transform item)) (item_height item)) 10).

(** [fontSizes.reduce((a, b) => a + b, 0) / fontSizes.length] *)
Definition avgFontSizeOf (its : list TextItem) : float :=
  fold_left add (map fontSizeOf its) 0 / of_nat (length its).

(** A run placed on a line. *)
Record Run := {
  x : float;
  text : jsstring;
  width : float;
  run_fontSize : float
}.

Record Line := {
  y : option float;        (* [null] before the first run *)
  items : list Run;
  fontSize : float
}.

(** An emitted line of the two-column branch. *)
Record ColumnLine := {
  cl_y : option float;
  cl_text : jsstring;
  cl_fontSize : float;
  fullWidth : bool
}.

(** [line.items.reduce((s, it) => s + it.x, 0) / line.items.length] *)
Definition avgX (its : list Run) : float :=
  fold_left (fun s it => s + x it) its 0 / of_nat (length its).

(** The separator that [buildLineText] puts before a run. *)
Definition separator (avgFontSize : float) (prevItem item : Run) : jsstring :=
  let gap := x item - (x prevItem + width prevItem) in
  let spaceWidth := avgFontSize * 0.3 in
  if gt gap (spaceWidth * 6) then [SP; SP; SP; SP]
  else if gt gap (spaceWidth * 0.5) then [SP]
  else [].

(** The loop of [buildLineText] from index [j] on: [prevItem] is
    [items[j-1]], absent when [j = 0]. *)
Fixpoint buildLineText_loop (avgFontSize : float) (prevItem : option Run)
                            (its : list Run) (lineText : jsstring) : jsstring :=
  match its with
  | [] => lineText
  | item :: tl =>
      let lineText1 :=
        match prevItem with
        | Some p => lineText ++ separator avgFontSize p item
        | None => lineText
        end in
      buildLineText_loop avgFontSize (Some item) tl (lineText1 ++ text item)
  end.

Definition buildLineText (its : list Run) (avgFontSize : float) : jsstring :=
  buildLineText_loop avgFontSize None its [].

(** [line.items.sort((a, b) => a.x - b.x)] *)
Definition sortByX (its : list Run) : list Run :=
  Array_sort (fun a b => x a - x b) its.

(** Column detection: the two counters after the loop over the lines. *)
Definition countStep (midPage : float) (cnt : nat * nat) (line : Line) : nat * nat :=
  let (leftCount, rightCount) := cnt in
  let a := avgX (items line) in
  if lt a (midPage * 0.6) then (S leftCount, rightCount)
  else if gt a (midPage * 0.8) then (leftCount, S rightCount)
  else (leftCount, rightCount).

Definition columnCounts (pageWidth : float) (lines : list Line) : nat * nat :=
  fold_left (countStep (pageWidth / 2)) lines (O, O).

Definition isTwoColumn (pageWidth : float) (lines : list Line) : bool :=
  let (leftCount, rightCount) := columnCounts pageWidth lines in
  (3 <? leftCount)%nat && (3 <? rightCount)%nat
  && gt (of_nat (Nat.min leftCount rightCount) / of_nat (Nat.max leftCount rightCount))
        0.25.

(** The bucketing loop of the two-column branch: [leftLines] and
    [rightLines] after [line]. *)
Definition bucketStep (pageWidth avgFontSize : float)
                      (st : list ColumnLine * list ColumnLine) (line : Line)
  : list ColumnLine * list ColumnLine :=
  let (leftLines, rightLines) := st in
  let its := sortByX (items line) in
  let a := avgX its in
  let minX := Math_min_of (map x its) in
  let maxX := Math_max_of (map (fun it => x it + width it) its) in
  let span := maxX - minX in
  let out fw := {| cl_y := y line; cl_text := buildLineText its avgFontSize;
                   cl_fontSize := fontSize line; fullWidth := fw |} in
  if gt span (pageWidth * 0.6) then (leftLines ++ [out true], rightLines)
  else if lt a (pageWidth / 2 * 0.7) then (leftLines ++ [out false], rightLines)
  else (leftLines, rightLines ++ [out false]).

Definition twoColumnText (pageWidth avgFontSize : float) (lines : list Line) : jsstring :=
  let (leftLines, rightLines) :=
    fold_left (bucketStep pageWidth avgFontSize) lines ([], []) in
  let fullWidthLines := filter fullWidth leftLines in
  let pureLeftLines := filter (fun l => negb (fullWidth l)) leftLines in
  let pageText := fold_left (fun t l => emitLine t (cl_text l)) fullWidthLines [] in
  let pageText :=
    if nonEmpty fullWidthLines && (nonEmpty pureLeftLines || nonEmpty rightLines)
    then pageText ++ [LF] else pageText in
  let pageText := fold_left (fun t l => emitLine t (cl_text l)) pureLeftLines pageText in
  let pageText :=
    if nonEmpty pureLeftLines && nonEmpty rightLines
    then pageText ++ [LF] else pageText in
  fold_left (fun t l => emitLine t (cl_text l)) rightLines pageText.

Definition singleColumnText (avgFontSize : float) (lines : list Line) : jsstring :=
  fold_left (fun t line => emitLine t (buildLineText (sortByX (items line)) avgFontSize))
            lines [].

(** The text of the page, from its lines. *)
Definition linesText (pageWidth avgFontSize : float) (lines : list Line) : jsstring :=
  if isTwoColumn pageWidth lines
  then twoColumnText pageWidth avgFontSize lines
  else singleColumnText avgFontSize lines.

(** *** Vocabulary of the column and spacing claims *)

(** The average x of a line is below, or above, a fraction of the page
    width. *)
Definition below (fraction pageWidth : float) (line : Line) : bool :=
  lt (avgX (items line)) (pageWidth * fraction).

Definition above (fraction pageWidth : float) (line : Line) : bool :=
  gt (avgX (items line)) (pageWidth * fraction).

(** A line leans left when its average x is below [pageWidth / 2 * 0.6],
    the test of the detection loop; it is on the right of the page when
    its average x is above 80% of the page width. *)
Definition leansLeft (pageWidth : float) (line : Line) : bool :=
  lt (avgX (items line)) (pageWidth / 2 * 0.6).

Definition onTheRight (pageWidth : float) : Line -> bool := above 0.8 pageWidth.

(** The horizontal span of a line: from the left edge of its leftmost run
    to the right edge of the run that reaches furthest. *)
Definition lineSpan (line : Line) : float :=
  Math_max_of (map (fun it => x it + width it) (items line))
  - Math_min_of (map x (items line)).

(** The thresholds that the page loop derives from the page width come in
    increasing order: [w/2*0.6 <= w/2*0.7 <= w/2*0.8 <= w*0.8]. *)
Definition thresholdsInOrder (pageWidth : float) : bool :=
  (pageWidth / 2 * 0.6 <=? pageWidth / 2 * 0.7)
  && (pageWidth / 2 * 0.7 <=? pageWidth / 2 * 0.8)
  && (pageWidth / 2 * 0.8 <=? pageWidth * 0.8).

(** The runs come in ascending x order. *)
Fixpoint ascending (its : list Run) : bool :=
  match its with
  | a :: (b :: _) as tl => (x a <=? x b) && ascending tl
  | _ => true
  end.

(** A line of a two-column page: its runs are in ascending x order, it does
    not span more than [pageWidth * 0.6], and it leans left or is on the
    right. *)
Definition columnarLine (pageWidth : float) (line : Line) : Prop :=
  ascending (items line) = true
  /\ gt (lineSpan line) (pageWidth * 0.6) = false
  /\ (leansLeft pageWidth line = true \/ onTheRight pageWidth line = true).

(** The entry that the two-column branch files for a line that is not
    full width. *)
Definition columnLine (avgFontSize : float) (line : Line) : ColumnLine :=
  {| cl_y := y line;
     cl_text := buildLineText (sortByX (items line)) avgFontSize;
     cl_fontSize := fontSize line;
     fullWidth := false |}.

(** *** Sample lines *)

Definition run (s : string) (x0 w : float) : Run :=
  {| x := x0; text := str s; width := w; run_fontSize := 10 |}.

Definition line (y0 : float) (its : list Run) : Line :=
  {| y := Some y0; items := its; fontSize := 10 |}.

Definition item (s : string) (x0 y0 w : float) : TextItem :=
  {| item_str := str s;
     item_transform := {| ta := 10; tb := 0; tc := 0; td := 10; te := x0; tf := y0 |};
     item_width := w;
     item_height := 10 |}.

(** Ten lines on ten baselines, alternately at [xl] and at [xr]. *)
Definition two_column_lines (xl xr : float) : list Line :=
  [ line 700 [run "L1" xl 40]; line 690 [run "R1" xr 40];
    line 680 [run "L2" xl 40]; line 670 [run "R2" xr 40];
    line 660 [run "L3" xl 40]; line 650 [run "R3" xr 40];
    line 640 [run "L4" xl 40]; line 630 [run "R4" xr 40];
    line 620 [run "L5" xl 40]; line 610 [run "R5" xr 40] ].

(** A page of US Letter width whose lines have two or three runs each,
    four units apart. *)
Definition letter_page : list Line :=
  [ line 700 [run "Jane" 72 22; run "Doe" 98 17];
    line 690 [run "Skills" 500 26; run "and" 530 16; run "tools" 550 22];
    line 680 [run "Paris" 72.5 24; run "France" 100.5 30];
    line 670 [run "Rocq" 500.25 22; run "OCaml" 526.25 28];
    line 660 [run "Work" 72 24; run "history" 100 32];
    line 650 [run "SQL" 500 16; run "Git" 520 14];
    line 640 [run "Acme" 72 24; run "Inc" 100 14];
    line 630 [run "English" 500 32; run "native" 536 28];
    line 620 [run "2019" 72 20; run "2024" 96 20];
    line 610 [run "French" 500 30; run "fluent" 534 26] ].

(** The same page as [two_column_lines 100 500], but the first right-hand
    line also has a short run at the left margin: its average x stays above
    80% of a 600-unit page, and it spans more than 60% of it. *)
Definition wide_right_line_page : list Line :=
  [ line 700 [run "L1" 100 40];
    line 690 [run "a" 100 10; run "R1" 590 10; run "b" 600 10;
              run "c" 610 10; run "d" 620 10];
    line 680 [run "L2" 100 40]; line 670 [run "R2" 500 40];
    line 660 [run "L3" 100 40]; line 650 [run "R3" 500 40];
    line 640 [run "L4" 100 40]; line 630 [run "R4" 500 40];
    line 620 [run "L5" 100 40]; line 610 [run "R5" 500 40] ].

End Binary64.

(** ** Rounding to binary64

    The order of the binary64 numbers, and the closed form of the rounding
    that IEEE 754 applies to an exact product or quotient. *)

Module Rounding.

Import SpecFloat.
#[local] Open Scope Z_scope.

(** The place of a number in the order: its class (negative infinity,
    negative, zero, positive, positive infinity), then its exponent and its
    mantissa. [NaN] has no place. *)
Definition place (f : spec_float) : option (Z * Z * Z) :=
  match f with
  | S754_nan => None
  | S754_zero _ => Some (0, 0, 0)
  | S754_infinity s => Some (if s then (-2) else 2, 0, 0)
  | S754_finite s m e => Some (if s then (-1, - e, Zneg m) else (1, e, Zpos m))
  end.

Definition before (a b : Z * Z * Z) : Prop :=
  let '(a1, a2, a3) := a in
  let '(b1, b2, b3) := b in
  a1 < b1 \/ (a1 = b1 /\ (a2 < b2 \/ (a2 = b2 /\ a3 < b3))).

(** [m / 2^n] rounded to the nearest integer, ties to even. *)
Definition rne (m n : Z) : Z :=
  let q := m / 2 ^ n in
  let r := m mod 2 ^ n in
  if 2 * r <? 2 ^ n then q
  else if (2 * r =? 2 ^ n) && Z.even q then q
  else q + 1.

(** The number of bits of a positive integer, and the exponent of the last
    place of a binary64 number with [e] bits before the point. *)
Definition digits (m : Z) : Z := Z.log2 m + 1.

Definition fexp64 (e : Z) : Z := Z.max (e - 53) (-1074).

(** The binary64 number nearest to [m * 2^e], for a positive [m]. *)
Definition rounded (m e : Z) : spec_float :=
  let E := fexp64 (digits m + e) in
  let q := rne m (E - e) in
  if q =? 0 then S754_zero false
  else if q =? 2 ^ 53
       then (if E + 1 <=? 971 then S754_finite false (Z.to_pos (2 ^ 52)) (E + 1)
             else S754_infinity false)
       else if E <=? 971 then S754_finite false (Z.to_pos q) E
            else S754_infinity false.

(** [m1 * 2^e1 <= m2 * 2^e2], on integers. *)
Definition value_le (m1 e1 m2 e2 : Z) : Prop :=
  m1 * 2 ^ (e1 - Z.min e1 e2) <= m2 * 2 ^ (e2 - Z.min e1 e2).

(** The place of a rounded number. *)
Definition rounded_place (q E : Z) : Z * Z * Z :=
  if q =? 0 then (0, 0, 0)
  else if q =? 2 ^ 53 then (if E + 1 <=? 971 then (1, E + 1, 2 ^ 52) else (2, 0, 0))
  else if E <=? 971 then (1, E, q) else (2, 0, 0).

(** A number that is not negative is a zero, positive and finite, or
    positive infinity. *)
Inductive nonnegative : spec_float -> Prop :=
| nonneg_zero s : nonnegative (S754_zero s)
| nonneg_finite m e : nonnegative (S754_finite false m e)
| nonneg_infinity : nonnegative (S754_infinity false).

(** A positive number, and a number that is neither zero nor [NaN]. *)
Inductive positive_number : spec_float -> Prop :=
| pos_finite m e : positive_number (S754_finite false m e)
| pos_infinity : positive_number (S754_infinity false).

Definition truthy_number (f : spec_float) : bool :=
  match f with
  | S754_finite _ _ _ | S754_infinity _ => true
  | _ => false
  end.

(** A positive constant with a full mantissa, and two of them in
    increasing order. *)
Definition positive_constant (c : PrimFloat.float) : bool :=
  match FloatOps.Prim2SF c with
  | S754_finite false m _ => 2 ^ 52 <=? Z.pos m
  | _ => false
  end.

Definition constants_in_order (c1 c2 : PrimFloat.float) : bool :=
  match FloatOps.Prim2SF c1, FloatOps.Prim2SF c2 with
  | S754_finite false m1 e1, S754_finite false m2 e2 =>
      (2 ^ 52 <=? Z.pos m1) && (2 ^ 52 <=? Z.pos m2)
      && (Z.pos m1 * 2 ^ (e1 - Z.min e1 e2) <=? Z.pos m2 * 2 ^ (e2 - Z.min e1 e2))
  | _, _ => false
  end.

End Rounding.

(** ** Image preprocessing for OCR *)

Module Image.

(** A canvas with the RGBA bytes of its 2D context: four per pixel, each in
    [0, 255], [width * height] pixels. *)
Record Canvas := {
  canvas_width : nat;
  canvas_height : nat;
  pixels : list Z
}.

(** [data[i]] read as a number. An [ImageData] holds [4 * w * h] bytes, so
    the loops below never read past the end; there the model reads [0]. *)
Definition byteAt (data : list Z) (i : nat) : Q := inject_Z (nth i data 0%Z).

(** [data[i] = v] on a [Uint8ClampedArray]: the value is clamped to
    [0, 255]; a write past the end does nothing. *)
Fixpoint setByte (i : nat) (v : Z) (data : list Z) : list Z :=
  match data, i with
  | [], _ => []
  | _ :: tl, O => Z.max 0 (Z.min 255 v) :: tl
  | b :: tl, S i' => b :: setByte i' v tl
  end.

(** [Math.round(0.299 * data[i] + 0.587 * data[i + 1] + 0.114 * data[i + 2])] *)
Definition luminance (data : list Z) (i : nat) : Z :=
  Math_round ((299 # 1000) * byteAt data i + (587 # 1000) * byteAt data (i + 1)
              + (114 # 1000) * byteAt data (i + 2))%Q.

(** [histogram[gray]++]. The percentile loop reads the bins 0..255 only,
    which an increment of another key leaves as they are. *)
Fixpoint bump (bin : nat) (histogram : list Z) : list Z :=
  match histogram, bin with
  | [], _ => []
  | c :: tl, O => (c + 1)%Z :: tl
  | c :: tl, S b => c :: bump b tl
  end.

Definition increment (gray : Z) (histogram : list Z) : list Z :=
  if (0 <=? gray)%Z then bump (Z.to_nat gray) histogram else histogram.

(** [for (let i = 0; i < data.length; i += 4)] of the histogram pass. *)
Fixpoint histogramLoop (fuel i : nat) (data histogram : list Z) : list Z :=
  match fuel with
  | O => histogram
  | S fuel' =>
      if i <? length data
      then histogramLoop fuel' (i + 4) data (increment (luminance data i) histogram)
      else histogram
  end.

(** The percentile loop, from bin [i] on: [(lowVal, highVal)] at its exit. *)
Fixpoint percentileLoop (fuel : nat) (i : Z) (histogram : list Z) (totalPixels : Q)
                        (cumulative lowVal : Z) : Z * Z :=
  match fuel with
  | O => (lowVal, 255%Z)
  | S fuel' =>
      let cumulative := (cumulative + nth (Z.to_nat i) histogram 0)%Z in
      let lowVal :=
        if ge (inject_Z cumulative) (totalPixels * (2 # 100)) && (lowVal =? 0)%Z
        then i else lowVal in
      if ge (inject_Z cumulative) (totalPixels * (98 # 100))
      then (lowVal, i)
      else percentileLoop fuel' (i + 1)%Z histogram totalPixels cumulative lowVal
  end.

(** The value written to the three colour channels of the pixel at [i]. *)
Definition stretched (pow : Q -> Q -> Q) (lowVal range : Z) (data : list Z) (i : nat) : Z :=
  let gray := luminance data i in
  let gray := Math_round ((inject_Z (gray - lowVal) / inject_Z range) * 255)%Q in
  let gray := Z.max 0 (Z.min 255 gray) in
  Math_round (255 * pow (inject_Z gray / 255) (85 # 100))%Q.

(** [for (let i = 0; i < data.length; i += 4)] of the stretching pass,
    writing in place. *)
Fixpoint stretchLoop (pow : Q -> Q -> Q) (lowVal range : Z)
                     (fuel i : nat) (data : list Z) : list Z :=
  match fuel with
  | O => data
  | S fuel' =>
      if i <? length data
      then
        let gray := stretched pow lowVal range data i in
        let data := setByte i gray data in
        let data := setByte (i + 1) gray data in
        let data := setByte (i + 2) gray data in
        stretchLoop pow lowVal range fuel' (i + 4) data
      else data
  end.

Definition preprocessCanvasForOCR (pow : Q -> Q -> Q) (sourceCanvas : Canvas) : Canvas :=
  let w := canvas_width sourceCanvas in
  let h := canvas_height sourceCanvas in
  let data := pixels sourceCanvas in
  let histogram := histogramLoop (length data) 0 data (repeat 0%Z 256) in
  let totalPixels := of_nat (w * h) in
  let (lowVal, highVal) := percentileLoop 256 0%Z histogram totalPixels 0%Z 0%Z in
  let range := if (highVal - lowVal =? 0)%Z then 1%Z else (highVal - lowVal)%Z in
  {| canvas_width := w;
     canvas_height := h;
     pixels := stretchLoop pow lowVal range (length data) 0 data |}.

End Image.

Import Image.

(** ** Reconstruction of text from the recognition result *)

Module OCR.

(** The result of [worker.recognize]: the fields the parser reads. A field
    that may be missing is an [option]. *)
Record Word := { word_text : option jsstring; confidence : Q }.
Record TextLine := { words : option (list Word) }.
Record Paragraph := { lines : option (list TextLine) }.
Record Block := { paragraphs : option (list Paragraph) }.
Record OCRData := { data_text : option jsstring; blocks : option (list Block) }.

(** [s || ''] *)
Definition orEmpty (s : option jsstring) : jsstring :=
  match s with Some t => t | None => [] end.

(** [s && s.trim()] as a condition. *)
Definition hasVisibleText (s : option jsstring) : bool :=
  match s with
  | Some t => truthy t && truthy (trim t)
  | None => false
  end.

(** The loop over the words of a line: [lineText] after [word]. *)
Definition wordStep (lineText : jsstring) (word : Word) : jsstring :=
  if gt (confidence word) 30 && hasVisibleText (word_text word)
  then (if truthy lineText then lineText ++ [SP] else lineText)
         ++ trim (orEmpty (word_text word))
  else lineText.

Definition lineTextOf (ws : list Word) : jsstring := fold_left wordStep ws [].

Definition lineStep (paraText : jsstring) (line : TextLine) : jsstring :=
  match words line with
  | None => paraText
  | Some ws =>
      let lineText := lineTextOf ws in
      if truthy (trim lineText) then paraText ++ trim lineText ++ [LF] else paraText
  end.

Definition paragraphStep (result : jsstring) (paragraph : Paragraph) : jsstring :=
  match lines paragraph with
  | None => result
  | Some ls =>
      let paraText := fold_left lineStep ls [] in
      if truthy (trim paraText) then result ++ trim paraText ++ [LF; LF] else result
  end.

Definition blockStep (result : jsstring) (block : Block) : jsstring :=
  match paragraphs block with
  | None => result
  | Some ps => fold_left paragraphStep ps result
  end.

Definition reconstructTextFromOCRData (data : OCRData) : jsstring :=
  match blocks data with
  | Some (b :: bs) =>
      let result := fold_left blockStep (b :: bs) [] in
      if truthy result then result else orEmpty (data_text data)
  | _ => orEmpty (data_text data)
  end.

End OCR.

Import OCR.

(** ** Effects: calls to the collaborators, and exceptions *)

Module Effect.

Inductive phase : Type := PhaseText | PhaseOcrInit | PhaseOcrPage | PhaseOcrRecognize | PhaseOcrDone.

(** The argument of [onProgress]. *)
Record ProgressEvent := {
  ev_phase : phase;
  ev_progress : Z;
  ev_page : option nat;
  ev_totalPages : option nat
}.

(** What the pipeline does to the outside, in the order it does it. *)
Inductive event : Type :=
| ReadFile
| GetDocument
| GetPage (i : nat)
| GetTextContent (i : nat)
| RenderPage (i : nat)
| CreateWorker
| SetParameters
| Recognize (i : nat)
| Terminate
| Progress (status : ProgressEvent).

Inductive exn : Type := Exn (message : string).

Inductive result (A : Type) : Type :=
| Ok (a : A)
| Throw (e : exn).

Arguments Ok {A} a.
Arguments Throw {A} e.

(** A computation: the events it made, and how it ended. *)
Definition M (A : Type) : Type := (list event * result A)%type.

Definition ret {A} (a : A) : M A := ([], Ok a).

Definition bind {A B} (m : M A) (f : A -> M B) : M B :=
  match m with
  | (tr, Ok a) => let (tr', r) := f a in (tr ++ tr', r)
  | (tr, Throw e) => (tr, Throw e)
  end.

(** A call to a collaborator: the event, then its answer. *)
Definition call {A} (e : event) (answer : result A) : M A := ([e], answer).

Definition emit (e : event) : M unit := ([e], Ok tt).

(** [try { body } finally { cleanup }]: the cleanup runs however the body
    ends, and an exception of the cleanup replaces the body's outcome. *)
Definition try_finally {A} (body : M A) (cleanup : M unit) : M A :=
  let (tr, r) := body in
  match cleanup with
  | (tr', Ok _) => (tr ++ tr', r)
  | (tr', Throw e) => (tr ++ tr', Throw e)
  end.

Definition trace {A} (m : M A) : list event := fst m.
Definition outcome {A} (m : M A) : result A := snd m.

End Effect.

Import Effect.

Notation "x <- m ;; k" := (bind m (fun x => k))
  (at level 61, m at next level, right associativity).
Notation "m ;;; k" := (bind m (fun _ => k))
  (at level 61, right associativity).

(** ** The collaborators *)

Record TextContent := { tc_items : option (list TextItem) }.

Record PDFPage := {
  viewportWidth : Q;                      (* getViewport({ scale: 1.0 }).width *)
  getTextContent : result TextContent;
  renderToCanvas : Q -> result Canvas     (* the canvas drawn at a scale *)
}.

Record PDFDocument := {
  pdf_numPages : nat;
  getPage : nat -> result PDFPage
}.

(** What Tesseract tells its logger. *)
Record LoggerInfo := { status : string; info_progress : Q }.

Record Worker := {
  setParameters : result unit;
  recognize : nat -> Canvas -> list LoggerInfo * result OCRData;
  terminate : result unit
}.

Record File := { arrayBuffer : result (list Z) }.

Record Env := {
  Math_pow : Q -> Q -> Q;
  getDocument : list Z -> result PDFDocument;
  createWorker : list LoggerInfo * result Worker
}.

(** ** The pipeline *)

Inductive method : Type := MethodText | MethodOcr.

Record ExtractionOutcome := {
  out_text : jsstring;
  out_numPages : nat;
  out_method : method
}.

Definition MIN_TEXT_THRESHOLD : nat := 80.

(** [if (onProgress) onProgress(status)]; [onProgress] tells whether the
    caller passed a callback. *)
Definition report (onProgress : bool) (status : ProgressEvent) : M unit :=
  if onProgress then emit (Progress status) else ret tt.

(** The text added for page [i] by the standard method. *)
Definition standardPage (pdf : PDFDocument) (numPages i : nat) (fullText : jsstring)
  : M jsstring :=
  page <- call (GetPage i) (getPage pdf i) ;;
  let pageWidth := viewportWidth page in
  textContent <- call (GetTextContent i) (getTextContent page) ;;
  match tc_items textContent with
  | None => ret fullText                                   (* continue *)
  | Some [] => ret fullText                                (* continue *)
  | Some (it :: its) =>
      match filter hasText (it :: its) with
      | [] => ret fullText                                 (* continue *)
      | kept =>
          let fullText := fullText ++ pageText pageWidth kept in
          ret (if i <? numPages then fullText ++ pageBreak else fullText)
      end
  end.

(** [for (let i = ...; i <= numPages; i++)] of the standard method, with
    [k] pages still to visit. *)
Fixpoint standardLoop (pdf : PDFDocument) (numPages k i : nat) (fullText : jsstring)
  : M jsstring :=
  match k with
  | O => ret fullText
  | S k' =>
      fullText <- standardPage pdf numPages i fullText ;;
      standardLoop pdf numPages k' (S i) fullText
  end.

Definition extractWithStandardMethod (pdf : PDFDocument) (numPages : nat) : M jsstring :=
  standardLoop pdf numPages numPages 1 [].

(** The logger passed to [createWorker], run on what the worker logs while
    [currentPage] has the given value. *)
Definition logger (onProgress : bool) (numPages currentPage : nat) (info : LoggerInfo)
  : M unit :=
  if String.eqb (status info) "recognizing text" && onProgress
  then emit (Progress {| ev_phase := PhaseOcrRecognize;
                         ev_progress := Math_round (info_progress info * 100);
                         ev_page := Some currentPage;
                         ev_totalPages := Some numPages |})
  else ret tt.

Fixpoint logAll (onProgress : bool) (numPages currentPage : nat) (infos : list LoggerInfo)
  : M unit :=
  match infos with
  | [] => ret tt
  | info :: rest => logger onProgress numPages currentPage info ;;; logAll onProgress numPages currentPage rest
  end.

(** The canvas of page [i] drawn at a scale, over a white background; the
    drawing itself is the collaborator's. *)
Definition renderPageToImage (i : nat) (page : PDFPage) (scale : Q) : M Canvas :=
  call (RenderPage i) (renderToCanvas page scale).

(** The body of the OCR loop for page [i]. *)
Definition ocrPage (env : Env) (pdf : PDFDocument) (worker : Worker)
                   (numPages : nat) (onProgress : bool) (i : nat) (fullText : jsstring)
  : M jsstring :=
  report onProgress {| ev_phase := PhaseOcrPage;
                       ev_progress := Math_round (of_nat (i - 1) / of_nat numPages * 100);
                       ev_page := Some i;
                       ev_totalPages := Some numPages |} ;;;
  page <- call (GetPage i) (getPage pdf i) ;;
  canvas <- renderPageToImage i page 3 ;;
  let canvas := preprocessCanvasForOCR (Math_pow env) canvas in
  emit (Recognize i) ;;;
  logAll onProgress numPages i (fst (recognize worker i canvas)) ;;;
  data <- ([], snd (recognize worker i canvas)) ;;
  let fullText :=
    if hasVisibleText (data_text data)
    then fullText ++ reconstructTextFromOCRData data
    else fullText in
  ret (if i <? numPages then fullText ++ pageBreak else fullText).

Fixpoint ocrLoop (env : Env) (pdf : PDFDocument) (worker : Worker)
                 (numPages : nat) (onProgress : bool) (k i : nat) (fullText : jsstring)
  : M jsstring :=
  match k with
  | O => ret fullText
  | S k' =>
      fullText <- ocrPage env pdf worker numPages onProgress i fullText ;;
      ocrLoop env pdf worker numPages onProgress k' (S i) fullText
  end.

Definition extractWithOCR (env : Env) (pdf : PDFDocument) (numPages : nat)
                          (onProgress : bool) : M jsstring :=
  emit CreateWorker ;;;
  logAll onProgress numPages 0 (fst (createWorker env)) ;;;
  worker <- ([], snd (createWorker env)) ;;
  call SetParameters (setParameters worker) ;;;
  fullText <- try_finally
                (ocrLoop env pdf worker numPages onProgress numPages 1 [])
                (call Terminate (terminate worker)) ;;
  report onProgress {| ev_phase := PhaseOcrDone; ev_progress := 100;
                       ev_page := Some numPages; ev_totalPages := Some numPages |} ;;;
  ret fullText.

Definition extractTextFromPDF (env : Env) (file : File) (onProgress : bool)
  : M ExtractionOutcome :=
  arrayBuffer <- call ReadFile (arrayBuffer file) ;;
  pdf <- call GetDocument (getDocument env arrayBuffer) ;;
  let numPages := pdf_numPages pdf in
  report onProgress {| ev_phase := PhaseText; ev_progress := 0;
                       ev_page := None; ev_totalPages := None |} ;;;
  standardText <- extractWithStandardMethod pdf numPages ;;
  report onProgress {| ev_phase := PhaseText; ev_progress := 100;
                       ev_page := None; ev_totalPages := None |} ;;;
  if MIN_TEXT_THRESHOLD <=? length (trim standardText)
  then ret {| out_text := postProcessText standardText;
              out_numPages := numPages;
              out_method := MethodText |}
  else
    report onProgress {| ev_phase := PhaseOcrInit; ev_progress := 0;
                         ev_page := Some 0; ev_totalPages := Some numPages |} ;;;
    ocrText <- extractWithOCR env pdf numPages onProgress ;;
    ret {| out_text := postProcessText ocrText;
           out_numPages := numPages;
           out_method := MethodOcr |}.

(** ** Sample documents and collaborators *)

Module Samples.

Definition run (s : string) (x0 w : Q) : Run :=
  {| x := x0; text := str s; width := w; run_fontSize := 10 |}.

Definition item (s : string) (x0 y0 w : Q) : TextItem :=
  {| item_str := str s;
     item_transform := {| ta := 10; tb := 0; tc := 0; td := 10; te := x0; tf := y0 |};
     item_width := w;
     item_height := 10 |}.

(** Two opaque white pixels. *)
Definition canvas_white : Canvas :=
  {| canvas_width := 2; canvas_height := 1;
     pixels := [255; 255; 255; 255; 255; 255; 255; 255]%Z |}.

(** A dark and a light pixel, with different alpha bytes. *)
Definition canvas_two_tone : Canvas :=
  {| canvas_width := 2; canvas_height := 1;
     pixels := [10; 20; 30; 200; 250; 240; 230; 128]%Z |}.

Definition page_of (its : option (list TextItem)) : PDFPage :=
  {| viewportWidth := 600;
     getTextContent := Ok {| tc_items := its |};
     renderToCanvas := fun _ => Ok canvas_white |}.

Definition page_blank : PDFPage := page_of (Some []).
Definition page_hello : PDFPage := page_of (Some [item "Hello" 50 700 30]).

Definition long_line : string :=
  "Senior software engineer with ten years of experience in distributed systems and databases".

Definition page_long : PDFPage := page_of (Some [item long_line 50 700 400]).

Definition pdf_of (pages : list PDFPage) : PDFDocument :=
  {| pdf_numPages := length pages;
     getPage := fun i =>
       match i with
       | O => Throw (Exn "Invalid page request")
       | S j => match nth_error pages j with
                | Some p => Ok p
                | None => Throw (Exn "Invalid page request")
                end
       end |}.

Definition pdf_blank_then_hello : PDFDocument := pdf_of [page_blank; page_hello].
Definition pdf_hello : PDFDocument := pdf_of [page_hello].
Definition pdf_long : PDFDocument := pdf_of [page_long].

(** Ten short runs on ten baselines, alternately at [xl] and at [xr]. *)
Definition two_column_items (xl xr : Q) : list TextItem :=
  [ item "L1" xl 700 40; item "R1" xr 690 40;
    item "L2" xl 680 40; item "R2" xr 670 40;
    item "L3" xl 660 40; item "R3" xr 650 40;
    item "L4" xl 640 40; item "R4" xr 630 40;
    item "L5" xl 620 40; item "R5" xr 610 40 ].

(** The lines that the page loop builds from the items of a page. *)
Definition lines_of (its : list TextItem) : list Line :=
  let lineThreshold := Math_max (avgFontSizeOf its * (4 # 10)) 2 in
  groupLines lineThreshold (Array_sort (compareItems lineThreshold) its).

Definition word (s : string) (c : Q) : Word :=
  {| word_text := Some (str s); confidence := c |}.

Definition data_of (flat : string) (ws : list Word) : OCRData :=
  {| data_text := Some (str flat);
     blocks := Some [ {| paragraphs := Some [ {| lines := Some [ {| words := Some ws |} ] |} ] |} ] |}.

(** A page read as "Hello world" with good confidence. *)
Definition data_hello : OCRData := data_of "Hello world" [word "Hello" 95; word "world" 91].

(** Words were found, but the flat text is blank. *)
Definition data_blank_flat : OCRData := data_of "  " [word "Hello" 95].

(** Blocks are present, but every word is below the confidence bar. *)
Definition data_low_confidence : OCRData := data_of "He11o" [word "He11o" 12].

Definition worker_of (config : result unit) (data : OCRData) : Worker :=
  {| setParameters := config;
     recognize := fun _ _ => ([ {| status := "recognizing text"; info_progress := 1 # 2 |} ], Ok data);
     terminate := Ok tt |}.

Definition env_of (pdf : PDFDocument) (w : result Worker) : Env :=
  {| Math_pow := fun b _ => b;
     getDocument := fun _ => Ok pdf;
     createWorker := ([ {| status := "initializing api"; info_progress := 1 |} ], w) |}.

Definition file_ok : File := {| arrayBuffer := Ok [37; 80; 68; 70]%Z |}.

(** A scanned document: one page, and a worker that rejects its
    configuration. *)
Definition env_bad_config : Env :=
  env_of pdf_hello (Ok (worker_of (Throw (Exn "setParameters failed")) data_hello)).

Definition env_scan : Env := env_of pdf_hello (Ok (worker_of (Ok tt) data_hello)).
Definition env_text : Env := env_of pdf_long (Ok (worker_of (Ok tt) data_hello)).

End Samples.

(** ** Vocabulary of the specification *)

(** The events of the standard method are page loads and text reads. *)
Definition isLoaderEvent (e : event) : Prop :=
  match e with
  | GetPage _ | GetTextContent _ => True
  | _ => False
  end.

(** What a [Uint8ClampedArray] stores for an integer. *)
Definition clampByte (v : Z) : Z := Z.max 0 (Z.min 255 v).

(** A recognized word passes the confidence bar. *)
Definition confident (w : Word) : bool := gt (confidence w) 30.

(** The line of the specification's reconstruction rule: the texts of the
    confident words, joined by single spaces, the whole trimmed. *)
Definition spec_lineText (ws : list Word) : jsstring :=
  trim (join [SP] (map (fun w => orEmpty (word_text w)) (filter confident ws))).

(** A word the reconstruction keeps: confident, and with visible text. *)
Definition kept (w : Word) : bool := confident w && hasVisibleText (word_text w).

Definition trimmedText (w : Word) : jsstring := trim (orEmpty (word_text w)).

(** ** Further vocabulary *)

(** The run that the grouping loop files for a text item. *)
Definition runOf (item : TextItem) : Run :=
  {| x := te (item_transform item);
     text := item_str item;
     width := or_else (item_width item) 0;
     run_fontSize := fontSizeOf item |}.

(** The characters that step 5 of the normalizer rewrites: the vertical
    bar and the two curly braces. *)
Definition isMisread (c : N) : bool := ((c =? 124) || (c =? 123) || (c =? 125))%N.

Definition isTerminate (e : event) : bool :=
  match e with Terminate => true | _ => false end.

Definition isProgress (e : event) : bool :=
  match e with Progress _ => true | _ => false end.

(** The events of the worker: its creation, configuration, use and
    release. *)
Definition isWorkerEvent (e : event) : bool :=
  match e with
  | CreateWorker | SetParameters | Recognize _ | Terminate => true
  | _ => false
  end.

(** The words of a recognition result, block after block. *)
Definition wordsOfLine (line : TextLine) : list Word :=
  match words line with Some ws => ws | None => [] end.

Definition wordsOfParagraph (paragraph : Paragraph) : list Word :=
  match lines paragraph with Some ls => flat_map wordsOfLine ls | None => [] end.

Definition wordsOfBlock (block : Block) : list Word :=
  match paragraphs block with Some ps => flat_map wordsOfParagraph ps | None => [] end.

Definition wordsOf (data : OCRData) : list Word :=
  match blocks data with Some bs => flat_map wordsOfBlock bs | None => [] end.

(** What a recognized page adds to the text of the OCR loop, before the
    page-break marker. *)
Definition pageContribution (data : OCRData) : jsstring :=
  if hasVisibleText (data_text data) then reconstructTextFromOCRData data else [].

(** A matcher state whose remaining input and captures are made of
    characters satisfying [P]. *)
Definition stateWithin (P : N -> Prop) (st : RegExp.mstate) : Prop :=
  Forall P (RegExp.rest st) /\ Forall (fun c => Forall P (snd c)) (RegExp.caps st).

(** A replacement template whose literal text is made of such characters. *)
Definition templateWithin (P : N -> Prop) (tpl : list RegExp.piece) : Prop :=
  Forall (fun pc => match pc with RegExp.Text t => Forall P t | RegExp.Ref _ => True end) tpl.

(** ** Preview utilities of the parser *)

(** [getPDFBytes] *)
Definition getPDFBytes (file : File) : M (list Z) :=
  call ReadFile (arrayBuffer file).

(** The loop of [renderPDFPagesToImages], with [k] pages still to draw. *)
Fixpoint renderLoop (pdf : PDFDocument) (scale : Q) (k i : nat) (canvases : list Canvas)
  : M (list Canvas) :=
  match k with
  | O => ret canvases
  | S k' =>
      page <- call (GetPage i) (getPage pdf i) ;;
      canvas <- renderPageToImage i page scale ;;
      renderLoop pdf scale k' (S i) (canvases ++ [canvas])
  end.

Definition renderPDFPagesToImages (env : Env) (file : File) (scale : Q) : M (list Canvas) :=
  arrayBuffer <- call ReadFile (arrayBuffer file) ;;
  pdf <- call GetDocument (getDocument env arrayBuffer) ;;
  renderLoop pdf scale (pdf_numPages pdf) 1 [].

(** The text-bearing items of a page. *)
Definition textItems (textContent : TextContent) : list TextItem :=
  match tc_items textContent with
  | Some its => filter hasText its
  | None => []
  end.

(** What page [i] adds to the text of the standard method. *)
Definition standardContribution (numPages i : nat) (page : PDFPage)
                                (textContent : TextContent) : jsstring :=
  match textItems textContent with
  | [] => []
  | kept => pageText (viewportWidth page) kept
              ++ (if i <? numPages then pageBreak else [])
  end.

(** The calls of the standard method when it visits the pages
    [i, i+1, ..., i+k-1]. *)
Definition pageVisits (i k : nat) : list event :=
  flat_map (fun j => [GetPage j; GetTextContent j]) (seq i k).

(** A progress event other than a relay of the worker's own progress
    carries a percentage. *)
Definition boundedProgress (ev : event) : Prop :=
  match ev with
  | Progress status =>
      ev_phase status <> PhaseOcrRecognize -> (0 <= ev_progress status <= 100)%Z
  | _ => True
  end.

Definition isRecognize (e : event) : bool :=
  match e with Recognize _ => true | _ => false end.

(** A run stands to the left of another, or at the same x. *)
Definition leftOf (a b : Run) : Prop := (x a <= x b)%Q.

(** The bytes of an image all of whose [n] pixels are the same. *)
Definition uniformPixels (r g b a : Z) (n : nat) : list Z :=
  List.concat (repeat [r; g; b; a] n).

(** ** Further samples *)

Module MoreSamples.

(** Tesseract cannot be loaded. *)
Definition env_no_worker : Env :=
  Samples.env_of Samples.pdf_hello (Throw (Exn "worker failed")).

(** A scanned document of two pages, both without text items. *)
Definition pdf_scanned : PDFDocument := Samples.pdf_of [Samples.page_blank; Samples.page_blank].

Definition env_scanned : Env :=
  Samples.env_of pdf_scanned (Ok (Samples.worker_of (Ok tt) Samples.data_hello)).

(** Two pages of text. *)
Definition pdf_two_pages : PDFDocument := Samples.pdf_of [Samples.page_hello; Samples.page_long].

Definition env_two_pages : Env :=
  Samples.env_of pdf_two_pages (Ok (Samples.worker_of (Ok tt) Samples.data_hello)).

End MoreSamples.

(** * Properties *)

(** ** The effect monad *)

Lemma trace_bind {A B} (m : M A) (f : A -> M B) :
  trace (bind m f)
  = trace m ++ match outcome m with Ok a => trace (f a) | Throw _ => [] end.
Proof.
  destruct m as [tr [a | e]]; simpl.
  - destruct (f a); reflexivity.
  - now rewrite app_nil_r.
Qed.

Lemma outcome_bind {A B} (m : M A) (f : A -> M B) :
  outcome (bind m f)
  = match outcome m with Ok a => outcome (f a) | Throw e => Throw e end.
Proof.
  destruct m as [tr [a | e]]; simpl; [destruct (f a) |]; reflexivity.
Qed.

Lemma trace_try_finally {A} (body : M A) (cleanup : M unit) :
  trace (try_finally body cleanup) = trace body ++ trace cleanup.
Proof.
  destruct body as [tr r], cleanup as [tr' [u | e]]; reflexivity.
Qed.

Lemma outcome_try_finally {A} (body : M A) (cleanup : M unit) :
  outcome (try_finally body cleanup)
  = match outcome cleanup with Ok _ => outcome body | Throw e => Throw e end.
Proof.
  destruct body as [tr r], cleanup as [tr' [u | e]]; reflexivity.
Qed.

Lemma trace_call {A} e (a : result A) : trace (call e a) = [e].
Proof. reflexivity. Qed.

Lemma outcome_call {A} e (a : result A) : outcome (call e a) = a.
Proof. reflexivity. Qed.

Lemma trace_emit e : trace (emit e) = [e].
Proof. reflexivity. Qed.

Lemma outcome_emit e : outcome (emit e) = Ok tt.
Proof. reflexivity. Qed.

Lemma trace_ret {A} (a : A) : trace (ret a) = [].
Proof. reflexivity. Qed.

Lemma outcome_ret {A} (a : A) : outcome (ret a) = Ok a.
Proof. reflexivity. Qed.

Lemma trace_report b status :
  trace (report b status) = if b then [Progress status] else [].
Proof. destruct b; reflexivity. Qed.

Lemma outcome_report b status : outcome (report b status) = Ok tt.
Proof. destruct b; reflexivity. Qed.

Create Rewrite HintDb effects.

#[local] Hint Rewrite @trace_bind @outcome_bind @trace_try_finally
  @outcome_try_finally @trace_call @outcome_call trace_emit outcome_emit
  @trace_ret @outcome_ret trace_report outcome_report : effects.

(** ** Traces of the two strategies *)

Lemma standardPage_trace pdf numPages i fullText :
  Forall isLoaderEvent (trace (standardPage pdf numPages i fullText)).
Proof.
  unfold standardPage. autorewrite with effects.
  constructor; [exact I |].
  destruct (getPage pdf i) as [page | e]; [| constructor].
  autorewrite with effects.
  constructor; [exact I |].
  destruct (getTextContent page) as [tc | e]; [| constructor].
  destruct (tc_items tc) as [[| it its] |]; try constructor.
  destruct (filter hasText (it :: its)); constructor.
Qed.

Lemma standardLoop_trace pdf numPages k :
  forall i fullText,
    Forall isLoaderEvent (trace (standardLoop pdf numPages k i fullText)).
Proof.
  induction k as [| k IH]; intros i fullText; cbn [standardLoop].
  - constructor.
  - rewrite trace_bind. apply Forall_app. split.
    + apply standardPage_trace.
    + destruct (outcome (standardPage pdf numPages i fullText)); [apply IH | constructor].
Qed.

Lemma standard_never_creates_worker pdf numPages :
  ~ In CreateWorker (trace (extractWithStandardMethod pdf numPages)).
Proof.
  intros Hin.
  pose proof (standardLoop_trace pdf numPages numPages 1 []) as H.
  rewrite Forall_forall in H. exact (H _ Hin).
Qed.

Lemma ocr_creates_worker env pdf numPages onProgress :
  In CreateWorker (trace (extractWithOCR env pdf numPages onProgress)).
Proof.
  unfold extractWithOCR. rewrite trace_bind. simpl. now left.
Qed.

(** ** The orchestrator *)

Section Orchestrator.

Variables (env : Env) (file : File) (onProgress : bool).
Variables (buf : list Z) (pdf : PDFDocument) (tr : list event) (standardText : jsstring).
Hypothesis file_read : arrayBuffer file = Ok buf.
Hypothesis document_loaded : getDocument env buf = Ok pdf.
Hypothesis standard_done :
  extractWithStandardMethod pdf (pdf_numPages pdf) = (tr, Ok standardText).

Lemma run_outcome :
  outcome (extractTextFromPDF env file onProgress) =
  if MIN_TEXT_THRESHOLD <=? length (trim standardText)
  then Ok {| out_text := postProcessText standardText;
             out_numPages := pdf_numPages pdf;
             out_method := MethodText |}
  else match outcome (extractWithOCR env pdf (pdf_numPages pdf) onProgress) with
       | Ok ocrText => Ok {| out_text := postProcessText ocrText;
                             out_numPages := pdf_numPages pdf;
                             out_method := MethodOcr |}
       | Throw e => Throw e
       end.
Proof.
  unfold extractTextFromPDF.
  autorewrite with effects. rewrite file_read.
  autorewrite with effects. rewrite document_loaded.
  autorewrite with effects. rewrite standard_done. cbn [outcome snd].
  autorewrite with effects.
  destruct (MIN_TEXT_THRESHOLD <=? length (trim standardText)).
  - reflexivity.
  - autorewrite with effects.
    destruct (outcome (extractWithOCR env pdf (pdf_numPages pdf) onProgress)); reflexivity.
Qed.

Lemma run_creates_worker_iff :
  In CreateWorker (trace (extractTextFromPDF env file onProgress))
  <-> length (trim standardText) < MIN_TEXT_THRESHOLD.
Proof.
  unfold extractTextFromPDF.
  autorewrite with effects. rewrite file_read.
  autorewrite with effects. rewrite document_loaded.
  autorewrite with effects. rewrite standard_done. cbn [outcome snd trace fst].
  autorewrite with effects.
  pose proof (standard_never_creates_worker pdf (pdf_numPages pdf)) as Hstd.
  rewrite standard_done in Hstd. cbn [trace fst] in Hstd.
  destruct (Nat.leb_spec MIN_TEXT_THRESHOLD (length (trim standardText))) as [Hge | Hlt].
  - split; [| lia]. intros Hin. exfalso.
    autorewrite with effects in Hin.
    repeat (apply in_app_or in Hin; destruct Hin as [Hin | Hin]);
      try (destruct onProgress; simpl in Hin; intuition discriminate);
      try (simpl in Hin; intuition discriminate).
  - split; [intros _; exact Hlt |]. intros _.
    autorewrite with effects. rewrite !in_app_iff.
    pose proof (ocr_creates_worker env pdf (pdf_numPages pdf) onProgress). tauto.
Qed.

End Orchestrator.

(** C1. Once the document is loaded and the standard method has produced
    its text, the pipeline returns with method "text" without ever creating
    the Tesseract worker exactly when the trimmed standard text has at least
    80 characters, and its text is then the normalized standard text;
    below 80 characters the worker is created, and the pipeline ends as the
    OCR strategy does: with method "ocr" and the normalized OCR text when
    that strategy returns, with its exception otherwise. *)
Theorem method_text_iff_enough_text
    env file onProgress buf pdf tr standardText :
  arrayBuffer file = Ok buf ->
  getDocument env buf = Ok pdf ->
  extractWithStandardMethod pdf (pdf_numPages pdf) = (tr, Ok standardText) ->
  let run := extractTextFromPDF env file onProgress in
  let ocr := extractWithOCR env pdf (pdf_numPages pdf) onProgress in
  (((exists o, outcome run = Ok o /\ out_method o = MethodText)
    /\ ~ In CreateWorker (trace run))
   <-> MIN_TEXT_THRESHOLD <= length (trim standardText))
  /\ (MIN_TEXT_THRESHOLD <= length (trim standardText) ->
      outcome run = Ok {| out_text := postProcessText standardText;
                          out_numPages := pdf_numPages pdf;
                          out_method := MethodText |})
  /\ (length (trim standardText) < MIN_TEXT_THRESHOLD ->
      In CreateWorker (trace run)
      /\ outcome run =
         match outcome ocr with
         | Ok ocrText => Ok {| out_text := postProcessText ocrText;
                               out_numPages := pdf_numPages pdf;
                               out_method := MethodOcr |}
         | Throw e => Throw e
         end).
Proof.
  intros Hfile Hdoc Hstd run ocr.
  pose proof (@run_outcome env file onProgress _ _ _ _ Hfile Hdoc Hstd) as Hout.
  pose proof (@run_creates_worker_iff env file onProgress _ _ _ _ Hfile Hdoc Hstd) as Hcw.
  fold run in Hout, Hcw. fold ocr in Hout.
  destruct (Nat.leb_spec MIN_TEXT_THRESHOLD (length (trim standardText))) as [Hge | Hlt].
  - repeat split.
    + intros _. exact Hge.
    + eexists. split; [exact Hout | reflexivity].
    + rewrite Hcw. lia.
    + intros _. exact Hout.
    + lia.
    + lia.
  - repeat split.
    + intros [_ Hno]. exfalso. apply Hno. apply Hcw. exact Hlt.
    + lia.
    + lia.
    + lia.
    + apply Hcw. exact Hlt.
    + exact Hout.
Qed.

Lemma method_text_iff_enough_text_witness :
  (let run := extractTextFromPDF Samples.env_text Samples.file_ok true in
   outcome run = Ok {| out_text := str Samples.long_line;
                       out_numPages := 1;
                       out_method := MethodText |}
   /\ ~ In CreateWorker (trace run))
  /\ (let run := extractTextFromPDF Samples.env_scan Samples.file_ok true in
      In CreateWorker (trace run)
      /\ outcome run = Ok {| out_text := str "Hello world";
                             out_numPages := 1;
                             out_method := MethodOcr |}).
Proof.
  split.
  - pose proof (@method_text_iff_enough_text
                  Samples.env_text Samples.file_ok true
                  [37; 80; 68; 70]%Z Samples.pdf_long
                  [GetPage 1; GetTextContent 1]
                  (str Samples.long_line ++ [LF])
                  eq_refl eq_refl eq_refl) as [Hiff [Htext _]].
    cbv zeta in *. split.
    + rewrite Htext by (vm_compute; lia). reflexivity.
    + apply Hiff. vm_compute. lia.
  - pose proof (@method_text_iff_enough_text
                  Samples.env_scan Samples.file_ok true
                  [37; 80; 68; 70]%Z Samples.pdf_hello
                  [GetPage 1; GetTextContent 1]
                  (str "Hello" ++ [LF])
                  eq_refl eq_refl eq_refl) as [_ [_ Hocr]].
    cbv zeta in *.
    destruct Hocr as [Hcw Hout]; [vm_compute; lia |].
    split; [exact Hcw | rewrite Hout; reflexivity].
Defined.

(** C8. Whenever extraction completes, with either method, the [numPages]
    of its outcome is the page count of the document that pdf.js loaded. *)
Theorem numPages_is_page_count env file onProgress o :
  outcome (extractTextFromPDF env file onProgress) = Ok o ->
  exists buf pdf,
    arrayBuffer file = Ok buf
    /\ getDocument env buf = Ok pdf
    /\ out_numPages o = pdf_numPages pdf.
Proof.
  intros Hrun.
  destruct (arrayBuffer file) as [buf | e] eqn:Hfile.
  2:{ unfold extractTextFromPDF in Hrun. autorewrite with effects in Hrun.
      rewrite Hfile in Hrun. discriminate. }
  destruct (getDocument env buf) as [pdf | e] eqn:Hdoc.
  2:{ unfold extractTextFromPDF in Hrun. autorewrite with effects in Hrun.
      rewrite Hfile in Hrun. autorewrite with effects in Hrun.
      rewrite Hdoc in Hrun. discriminate. }
  exists buf, pdf. split; [reflexivity | split; [exact Hdoc |]].
  destruct (extractWithStandardMethod pdf (pdf_numPages pdf)) as [tr [t | e]] eqn:Hstd.
  - rewrite (@run_outcome env file onProgress _ _ _ _ Hfile Hdoc Hstd) in Hrun.
    destruct (MIN_TEXT_THRESHOLD <=? length (trim t)).
    + injection Hrun as <-. reflexivity.
    + destruct (outcome (extractWithOCR env pdf (pdf_numPages pdf) onProgress));
        [injection Hrun as <-; reflexivity | discriminate].
  - unfold extractTextFromPDF in Hrun. autorewrite with effects in Hrun.
    rewrite Hfile in Hrun. autorewrite with effects in Hrun.
    rewrite Hdoc in Hrun. autorewrite with effects in Hrun.
    rewrite Hstd in Hrun. discriminate.
Qed.

Lemma numPages_is_page_count_witness :
  (exists buf pdf,
      arrayBuffer Samples.file_ok = Ok buf
      /\ getDocument Samples.env_text buf = Ok pdf
      /\ 1 = pdf_numPages pdf)
  /\ (exists buf pdf,
         arrayBuffer Samples.file_ok = Ok buf
         /\ getDocument Samples.env_scan buf = Ok pdf
         /\ 1 = pdf_numPages pdf).
Proof.
  split.
  - exact (@numPages_is_page_count Samples.env_text Samples.file_ok true
             {| out_text := str Samples.long_line; out_numPages := 1;
                out_method := MethodText |} eq_refl).
  - exact (@numPages_is_page_count Samples.env_scan Samples.file_ok false
             {| out_text := str "Hello world"; out_numPages := 1;
                out_method := MethodOcr |} eq_refl).
Defined.

(** ** The standard method on pages without text *)

(** A page without text-bearing items leaves [fullText] as it was: the
    [continue] also skips the page-break marker. *)
Lemma standardPage_without_text pdf numPages i fullText page its :
  getPage pdf i = Ok page ->
  getTextContent page = Ok {| tc_items := Some its |} ->
  filter hasText its = [] ->
  outcome (standardPage pdf numPages i fullText) = Ok fullText.
Proof.
  intros Hpage Hcontent Hnone. unfold standardPage.
  autorewrite with effects. rewrite Hpage.
  autorewrite with effects. rewrite Hcontent. cbn [tc_items].
  destruct its as [| it its]; [reflexivity |].
  rewrite Hnone. reflexivity.
Qed.

(** C2. On a two-page document whose first page has no text item, the
    standard method returns the text of the second page alone: no
    page-break marker stands for the empty first page. *)
Theorem empty_page_drops_page_break :
  let run := extractWithStandardMethod Samples.pdf_blank_then_hello 2 in
  outcome run = Ok (str "Hello" ++ [LF])
  /\ outcome run <> Ok (pageBreak ++ str "Hello" ++ [LF]).
Proof.
  split; [vm_compute; reflexivity |].
  intros H. vm_compute in H. discriminate H.
Qed.

(** ** The OCR strategy *)

Section OcrStrategy.

Variables (env : Env) (pdf : PDFDocument) (numPages : nat) (onProgress : bool).

Lemma trace_logAll currentPage infos :
  ~ In Terminate (trace (logAll onProgress numPages currentPage infos)).
Proof.
  induction infos as [| info rest IH]; cbn [logAll]; [intros [] |].
  autorewrite with effects. rewrite in_app_iff. intros [H | H].
  - unfold logger in H.
    destruct (String.eqb (status info) "recognizing text" && onProgress);
      simpl in H; intuition discriminate.
  - destruct (outcome (logger onProgress numPages currentPage info)); [tauto | destruct H].
Qed.

Lemma outcome_logAll currentPage infos :
  outcome (logAll onProgress numPages currentPage infos) = Ok tt.
Proof.
  induction infos as [| info rest IH]; cbn [logAll]; [reflexivity |].
  autorewrite with effects.
  unfold logger at 1.
  destruct (String.eqb (status info) "recognizing text" && onProgress); exact IH.
Qed.

(** Once the worker is configured it is terminated, however the page loop
    ends. *)
Lemma configured_worker_is_terminated worker :
  snd (createWorker env) = Ok worker ->
  setParameters worker = Ok tt ->
  In Terminate (trace (extractWithOCR env pdf numPages onProgress)).
Proof.
  intros Hcreate Hconfig. unfold extractWithOCR.
  autorewrite with effects. rewrite outcome_logAll.
  autorewrite with effects. cbn [outcome trace fst snd]. rewrite Hcreate.
  autorewrite with effects. rewrite Hconfig.
  autorewrite with effects.
  rewrite !in_app_iff. simpl. tauto.
Qed.

(** A worker that rejects its configuration is never terminated. *)
Lemma unconfigured_worker_is_not_terminated worker e :
  snd (createWorker env) = Ok worker ->
  setParameters worker = Throw e ->
  outcome (extractWithOCR env pdf numPages onProgress) = Throw e
  /\ ~ In Terminate (trace (extractWithOCR env pdf numPages onProgress)).
Proof.
  intros Hcreate Hconfig. unfold extractWithOCR.
  autorewrite with effects. rewrite outcome_logAll.
  autorewrite with effects. cbn [outcome trace fst snd]. rewrite Hcreate.
  autorewrite with effects. rewrite Hconfig.
  split; [reflexivity |].
  rewrite !in_app_iff. intros [H | [H | H]].
  - simpl in H. intuition discriminate.
  - exact (trace_logAll _ _ H).
  - simpl in H. intuition discriminate.
Qed.

(** How page [i] of the OCR loop ends when its three calls succeed. *)
Lemma ocrPage_outcome worker i fullText page canvas data :
  getPage pdf i = Ok page ->
  renderToCanvas page 3 = Ok canvas ->
  snd (recognize worker i (preprocessCanvasForOCR (Math_pow env) canvas)) = Ok data ->
  outcome (ocrPage env pdf worker numPages onProgress i fullText)
  = Ok (let fullText :=
          if hasVisibleText (data_text data)
          then fullText ++ reconstructTextFromOCRData data
          else fullText in
        if i <? numPages then fullText ++ pageBreak else fullText).
Proof.
  intros Hpage Hrender Hdata. unfold ocrPage, renderPageToImage.
  autorewrite with effects. rewrite Hpage.
  autorewrite with effects. rewrite Hrender.
  autorewrite with effects. rewrite outcome_logAll.
  autorewrite with effects. cbn [outcome snd]. rewrite Hdata.
  reflexivity.
Qed.

End OcrStrategy.

(** C3. With a worker that rejects [setParameters], the OCR strategy throws
    after creating the worker and never calls [terminate]. *)
Theorem worker_not_terminated_when_configuration_fails :
  let run := extractWithOCR Samples.env_bad_config Samples.pdf_hello 1 true in
  outcome run = Throw (Exn "setParameters failed")
  /\ In CreateWorker (trace run)
  /\ ~ In Terminate (trace run).
Proof.
  split; [reflexivity | split].
  - vm_compute. tauto.
  - vm_compute. intuition discriminate.
Qed.

Lemma trim_empty_not_visible (s : option jsstring) :
  trim (orEmpty s) = [] -> hasVisibleText s = false.
Proof.
  destruct s as [t |]; simpl; [| reflexivity].
  intros ->. apply andb_false_r.
Qed.

(** C10. In the OCR loop a page whose flat text is missing, empty or blank
    adds nothing but the page-break marker, whatever its blocks hold; and
    when blocks are present but their reconstruction is the empty string,
    [reconstructTextFromOCRData] returns the flat text. *)
Theorem ocr_page_gated_by_flat_text :
  (forall env pdf worker numPages onProgress i fullText page canvas data,
      getPage pdf i = Ok page ->
      renderToCanvas page 3 = Ok canvas ->
      snd (recognize worker i (preprocessCanvasForOCR (Math_pow env) canvas)) = Ok data ->
      trim (orEmpty (data_text data)) = [] ->
      outcome (ocrPage env pdf worker numPages onProgress i fullText)
      = Ok (if i <? numPages then fullText ++ pageBreak else fullText))
  /\ (forall data b bs,
         blocks data = Some (b :: bs) ->
         fold_left blockStep (b :: bs) [] = [] ->
         reconstructTextFromOCRData data = orEmpty (data_text data)).
Proof.
  split.
  - intros env pdf worker numPages onProgress i fullText page canvas data
           Hpage Hrender Hdata Hblank.
    rewrite (ocrPage_outcome env pdf numPages onProgress worker i fullText
               Hpage Hrender Hdata).
    rewrite (trim_empty_not_visible _ Hblank). reflexivity.
  - intros data b bs Hblocks Hempty. unfold reconstructTextFromOCRData.
    rewrite Hblocks, Hempty. reflexivity.
Qed.

Lemma ocr_page_gated_by_flat_text_witness :
  (reconstructTextFromOCRData Samples.data_blank_flat = str "Hello" ++ [LF; LF]
   /\ outcome (ocrPage Samples.env_scan Samples.pdf_blank_then_hello
                 (Samples.worker_of (Ok tt) Samples.data_blank_flat) 2 true 1 (str "x"))
      = Ok (str "x" ++ pageBreak))
  /\ reconstructTextFromOCRData Samples.data_low_confidence = str "He11o".
Proof.
  destruct ocr_page_gated_by_flat_text as [Hpage Hflat].
  split; [split; [reflexivity |] |].
  - exact (Hpage Samples.env_scan Samples.pdf_blank_then_hello
             (Samples.worker_of (Ok tt) Samples.data_blank_flat) 2 true 1 (str "x")
             Samples.page_blank Samples.canvas_white Samples.data_blank_flat
             eq_refl eq_refl eq_refl eq_refl).
  - exact (Hflat Samples.data_low_confidence _ _ eq_refl eq_refl).
Defined.

(** ** Reconstruction of a line from its words *)

Lemma kept_text_nonempty w : kept w = true -> truthy (trimmedText w) = true.
Proof.
  unfold kept, hasVisibleText, trimmedText.
  destruct (word_text w) as [t |]; simpl.
  - intros H. apply andb_prop in H as [_ H]. apply andb_prop in H as [_ H]. exact H.
  - rewrite andb_false_r. discriminate.
Qed.

Lemma wordStep_kept lineText w :
  wordStep lineText w =
  if kept w
  then (if truthy lineText then lineText ++ [SP] else lineText) ++ trimmedText w
  else lineText.
Proof. reflexivity. Qed.

Lemma truthy_app_r (a b : jsstring) : truthy b = true -> truthy (a ++ b) = true.
Proof. destruct a, b; simpl; congruence. Qed.

Lemma lineText_from acc ws :
  fold_left wordStep ws acc =
  match filter kept ws with
  | [] => acc
  | _ :: _ =>
      (if truthy acc then acc ++ [SP] else acc)
        ++ join [SP] (map trimmedText (filter kept ws))
  end.
Proof.
  revert acc. induction ws as [| w ws IH]; intros acc; [reflexivity |].
  cbn [fold_left filter]. rewrite IH, wordStep_kept.
  destruct (kept w) eqn:Hw; [| reflexivity].
  pose proof (kept_text_nonempty w Hw) as Hne.
  rewrite (truthy_app_r _ _ Hne).
  destruct (filter kept ws) as [| w' rest]; cbn [map join].
  - reflexivity.
  - now rewrite <- !app_assoc.
Qed.

(** C6, as the code has it. The text of a line is made of the words whose
    confidence exceeds 30 and whose text is not blank, each trimmed, joined
    by single spaces; words of confidence 10, 45 and 92 with visible text
    yield the last two, joined by one space. *)
Theorem lineText_keeps_confident_visible_words :
  (forall ws, lineTextOf ws = join [SP] (map trimmedText (filter kept ws)))
  /\ (forall w1 w2 w3,
         confidence w1 = 10%Q -> confidence w2 = 45%Q -> confidence w3 = 92%Q ->
         hasVisibleText (word_text w2) = true ->
         hasVisibleText (word_text w3) = true ->
         lineTextOf [w1; w2; w3] = trimmedText w2 ++ [SP] ++ trimmedText w3).
Proof.
  assert (Hall : forall ws, lineTextOf ws = join [SP] (map trimmedText (filter kept ws))).
  { intros ws. unfold lineTextOf. rewrite lineText_from.
    destruct (filter kept ws); reflexivity. }
  split; [exact Hall |].
  intros w1 w2 w3 H1 H2 H3 V2 V3. rewrite Hall.
  cbn [filter]. unfold kept, confident. rewrite H1, H2, H3, V2, V3.
  reflexivity.
Qed.

Lemma lineText_keeps_confident_visible_words_witness :
  lineTextOf [Samples.word "lorem" 10; Samples.word "ipsum" 45; Samples.word " dolor " 92]
  = str "ipsum dolor".
Proof.
  destruct lineText_keeps_confident_visible_words as [_ H].
  exact (H (Samples.word "lorem" 10) (Samples.word "ipsum" 45)
           (Samples.word " dolor " 92) eq_refl eq_refl eq_refl eq_refl eq_refl).
Defined.

(** C6 as stated fails, also once the line is trimmed as [lineStep] does.
    A confident word with blank text between two others is kept by the
    specification's rule, which leaves three spaces between its neighbours;
    the code drops it and leaves one. And a confident word with spaces
    around its text keeps them under the rule, next to the joining space;
    the code trims each word. *)
Lemma lineText_blank_word_counterexample :
  let ws := [Samples.word "x" 45; Samples.word " " 92; Samples.word "y" 50] in
  let ws' := [Samples.word " a " 45; Samples.word "b" 92] in
  filter confident ws = ws
  /\ trim (lineTextOf ws) = str "x y"
  /\ spec_lineText ws = str "x   y"
  /\ trim (lineTextOf ws) <> spec_lineText ws
  /\ filter confident ws' = ws'
  /\ trim (lineTextOf ws') = str "a b"
  /\ spec_lineText ws' = str "a  b"
  /\ trim (lineTextOf ws') <> spec_lineText ws'.
Proof.
  cbv zeta.
  repeat match goal with |- _ /\ _ => split end;
    try (vm_compute; reflexivity);
    intros H; vm_compute in H; discriminate H.
Qed.

(** ** Comparisons of rationals *)

Lemma gt_true_iff a b : gt a b = true <-> (b < a)%Q.
Proof.
  unfold gt. rewrite negb_true_iff, <- not_true_iff_false, Qle_bool_iff.
  split; [apply Qnot_le_lt | apply Qlt_not_le].
Qed.

Lemma gt_false_iff a b : gt a b = false <-> (a <= b)%Q.
Proof.
  unfold gt. rewrite negb_false_iff, Qle_bool_iff. reflexivity.
Qed.

Lemma lt_true_iff a b : lt a b = true <-> (a < b)%Q.
Proof. apply gt_true_iff. Qed.

Lemma lt_false_iff a b : lt a b = false <-> (b <= a)%Q.
Proof. apply gt_false_iff. Qed.

(** ** The order of the binary64 numbers *)

(** The comparison of IEEE 754 is the lexicographic order of the places. *)
Lemma SFcompare_place f g :
  SpecFloat.SFcompare f g =
  match Rounding.place f, Rounding.place g with
  | Some a, Some b =>
      Some (let '(a1, a2, a3) := a in
            let '(b1, b2, b3) := b in
            match (a1 ?= b1)%Z with
            | Eq => match (a2 ?= b2)%Z with Eq => (a3 ?= b3)%Z | c => c end
            | c => c
            end)
  | _, _ => None
  end.
Proof.
  destruct f as [s | s | | s m e], g as [s' | s' | | s' m' e'];
    cbn [SpecFloat.SFcompare Rounding.place];
    try reflexivity; try (destruct s; reflexivity); try (destruct s'; reflexivity);
    try (destruct s, s'; reflexivity).
  destruct s, s'; cbn [negb]; try reflexivity.
  rewrite Z.compare_opp.
  destruct (Z.compare_spec e e'), (Z.compare_spec e' e); try lia; try reflexivity.
Qed.

Lemma ltb_place a b :
  PrimFloat.ltb a b = true <->
  exists p q, Rounding.place (FloatOps.Prim2SF a) = Some p
              /\ Rounding.place (FloatOps.Prim2SF b) = Some q
              /\ Rounding.before p q.
Proof.
  rewrite FloatAxioms.ltb_spec. unfold SpecFloat.SFltb. rewrite SFcompare_place.
  destruct (Rounding.place (FloatOps.Prim2SF a)) as [[[a1 a2] a3] |],
           (Rounding.place (FloatOps.Prim2SF b)) as [[[b1 b2] b3] |];
    try (split; [discriminate | intros (p & q & H1 & H2 & _); discriminate]).
  split.
  - intros H. exists (a1, a2, a3), (b1, b2, b3). repeat split. unfold Rounding.before.
    destruct (Z.compare_spec a1 b1), (Z.compare_spec a2 b2), (Z.compare_spec a3 b3);
      try discriminate; lia.
  - intros (p & q & H1 & H2 & H). injection H1 as <-. injection H2 as <-.
    unfold Rounding.before in H.
    destruct (Z.compare_spec a1 b1), (Z.compare_spec a2 b2), (Z.compare_spec a3 b3);
      try reflexivity; lia.
Qed.

Lemma leb_place a b :
  PrimFloat.leb a b = true <->
  exists p q, Rounding.place (FloatOps.Prim2SF a) = Some p
              /\ Rounding.place (FloatOps.Prim2SF b) = Some q
              /\ ~ Rounding.before q p.
Proof.
  rewrite FloatAxioms.leb_spec. unfold SpecFloat.SFleb. rewrite SFcompare_place.
  destruct (Rounding.place (FloatOps.Prim2SF a)) as [[[a1 a2] a3] |],
           (Rounding.place (FloatOps.Prim2SF b)) as [[[b1 b2] b3] |];
    try (split; [discriminate | intros (p & q & H1 & H2 & _); discriminate]).
  split.
  - intros H. exists (a1, a2, a3), (b1, b2, b3). repeat split. unfold Rounding.before.
    destruct (Z.compare_spec a1 b1), (Z.compare_spec a2 b2), (Z.compare_spec a3 b3);
      try discriminate; lia.
  - intros (p & q & H1 & H2 & H). injection H1 as <-. injection H2 as <-.
    unfold Rounding.before in H.
    destruct (Z.compare_spec a1 b1), (Z.compare_spec a2 b2), (Z.compare_spec a3 b3);
      try reflexivity; lia.
Qed.

(** Comparisons in the context become facts about places; a goal between
    numbers whose places are known is then linear arithmetic. *)
Ltac places :=
  repeat match goal with
         | H : PrimFloat.ltb _ _ = true |- _ =>
             apply ltb_place in H; destruct H as (? & ? & ? & ? & H)
         | H : PrimFloat.leb _ _ = true |- _ =>
             apply leb_place in H; destruct H as (? & ? & ? & ? & H)
         end;
  repeat match goal with
         | H1 : Rounding.place ?f = Some ?p, H2 : Rounding.place ?f = Some ?q |- _ =>
             rewrite H1 in H2; injection H2 as <-
         end.

Ltac by_places :=
  places;
  match goal with
  | |- PrimFloat.ltb _ _ = true => apply ltb_place
  | |- PrimFloat.leb _ _ = true => apply leb_place
  | |- False => idtac
  end;
  try (do 2 eexists; split; [eassumption | split; [eassumption |]]);
  unfold Rounding.before in *;
  repeat match goal with p : (Z * Z * Z)%type |- _ => destruct p as [[? ?] ?] end;
  lia.

Lemma leb_trans a b c :
  PrimFloat.leb a b = true -> PrimFloat.leb b c = true -> PrimFloat.leb a c = true.
Proof. intros H1 H2. by_places. Qed.

Lemma ltb_leb_trans a b c :
  PrimFloat.ltb a b = true -> PrimFloat.leb b c = true -> PrimFloat.ltb a c = true.
Proof. intros H1 H2. by_places. Qed.

Lemma leb_ltb_trans a b c :
  PrimFloat.leb a b = true -> PrimFloat.ltb b c = true -> PrimFloat.ltb a c = true.
Proof. intros H1 H2. by_places. Qed.

Lemma ltb_not_gtb a b : PrimFloat.ltb a b = true -> PrimFloat.ltb b a = false.
Proof.
  intros H1. destruct (PrimFloat.ltb b a) eqn:H2; [exfalso; by_places | reflexivity].
Qed.

Lemma leb_not_gtb a b : PrimFloat.leb a b = true -> PrimFloat.ltb b a = false.
Proof.
  intros H1. destruct (PrimFloat.ltb b a) eqn:H2; [exfalso; by_places | reflexivity].
Qed.

(** ** Rounding is monotone *)

Section RoundingFacts.

Import SpecFloat Rounding.
#[local] Open Scope Z_scope.

(** The bit count of the specification is the binary logarithm. *)
Lemma digits2_pos_log2 p : Zpos (digits2_pos p) = digits (Zpos p).
Proof.
  unfold digits.
  induction p as [p IH | p IH |]; cbn [digits2_pos]; try reflexivity.
  - rewrite Pos2Z.inj_succ, IH. unfold digits.
    change (Z.log2 (Z.pos p~1)) with (Z.pos (Pos.size p)).
    destruct p; cbn [Z.log2 Pos.size]; lia.
  - rewrite Pos2Z.inj_succ, IH. unfold digits.
    change (Z.log2 (Z.pos p~0)) with (Z.pos (Pos.size p)).
    destruct p; cbn [Z.log2 Pos.size]; lia.
Qed.

Lemma digits_bounds m : 0 < m -> 2 ^ (digits m - 1) <= m < 2 ^ digits m.
Proof.
  intros H. unfold digits. replace (Z.log2 m + 1 - 1) with (Z.log2 m) by lia.
  pose proof (Z.log2_spec m H). unfold Z.succ in *. lia.
Qed.

Lemma digits_pos m : 0 < m -> 0 < digits m.
Proof. intros H. unfold digits. pose proof (Z.log2_nonneg m). lia. Qed.

(** The iterator of the specification is the iterator on [nat]. *)
Lemma iter_pos_nat {A} (f : A -> A) p a :
  iter_pos f p a = Nat.iter (Pos.to_nat p) f a.
Proof.
  revert a. induction p as [p IH | p IH |]; intros a; cbn [iter_pos].
  - rewrite !IH.
    replace (Pos.to_nat p~1) with (Pos.to_nat p + (Pos.to_nat p + 1))%nat by lia.
    now rewrite !Nat.iter_add.
  - rewrite !IH. rewrite Pos2Nat.inj_xO.
    replace (2 * Pos.to_nat p)%nat with (Pos.to_nat p + Pos.to_nat p)%nat by lia.
    now rewrite Nat.iter_add.
  - reflexivity.
Qed.

Lemma mod_mod_half m n :
  0 < n -> m mod 2 ^ (n - 1) = (m mod 2 ^ n) mod 2 ^ (n - 1).
Proof.
  intros Hn.
  assert (Hhalf : 0 < 2 ^ (n - 1)) by (apply Z.pow_pos_nonneg; lia).
  assert (Hdouble : 2 ^ n = 2 * 2 ^ (n - 1)).
  { replace n with (1 + (n - 1)) at 1 by lia. rewrite Z.pow_add_r by lia. reflexivity. }
  pose proof (Z.div_mod m (2 ^ n) ltac:(lia)) as Hdm.
  set (q := m / 2 ^ n) in *. set (r := m mod 2 ^ n) in *.
  pose proof (Z.div_mod r (2 ^ (n - 1)) ltac:(lia)) as Hr.
  pose proof (Z.mod_pos_bound r (2 ^ (n - 1)) Hhalf) as Hb.
  symmetry. apply Z.mod_unique with (q := q * 2 + r / 2 ^ (n - 1)); [lia |].
  transitivity (2 * 2 ^ (n - 1) * q + (2 ^ (n - 1) * (r / 2 ^ (n - 1)) + r mod 2 ^ (n - 1)));
    [rewrite <- Hr, <- Hdouble; exact Hdm | ring].
Qed.

(** One halving: the last bit becomes the round bit, and the round bit
    joins the sticky bit. *)
Lemma shr_1_spec q r s :
  0 <= q ->
  shr_1 {| shr_m := q; shr_r := r; shr_s := s |}
  = {| shr_m := q / 2; shr_r := Z.odd q; shr_s := r || s |}.
Proof.
  intros Hq. unfold shr_1. destruct q as [| p | p]; [reflexivity | | lia].
  destruct p as [p | p |]; f_equal.
  - apply Z.div_unique with (r := 1); lia.
  - apply Z.div_unique with (r := 0); lia.
Qed.

(** [k] halvings: the quotient, the bit just below it, and whether a lower
    bit is set. *)
Lemma halvings m k :
  0 <= m -> (0 < k)%nat ->
  let mrs := Nat.iter k shr_1 {| shr_m := m; shr_r := false; shr_s := false |} in
  let half := 2 ^ (Z.of_nat k - 1) in
  shr_m mrs = m / 2 ^ Z.of_nat k
  /\ shr_r mrs = (half <=? m mod 2 ^ Z.of_nat k)
  /\ shr_s mrs = negb (m mod half =? 0).
Proof.
  intros Hm Hk. cbv zeta. induction k as [| k IH]; [lia |].
  destruct k as [| k].
  - clear IH. cbn [Nat.iter]. rewrite (shr_1_spec _ _ Hm). cbn [shr_m shr_r shr_s orb].
    change (Z.of_nat 1) with 1. change (2 ^ (1 - 1)) with 1. change (2 ^ 1) with 2.
    rewrite Z.mod_1_r. repeat split.
    rewrite Zmod_odd. destruct (Z.odd m); reflexivity.
  - destruct (IH ltac:(lia)) as (Hq & Hr & Hs). clear IH.
    set (prev := Nat.iter (S k) shr_1 _) in *.
    change (Nat.iter (S (S k)) shr_1 ?a) with (shr_1 prev).
    replace (Z.of_nat (S (S k)) - 1) with (Z.of_nat (S k)) by lia.
    replace (Z.of_nat (S (S k))) with (Z.of_nat (S k) + 1) by lia.
    set (n := Z.of_nat (S k)) in *. assert (Hn : 0 < n) by (unfold n; lia).
    rewrite Z.pow_add_r by lia. change (2 ^ 1) with 2.
    assert (Hpow : 0 < 2 ^ n) by (apply Z.pow_pos_nonneg; lia).
    assert (Hpow' : 0 < 2 ^ (n - 1)) by (apply Z.pow_pos_nonneg; lia).
    assert (Hdouble : 2 ^ n = 2 * 2 ^ (n - 1)).
    { replace n with (1 + (n - 1)) at 1 by lia. rewrite Z.pow_add_r by lia. reflexivity. }
    pose proof (Z.div_mod m (2 ^ n) ltac:(lia)) as Hdm.
    pose proof (Z.mod_pos_bound m (2 ^ n) Hpow) as Hmb.
    set (q := m / 2 ^ n) in *. set (r := m mod 2 ^ n) in *.
    pose proof (Z.div_mod q 2 ltac:(lia)) as Hq2.
    pose proof (Z.mod_pos_bound q 2 ltac:(lia)) as Hq2b.
    assert (Hqnn : 0 <= q) by (unfold q; apply Z.div_pos; lia).
    assert (Hdiv : m / (2 ^ n * 2) = q / 2).
    { symmetry. apply Z.div_unique with (r := r + 2 ^ n * (q mod 2)); nia. }
    assert (Hmod : m mod (2 ^ n * 2) = r + 2 ^ n * (q mod 2)).
    { symmetry. apply Z.mod_unique with (q := q / 2); nia. }
    rewrite Hdiv, Hmod.
    destruct prev as [pm pr ps]. cbn [shr_m shr_r shr_s] in Hq, Hr, Hs. subst pm.
    rewrite (shr_1_spec _ _ Hqnn). cbn [shr_m shr_r shr_s]. repeat split.
    + rewrite Zmod_odd. destruct (Z.odd q).
      * symmetry. apply Z.leb_le. lia.
      * symmetry. apply Z.leb_gt. lia.
    + rewrite Hr, Hs.
      pose proof (Z.div_mod r (2 ^ (n - 1)) ltac:(lia)) as Hr2.
      pose proof (Z.mod_pos_bound r (2 ^ (n - 1)) Hpow') as Hr2b.
      assert (Hmm : m mod 2 ^ (n - 1) = r mod 2 ^ (n - 1))
        by (apply mod_mod_half; lia).
      rewrite Hmm.
      assert (Hsmall : r < 2 ^ (n - 1) -> r mod 2 ^ (n - 1) = r)
        by (intros; apply Z.mod_small; lia).
      destruct (Z.leb_spec (2 ^ (n - 1)) r), (Z.eqb_spec (r mod 2 ^ (n - 1)) 0),
               (Z.eqb_spec r 0); cbn [negb orb]; try reflexivity; exfalso; lia.
Qed.


Lemma rne_exact m : rne m 0 = m.
Proof.
  unfold rne. change (2 ^ 0) with 1. rewrite Z.mod_1_r, Z.div_1_r. reflexivity.
Qed.

(** The shift of [shr], then the rounding of the last place, is [rne]. *)
Lemma shr_round m e n :
  0 <= m -> 0 <= n ->
  let mrs := fst (shr {| shr_m := m; shr_r := false; shr_s := false |} e n) in
  round_nearest_even (shr_m mrs) (loc_of_shr_record mrs) = rne m n
  /\ snd (shr {| shr_m := m; shr_r := false; shr_s := false |} e n) = e + n.
Proof.
  intros Hm Hn. cbv zeta. destruct n as [| p | p]; [| | lia].
  - cbn [shr fst snd shr_m loc_of_shr_record round_nearest_even].
    rewrite rne_exact. split; [reflexivity | lia].
  - cbn [shr fst snd]. split; [| reflexivity].
    rewrite iter_pos_nat.
    destruct (@halvings m (Pos.to_nat p) Hm (Pos2Nat.is_pos p)) as (Hq & Hr & Hs).
    rewrite positive_nat_Z in Hq, Hr, Hs.
    set (mrs := Nat.iter _ _ _) in *. destruct mrs as [q r s].
    cbn [shr_m shr_r shr_s] in *. subst q.
    assert (Hhalf : 0 < 2 ^ (Z.pos p - 1)) by (apply Z.pow_pos_nonneg; lia).
    assert (Hdouble : 2 ^ Z.pos p = 2 * 2 ^ (Z.pos p - 1)).
    { replace (Z.pos p) with (1 + (Z.pos p - 1)) at 1 by lia.
      rewrite Z.pow_add_r by lia. reflexivity. }
    pose proof (Z.mod_pos_bound m (2 ^ Z.pos p) ltac:(lia)) as Hb.
    assert (Hmm : m mod 2 ^ (Z.pos p - 1) = (m mod 2 ^ Z.pos p) mod 2 ^ (Z.pos p - 1)).
    { apply mod_mod_half. lia. }
    rewrite Hmm in Hs.
    set (rem := m mod 2 ^ Z.pos p) in *. set (half := 2 ^ (Z.pos p - 1)) in *.
    pose proof (Z.div_mod rem half ltac:(lia)) as Hdm.
    pose proof (Z.mod_pos_bound rem half Hhalf) as Hmb.
    assert (Hd : 0 <= rem / half) by (apply Z.div_pos; lia).
    unfold rne. fold rem. rewrite Hdouble. subst r s.
    destruct (Z.leb_spec half rem) as [Hge | Hlt], (Z.eqb_spec (rem mod half) 0) as [Hz | Hnz];
      cbn [negb loc_of_shr_record round_nearest_even].
    + assert (Htie : rem = half).
      { assert (rem / half < 2) by (apply Z.div_lt_upper_bound; lia).
        assert (0 < rem / half) by (apply Z.div_str_pos; lia).
        assert (Hd1 : rem / half = 1) by lia. rewrite Hd1, Hz in Hdm. lia. }
      rewrite Htie. rewrite Z.ltb_irrefl, Z.eqb_refl. cbn [andb].
      destruct (Z.even (m / (2 * half))); reflexivity.
    + assert (Hgt : half < rem).
      { assert (rem / half < 2) by (apply Z.div_lt_upper_bound; lia).
        assert (0 < rem / half) by (apply Z.div_str_pos; lia).
        assert (Hd1 : rem / half = 1) by lia. rewrite Hd1 in Hdm. lia. }
      destruct (Z.ltb_spec (2 * rem) (2 * half)); [lia |].
      destruct (Z.eqb_spec (2 * rem) (2 * half)); [lia |]. reflexivity.
    + destruct (Z.ltb_spec (2 * rem) (2 * half)); [reflexivity | lia].
    + destruct (Z.ltb_spec (2 * rem) (2 * half)); [reflexivity | lia].
Qed.


Lemma fexp_64 e : fexp 53 1024 e = fexp64 e.
Proof. reflexivity. Qed.

Lemma Zdigits2_digits m : 0 < m -> Zdigits2 m = digits m.
Proof.
  destruct m as [| p | p]; try lia. intros _. apply digits2_pos_log2.
Qed.

Lemma pow2_le a b : 0 <= a <= b -> 2 ^ a <= 2 ^ b.
Proof. intros H. apply Z.pow_le_mono_r; lia. Qed.

Lemma pow2_pos a : 0 <= a -> 0 < 2 ^ a.
Proof. intros H. apply Z.pow_pos_nonneg; lia. Qed.

(** The quotient of the shift has at most 53 bits. *)
Lemma rne_bounds m e :
  0 < m -> e <= fexp64 (digits m + e) ->
  let n := fexp64 (digits m + e) - e in
  0 <= m / 2 ^ n < 2 ^ 53 /\ m / 2 ^ n <= rne m n <= m / 2 ^ n + 1.
Proof.
  intros Hm He n. assert (Hn : 0 <= n) by (unfold n; lia).
  pose proof (pow2_pos Hn) as Hp.
  pose proof (digits_bounds Hm) as Hd. pose proof (digits_pos Hm) as Hdp.
  split.
  - split; [apply Z.div_pos; lia |].
    apply Z.div_lt_upper_bound; [lia |].
    assert (Hle : digits m <= n + 53) by (unfold n, fexp64; lia).
    pose proof (@pow2_le (digits m) (n + 53) ltac:(lia)) as Hpow.
    rewrite Z.pow_add_r in Hpow by lia. lia.
  - unfold rne.
    destruct (2 * (m mod 2 ^ n) <? 2 ^ n); [lia |].
    destruct ((2 * (m mod 2 ^ n) =? 2 ^ n) && Z.even (m / 2 ^ n)); lia.
Qed.

Lemma digits_le_53 q : 0 < q < 2 ^ 53 -> digits q <= 53.
Proof.
  intros [H0 H1]. unfold digits.
  assert (Z.log2 q < 53) by (apply Z.log2_lt_pow2; lia). lia.
Qed.

(** Rounding an exact binary fraction [m * 2^e] to binary64, when [m] has
    bits to spare. *)
Lemma binary_round_aux_exact m e :
  0 < m -> e <= fexp64 (digits m + e) ->
  binary_round_aux 53 1024 false m e loc_Exact = rounded m e.
Proof.
  intros Hm He. unfold binary_round_aux, shr_fexp, rounded.
  rewrite !fexp_64, (Zdigits2_digits Hm).
  set (E := fexp64 (digits m + e)) in *.
  assert (Hn : 0 <= E - e) by lia.
  assert (HE : -1074 <= E) by (unfold E, fexp64; lia).
  cbn [shr_record_of_loc].
  destruct (@shr_round m e (E - e) ltac:(lia) Hn) as [Hround Hexp].
  destruct (shr {| shr_m := m; shr_r := false; shr_s := false |} e (E - e)) as [mrs' e'].
  cbn [fst snd] in Hround, Hexp. rewrite Hround. subst e'.
  replace (e + (E - e)) with E by lia.
  rewrite ?fexp_64. change (1024 - 53) with 971.
  destruct (rne_bounds Hm He) as [[Hq0 Hq1] [Hr0 Hr1]]. fold E in Hq0, Hq1, Hr0, Hr1.
  set (q := rne m (E - e)) in *.
  destruct (Z.eqb_spec q 0) as [Hz | Hnz].
  - rewrite Hz. cbn [Zdigits2 Z.add].
    assert (Hshift : fexp64 E - E <= 0) by (unfold fexp64; lia).
    destruct (fexp64 E - E) as [| p | p]; try lia; reflexivity.
  - assert (Hqpos : 0 < q) by lia.
    rewrite (Zdigits2_digits Hqpos).
    destruct (Z.eqb_spec q (2 ^ 53)) as [Htop | Hlow].
    + rewrite Htop. change (digits (2 ^ 53)) with 54.
      replace (fexp64 (54 + E) - E) with 1 by (unfold fexp64; lia).
      cbn [shr shr_record_of_loc iter_pos]. rewrite (@shr_1_spec (2 ^ 53) false false) by lia.
      cbn [shr_m]. change (2 ^ 53 / 2) with (2 ^ 52).
      change (2 ^ 52) with (Z.pos (Z.to_pos (2 ^ 52))) at 1. cbv iota.
      reflexivity.
    + assert (Hd : digits q <= 53) by (apply digits_le_53; lia).
      assert (Hshift : fexp64 (digits q + E) - E <= 0) by (unfold fexp64; lia).
      destruct (fexp64 (digits q + E) - E) as [| p | p] eqn:Hs; try lia;
        cbn [shr shr_record_of_loc shr_m];
        (destruct q as [| pq | pq]; [lia | | lia]); reflexivity.
Qed.


(** Rounding to nearest is monotone in the fraction it rounds. *)
Lemma rne_mono m1 n1 m2 n2 :
  0 <= m1 -> 0 <= m2 -> 0 <= n1 -> 0 <= n2 ->
  m1 * 2 ^ n2 <= m2 * 2 ^ n1 ->
  rne m1 n1 <= rne m2 n2.
Proof.
  intros Hm1 Hm2 Hn1 Hn2 Hle. unfold rne.
  pose proof (pow2_pos Hn1) as HP1. pose proof (pow2_pos Hn2) as HP2.
  set (P1 := 2 ^ n1) in *. set (P2 := 2 ^ n2) in *.
  pose proof (Z.div_mod m1 P1 ltac:(lia)) as Hd1.
  pose proof (Z.mod_pos_bound m1 P1 HP1) as Hb1.
  pose proof (Z.div_mod m2 P2 ltac:(lia)) as Hd2.
  pose proof (Z.mod_pos_bound m2 P2 HP2) as Hb2.
  set (q1 := m1 / P1) in *. set (r1 := m1 mod P1) in *.
  set (q2 := m2 / P2) in *. set (r2 := m2 mod P2) in *.
  assert (Hq : q1 <= q2).
  { destruct (Z_le_gt_dec q1 q2) as [H | H]; [exact H | exfalso].
    assert (H1 : P1 * P2 * (q2 + 1) <= P1 * P2 * q1) by (apply Z.mul_le_mono_nonneg_l; nia).
    assert (H2 : m2 * P1 < P1 * P2 * (q2 + 1)) by nia.
    assert (H3 : P1 * P2 * q1 <= m1 * P2) by nia.
    lia. }
  assert (Hr : q1 = q2 -> r1 * P2 <= r2 * P1).
  { intros Heq. rewrite Hd1, Hd2, Heq in Hle. nia. }
  destruct (Z.ltb_spec (2 * r1) P1) as [Hl1 | Hl1].
  - destruct (Z.ltb_spec (2 * r2) P2); [exact Hq |].
    destruct ((2 * r2 =? P2) && Z.even q2); lia.
  - destruct (Z.eq_dec q1 q2) as [Heq | Hneq].
    + specialize (Hr Heq). rewrite <- Heq.
      assert (Hl2 : P2 <= 2 * r2).
      { destruct (Z_le_gt_dec P2 (2 * r2)) as [H | H]; [exact H | exfalso].
        assert (2 * r2 * P1 < P2 * P1) by (apply Z.mul_lt_mono_pos_r; lia).
        assert (P1 * P2 <= 2 * r1 * P2) by (apply Z.mul_le_mono_nonneg_r; lia).
        lia. }
      destruct (Z.ltb_spec (2 * r2) P2); [lia |].
      destruct (Z.eqb_spec (2 * r1) P1) as [He1 | He1],
               (Z.eqb_spec (2 * r2) P2) as [He2 | He2]; cbn [andb];
        destruct (Z.even q1); try lia.
      exfalso. assert (P1 < 2 * r1) by lia.
      assert (P1 * P2 < 2 * r1 * P2) by (apply Z.mul_lt_mono_pos_r; lia).
      nia.
    + assert (q1 + 1 <= q2) by lia.
      destruct ((2 * r1 =? P1) && Z.even q1);
        destruct (Z.ltb_spec (2 * r2) P2); try lia;
        destruct ((2 * r2 =? P2) && Z.even q2); lia.
Qed.


Lemma place_rounded m e :
  0 < m -> e <= fexp64 (digits m + e) ->
  place (rounded m e)
  = Some (rounded_place (rne m (fexp64 (digits m + e) - e)) (fexp64 (digits m + e))).
Proof.
  intros Hm He. unfold rounded, rounded_place.
  destruct (rne_bounds Hm He) as [[Hq0 Hq1] [Hr0 Hr1]].
  set (E := fexp64 (digits m + e)) in *. set (q := rne m (E - e)) in *.
  destruct (Z.eqb_spec q 0); [reflexivity |].
  destruct (q =? 2 ^ 53).
  - destruct (E + 1 <=? 971); reflexivity.
  - destruct (E <=? 971); [| reflexivity].
    cbn [place]. rewrite Z2Pos.id by lia. reflexivity.
Qed.

Lemma rounded_place_mono q1 E1 q2 E2 :
  0 <= q1 <= 2 ^ 53 -> 0 <= q2 <= 2 ^ 53 ->
  (E1 = E2 /\ q1 <= q2) \/ (E1 < E2 /\ 2 ^ 52 <= q2) ->
  ~ before (rounded_place q2 E2) (rounded_place q1 E1).
Proof.
  unfold rounded_place, before.
  change (2 ^ 53) with 9007199254740992. change (2 ^ 52) with 4503599627370496.
  intros H1 H2 H.
  destruct (Z.eqb_spec q1 0), (Z.eqb_spec q1 9007199254740992),
           (Z.eqb_spec q2 0), (Z.eqb_spec q2 9007199254740992),
           (Z.leb_spec (E1 + 1) 971), (Z.leb_spec E1 971),
           (Z.leb_spec (E2 + 1) 971), (Z.leb_spec E2 971); lia.
Qed.

Lemma digits_value_le m1 e1 m2 e2 :
  0 < m1 -> 0 < m2 -> value_le m1 e1 m2 e2 -> digits m1 + e1 <= digits m2 + e2.
Proof.
  intros Hm1 Hm2 Hle. unfold value_le in Hle.
  set (k := Z.min e1 e2) in *.
  assert (Ha1 : 0 <= e1 - k) by (unfold k; lia).
  assert (Ha2 : 0 <= e2 - k) by (unfold k; lia).
  pose proof (digits_bounds Hm1) as [Hlo1 _]. pose proof (digits_bounds Hm2) as [_ Hhi2].
  pose proof (digits_pos Hm1) as Hd1. pose proof (digits_pos Hm2) as Hd2.
  assert (H1 : 2 ^ (digits m1 - 1 + (e1 - k)) <= m1 * 2 ^ (e1 - k)).
  { rewrite Z.pow_add_r by lia. apply Z.mul_le_mono_nonneg_r; [apply Z.pow_nonneg; lia | lia]. }
  assert (H2 : m2 * 2 ^ (e2 - k) < 2 ^ (digits m2 + (e2 - k))).
  { rewrite Z.pow_add_r by lia. apply Z.mul_lt_mono_pos_r; [apply pow2_pos; lia | lia]. }
  assert (H3 : 2 ^ (digits m1 - 1 + (e1 - k)) < 2 ^ (digits m2 + (e2 - k))) by lia.
  apply Z.pow_lt_mono_r_iff in H3; lia.
Qed.

(** Rounding is monotone. *)
Lemma rounded_mono m1 e1 m2 e2 :
  0 < m1 -> 0 < m2 ->
  e1 <= fexp64 (digits m1 + e1) -> e2 <= fexp64 (digits m2 + e2) ->
  value_le m1 e1 m2 e2 ->
  exists p q, place (rounded m1 e1) = Some p /\ place (rounded m2 e2) = Some q
              /\ ~ before q p.
Proof.
  intros Hm1 Hm2 He1 He2 Hle.
  rewrite (place_rounded Hm1 He1), (place_rounded Hm2 He2).
  do 2 eexists. split; [reflexivity | split; [reflexivity |]].
  pose proof (digits_value_le Hm1 Hm2 Hle) as Hd.
  destruct (rne_bounds Hm1 He1) as [[Hq10 Hq11] [Hr10 Hr11]].
  destruct (rne_bounds Hm2 He2) as [[Hq20 Hq21] [Hr20 Hr21]].
  set (E1 := fexp64 (digits m1 + e1)) in *. set (E2 := fexp64 (digits m2 + e2)) in *.
  assert (HE : E1 <= E2) by (unfold E1, E2, fexp64; lia).
  apply rounded_place_mono; [lia | lia |].
  destruct (Z.eq_dec E1 E2) as [Heq | Hneq].
  - left. split; [exact Heq |]. rewrite <- Heq. apply rne_mono; try lia.
    unfold value_le in Hle. set (k := Z.min e1 e2) in *.
    assert (Ha1 : 0 <= e1 - k) by (unfold k; lia).
    assert (Ha2 : 0 <= e2 - k) by (unfold k; lia).
    assert (Hc : 0 < 2 ^ (E1 - k)) by (apply pow2_pos; lia).
    assert (H1 : m1 * 2 ^ (E1 - e2) * 2 ^ (E1 - k)
                 = m1 * 2 ^ (e1 - k) * (2 ^ (E1 - e1) * 2 ^ (E1 - e2))).
    { rewrite <- !Z.mul_assoc. f_equal. rewrite <- !Z.pow_add_r by lia. f_equal. lia. }
    assert (H2 : m2 * 2 ^ (E1 - e1) * 2 ^ (E1 - k)
                 = m2 * 2 ^ (e2 - k) * (2 ^ (E1 - e1) * 2 ^ (E1 - e2))).
    { rewrite <- !Z.mul_assoc. f_equal. rewrite <- !Z.pow_add_r by lia. f_equal. lia. }
    assert (Hpp : 0 <= 2 ^ (E1 - e1) * 2 ^ (E1 - e2)).
    { apply Z.mul_nonneg_nonneg; apply Z.pow_nonneg; lia. }
    assert (H3 : m1 * 2 ^ (E1 - e2) * 2 ^ (E1 - k) <= m2 * 2 ^ (E1 - e1) * 2 ^ (E1 - k)).
    { rewrite H1, H2. apply Z.mul_le_mono_nonneg_r; assumption. }
    apply Z.mul_le_mono_pos_r in H3; assumption.
  - right. split; [lia |].
    assert (Hnormal : E2 = digits m2 + e2 - 53) by (unfold E1, E2, fexp64 in *; lia).
    pose proof (digits_bounds Hm2) as [Hlo2 _].
    assert (Hn2 : 0 <= digits m2 - 53) by lia.
    assert (Hq2 : 2 ^ 52 <= m2 / 2 ^ (E2 - e2)).
    { replace (E2 - e2) with (digits m2 - 53) by lia.
      apply Z.div_le_lower_bound; [apply pow2_pos; lia |].
      rewrite <- Z.pow_add_r by lia. replace (digits m2 - 53 + 52) with (digits m2 - 1) by lia.
      exact Hlo2. }
    lia.
Qed.


Lemma rounded_valid m e :
  fexp64 (digits (Z.pos m) + e) = e -> e <= 971 ->
  rounded (Z.pos m) e = S754_finite false m e.
Proof.
  intros Hc He. unfold rounded. rewrite Hc, Z.sub_diag, rne_exact.
  assert (Hd : digits (Z.pos m) <= 53) by (unfold fexp64 in Hc; lia).
  pose proof (@digits_bounds (Z.pos m) ltac:(lia)) as [_ Hhi].
  assert (Hlt : Z.pos m < 2 ^ 53).
  { eapply Z.lt_le_trans; [exact Hhi | apply pow2_le].
    pose proof (@digits_pos (Z.pos m) ltac:(lia)). lia. }
  destruct (Z.eqb_spec (Z.pos m) 0); [lia |].
  destruct (Z.eqb_spec (Z.pos m) (2 ^ 53)); [lia |].
  destruct (Z.leb_spec e 971); [reflexivity | lia].
Qed.

(** A valid number has its mantissa aligned on its exponent. *)
Lemma valid_canonical_signed s m e :
  valid_binary 53 1024 (S754_finite s m e) = true ->
  fexp64 (digits (Z.pos m) + e) = e /\ e <= 971.
Proof.
  cbn [valid_binary]. unfold bounded, canonical_mantissa.
  rewrite fexp_64, digits2_pos_log2. intros H. apply andb_prop in H as [H1 H2].
  apply Z.eqb_eq in H1. apply Z.leb_le in H2. change (1024 - 53) with 971 in H2.
  split; assumption.
Qed.

Lemma valid_canonical m e :
  valid_binary 53 1024 (S754_finite false m e) = true ->
  fexp64 (digits (Z.pos m) + e) = e /\ e <= 971.
Proof. apply valid_canonical_signed. Qed.

(** On aligned mantissas, the order of the places is the order of the
    values. *)
Lemma canonical_value_le m1 e1 m2 e2 :
  fexp64 (digits (Z.pos m1) + e1) = e1 ->
  fexp64 (digits (Z.pos m2) + e2) = e2 ->
  ~ before (1, e2, Z.pos m2) (1, e1, Z.pos m1) ->
  value_le (Z.pos m1) e1 (Z.pos m2) e2.
Proof.
  intros Hc1 Hc2 Hord. unfold before in Hord. unfold value_le.
  assert (Hcase : e1 < e2 \/ (e1 = e2 /\ Z.pos m1 <= Z.pos m2)) by lia.
  destruct Hcase as [Hlt | [Heq Hm]].
  - rewrite Z.min_l by lia. rewrite Z.sub_diag, Z.mul_1_r.
    assert (Hd1 : digits (Z.pos m1) <= 53) by (unfold fexp64 in Hc1; lia).
    assert (Hd2 : digits (Z.pos m2) = 53) by (unfold fexp64 in Hc1, Hc2; lia).
    pose proof (@digits_bounds (Z.pos m1) ltac:(lia)) as [_ Hhi].
    pose proof (@digits_bounds (Z.pos m2) ltac:(lia)) as [Hlo _].
    pose proof (@digits_pos (Z.pos m1) ltac:(lia)) as Hp1.
    rewrite Hd2 in Hlo. change (2 ^ (53 - 1)) with (2 ^ 52) in Hlo.
    assert (H1 : Z.pos m1 < 2 ^ 53).
    { eapply Z.lt_le_trans; [exact Hhi | apply pow2_le; lia]. }
    assert (H2 : 2 <= 2 ^ (e2 - e1)).
    { change 2 with (2 ^ 1) at 1. apply pow2_le. lia. }
    change (2 ^ 53) with (2 ^ 52 * 2) in H1.
    assert (H3 : 2 ^ 52 * 2 <= Z.pos m2 * 2 ^ (e2 - e1)).
    { apply Z.mul_le_mono_nonneg; lia. }
    lia.
  - subst e2. rewrite Z.min_id, Z.sub_diag. lia.
Qed.

Lemma digits_product m c :
  2 ^ 52 <= Z.pos c -> 53 <= digits (Z.pos (m * c)).
Proof.
  intros Hc. unfold digits.
  assert (52 <= Z.log2 (Z.pos (m * c))); [| lia].
  apply Z.log2_le_pow2; [lia |]. rewrite Pos2Z.inj_mul. nia.
Qed.

(** The product of two positive numbers, the second with a full mantissa,
    is the rounding of the exact product. *)
Lemma SFmul_rounded m e c ec :
  2 ^ 52 <= Z.pos c ->
  SFmul 53 1024 (S754_finite false m e) (S754_finite false c ec)
  = rounded (Z.pos (m * c)) (e + ec)
  /\ e + ec <= fexp64 (digits (Z.pos (m * c)) + (e + ec)).
Proof.
  intros Hc. pose proof (digits_product m Hc) as Hd.
  assert (He : e + ec <= fexp64 (digits (Z.pos (m * c)) + (e + ec)))
    by (unfold fexp64; lia).
  split; [| exact He].
  cbn [SFmul xorb]. apply binary_round_aux_exact; [lia | exact He].
Qed.


Lemma div_eucl_div_mod a b : Z.div_eucl a b = (a / b, a mod b).
Proof. unfold Z.div, Z.modulo. destruct (Z.div_eucl a b); reflexivity. Qed.

(** Half of a valid positive number is the rounding of a fraction that is
    no larger than the number. *)
Lemma SFdiv_two m e :
  valid_binary 53 1024 (S754_finite false m e) = true ->
  exists M e',
    0 < M /\ e' <= fexp64 (digits M + e')
    /\ SFdiv 53 1024 (S754_finite false m e) (S754_finite false 4503599627370496 (-51))
       = rounded M e'
    /\ value_le M e' (Z.pos m) e.
Proof.
  intros Hvalid. destruct (valid_canonical m e Hvalid) as [Hc He].
  pose proof (@digits_bounds (Z.pos m) ltac:(lia)) as [Hlo Hhi].
  pose proof (@digits_pos (Z.pos m) ltac:(lia)) as Hdp.
  set (d := digits (Z.pos m)) in *.
  assert (Hd : d <= 53) by (unfold fexp64 in Hc; lia).
  assert (Hmin : -1074 <= e) by (unfold fexp64 in Hc; lia).
  cbn [SFdiv xorb]. unfold SFdiv_core_binary.
  rewrite fexp_64. cbn [Zdigits2]. rewrite digits2_pos_log2. fold d.
  change (Z.pos (digits2_pos 4503599627370496)) with 53.
  replace (d + e - (53 + -51)) with (d + e - 2) by lia.
  replace (e - -51) with (e + 51) by lia.
  set (e' := Z.min (fexp64 (d + e - 2)) (e + 51)).
  rewrite div_eucl_div_mod.
  destruct (Z_le_gt_dec (-1073) e) as [Hnormal | Hlowest].
  - (* the mantissa is full: the quotient is exact *)
    assert (Hfull : d = 53) by (unfold fexp64 in Hc; lia).
    assert (He' : e' = e - 2 \/ e' = e - 1) by (unfold e', fexp64; lia).
    assert (Hs : e + 51 - e' = 53 \/ e + 51 - e' = 52) by lia.
    assert (Hfe : e - 1 <= fexp64 (d + e - 1)) by (unfold fexp64; lia).
    destruct Hs as [Hs | Hs]; rewrite Hs; lazy iota.
    + exists (Z.pos m * 2), e'.
      assert (Hq : Z.shiftl (Z.pos m) 53 / 4503599627370496 = Z.pos m * 2).
      { rewrite Z.shiftl_mul_pow2 by lia. symmetry.
        apply Z.div_unique with (r := 0); [lia |].
        change (2 ^ 53) with (2 * 4503599627370496). lia. }
      assert (Hr : Z.shiftl (Z.pos m) 53 mod 4503599627370496 = 0).
      { rewrite Z.shiftl_mul_pow2 by lia. symmetry.
        apply Z.mod_unique with (q := Z.pos m * 2); [lia |].
        change (2 ^ 53) with (2 * 4503599627370496). lia. }
      rewrite Hq, Hr.
      assert (Hdig : digits (Z.pos m * 2) = d + 1).
      { unfold digits, d. rewrite Z.mul_comm, Z.log2_double by lia. unfold digits. lia. }
      assert (Hpre : e' <= fexp64 (digits (Z.pos m * 2) + e'))
        by (rewrite Hdig; unfold fexp64; lia).
      split; [lia | split; [exact Hpre | split]].
      * cbn [new_location Z.even new_location_even Z.eqb].
        apply binary_round_aux_exact; [lia | exact Hpre].
      * unfold value_le. rewrite Z.min_l by lia. rewrite Z.sub_diag.
        replace (e - e') with 2 by lia. change (2 ^ 2) with 4. change (2 ^ 0) with 1. lia.
    + exists (Z.pos m), e'.
      assert (Hq : Z.shiftl (Z.pos m) 52 / 4503599627370496 = Z.pos m).
      { rewrite Z.shiftl_mul_pow2 by lia. symmetry.
        apply Z.div_unique with (r := 0); [lia |].
        change (2 ^ 52) with 4503599627370496. lia. }
      assert (Hr : Z.shiftl (Z.pos m) 52 mod 4503599627370496 = 0).
      { rewrite Z.shiftl_mul_pow2 by lia. symmetry.
        apply Z.mod_unique with (q := Z.pos m); [lia |].
        change (2 ^ 52) with 4503599627370496. lia. }
      rewrite Hq, Hr.
      assert (Hpre : e' <= fexp64 (digits (Z.pos m) + e')) by (fold d; unfold fexp64; lia).
      split; [lia | split; [exact Hpre | split]].
      * cbn [new_location Z.even new_location_even Z.eqb].
        apply binary_round_aux_exact; [lia | exact Hpre].
      * unfold value_le. rewrite Z.min_l by lia. rewrite Z.sub_diag.
        replace (e - e') with 1 by lia. change (2 ^ 1) with 2. change (2 ^ 0) with 1. lia.
  - (* the lowest exponent: the last bit of the mantissa is rounded *)
    assert (Hlow : e = -1074) by lia. subst e.
    assert (He' : e' = -1074) by (unfold e', fexp64; lia).
    rewrite He'. change (-1074 + 51 - -1074) with 51. lazy iota.
    pose proof (Z.div_mod (Z.pos m) 2 ltac:(lia)) as Hdm.
    pose proof (Z.mod_pos_bound (Z.pos m) 2 ltac:(lia)) as Hmb.
    assert (Hq : Z.shiftl (Z.pos m) 51 / 4503599627370496 = Z.pos m / 2).
    { rewrite Z.shiftl_mul_pow2 by lia. symmetry.
      apply Z.div_unique with (r := (Z.pos m mod 2) * 2 ^ 51); [lia |].
      change 4503599627370496 with (2 * 2 ^ 51). lia. }
    assert (Hr : Z.shiftl (Z.pos m) 51 mod 4503599627370496 = (Z.pos m mod 2) * 2 ^ 51).
    { rewrite Z.shiftl_mul_pow2 by lia. symmetry.
      apply Z.mod_unique with (q := Z.pos m / 2); [lia |].
      change 4503599627370496 with (2 * 2 ^ 51). lia. }
    rewrite Hq, Hr.
    exists (Z.pos m), (-1075).
    assert (Hpre : -1075 <= fexp64 (digits (Z.pos m) + -1075)) by (unfold fexp64; lia).
    split; [lia | split; [exact Hpre | split]].
    + unfold rounded. fold d.
      replace (fexp64 (d + -1075)) with (-1074) by (unfold fexp64; lia).
      change (-1074 - -1075) with 1. unfold rne. change (2 ^ 1) with 2.
      assert (Hhalf : 0 <= Z.pos m / 2 < 2 ^ 52).
      { split; [apply Z.div_pos; lia |]. apply Z.div_lt_upper_bound; [lia |].
        change (2 * 2 ^ 52) with (2 ^ 53).
        eapply Z.lt_le_trans; [exact Hhi | apply pow2_le; lia]. }
      set (q := Z.pos m / 2) in *.
      assert (Hbit : Z.pos m mod 2 = 0 \/ Z.pos m mod 2 = 1) by lia.
      destruct Hbit as [Hbit | Hbit]; rewrite Hbit.
      * (* an even mantissa: the quotient is exact *)
        cbn [Z.mul new_location Z.even new_location_even Z.eqb Z.ltb Z.compare].
        assert (Hqpos : 0 < q) by lia.
        rewrite (@binary_round_aux_exact q (-1074) Hqpos) by (unfold fexp64; lia).
        unfold rounded.
        assert (Hdq : digits q <= 53) by (apply digits_le_53; change (2 ^ 53) with (2 * 2 ^ 52); lia).
        replace (fexp64 (digits q + -1074)) with (-1074) by (unfold fexp64; lia).
        rewrite Z.sub_diag, rne_exact. reflexivity.
      * (* an odd mantissa: a tie, rounded to the even neighbour *)
        change (1 * 2 ^ 51) with 2251799813685248.
        cbn [new_location Z.even new_location_even Z.eqb Z.mul Z.compare Pos.compare
             Pos.compare_cont Z.ltb andb Pos.mul].
        unfold binary_round_aux, shr_fexp. rewrite !fexp_64.
        assert (Hdig : Zdigits2 q <= 52).
        { destruct (Z.eq_dec q 0) as [-> | Hnz]; [cbn; lia |].
          rewrite Zdigits2_digits by lia. unfold digits.
          assert (Z.log2 q < 52) by (apply Z.log2_lt_pow2; lia). lia. }
        assert (Hdig0 : 0 <= Zdigits2 q).
        { destruct q as [| p | p]; cbn [Zdigits2]; lia. }
        replace (fexp64 (Zdigits2 q + -1074) - -1074) with 0 by (unfold fexp64; lia).
        cbn [shr shr_record_of_loc shr_m loc_of_shr_record round_nearest_even].
        set (q' := if Z.even q then q else q + 1).
        assert (Hq' : 0 <= q' <= 2 ^ 52) by (unfold q'; destruct (Z.even q); lia).
        rewrite ?fexp_64.
        assert (Hdig' : Zdigits2 q' <= 53 /\ 0 <= Zdigits2 q').
        { destruct (Z.eq_dec q' 0) as [-> | Hnz]; [cbn; lia |].
          rewrite Zdigits2_digits by lia. split; [apply digits_le_53 | unfold digits].
          - change (2 ^ 53) with (2 * 2 ^ 52). lia.
          - pose proof (Z.log2_nonneg q'). lia. }
        assert (Hshift : fexp64 (Zdigits2 q' + -1074) - -1074 = 0) by (unfold fexp64; lia).
        rewrite Hshift. cbn [shr shr_record_of_loc shr_m].
        change (1024 - 53) with 971.
        change (2 =? 2)%positive with true. cbn [andb]. fold q'.
        destruct (Z.eqb_spec q' 0) as [Hz | Hnz].
        -- rewrite Hz. reflexivity.
        -- destruct (Z.eqb_spec q' (2 ^ 53)) as [Htop | _];
             [change (2 ^ 53) with (2 * 2 ^ 52) in Htop; lia |].
           destruct q' as [| p | p]; [lia | | lia]. reflexivity.
    + unfold value_le. rewrite Z.min_l by lia. rewrite Z.sub_diag.
      change (-1074 - -1075) with 1. change (2 ^ 1) with 2. change (2 ^ 0) with 1. lia.
Qed.

End RoundingFacts.

(** ** Products and halves of numbers that are not negative *)

Section ProductsAndHalves.

Import PrimFloat SpecFloat FloatOps FloatAxioms Rounding.
#[local] Open Scope float_scope.

(** [0 <= a] holds of the numbers that are not negative, [-0] included. *)
Lemma nonnegative_iff a : (0 <=? a) = true <-> nonnegative (Prim2SF a).
Proof.
  rewrite leb_spec. change (Prim2SF 0) with (S754_zero false).
  unfold SFleb. split.
  - destruct (Prim2SF a) as [s | s | | s m e]; cbn [SFcompare];
      try destruct s; try discriminate; intros _; constructor.
  - intros H. destruct H; reflexivity.
Qed.

Lemma nonnegative_place f :
  nonnegative f -> exists p, place f = Some p /\ ~ before p (0, 0, 0)%Z.
Proof.
  intros H. destruct H; cbn [place]; eexists; (split; [reflexivity |]);
    unfold before; lia.
Qed.

Lemma place_nonnegative f p :
  place f = Some p -> ~ before p (0, 0, 0)%Z -> nonnegative f.
Proof.
  destruct f as [s | s | | s m e]; cbn [place]; try discriminate;
    intros H; injection H as <-; unfold before; intros Hp.
  - constructor.
  - destruct s; [lia | constructor].
  - destruct s; [lia | constructor].
Qed.

Lemma rounded_nonnegative m e :
  (0 < m)%Z -> (e <= fexp64 (digits m + e))%Z -> nonnegative (rounded m e).
Proof.
  intros Hm He. unfold rounded.
  destruct (_ =? 0)%Z; [constructor |].
  destruct (_ =? 2 ^ 53)%Z.
  - destruct (_ <=? 971)%Z; constructor.
  - destruct (_ <=? 971)%Z; constructor.
Qed.

Lemma positive_constant_spec c :
  positive_constant c = true ->
  exists m e, Prim2SF c = S754_finite false m e /\ (2 ^ 52 <= Z.pos m)%Z.
Proof.
  unfold positive_constant.
  destruct (Prim2SF c) as [s | s | | s m e]; try discriminate.
  destruct s; [discriminate |]. intros H. apply Z.leb_le in H. now exists m, e.
Qed.

Lemma constants_in_order_spec c1 c2 :
  constants_in_order c1 c2 = true ->
  exists m1 e1 m2 e2,
    Prim2SF c1 = S754_finite false m1 e1 /\ (2 ^ 52 <= Z.pos m1)%Z
    /\ Prim2SF c2 = S754_finite false m2 e2 /\ (2 ^ 52 <= Z.pos m2)%Z
    /\ value_le (Z.pos m1) e1 (Z.pos m2) e2.
Proof.
  unfold constants_in_order, value_le.
  destruct (Prim2SF c1) as [s1 | s1 | | s1 m1 e1]; try discriminate.
  destruct s1; [discriminate |].
  destruct (Prim2SF c2) as [s2 | s2 | | s2 m2 e2]; try discriminate.
  destruct s2; [discriminate |].
  intros H. apply andb_prop in H as [H H3]. apply andb_prop in H as [H1 H2].
  apply Z.leb_le in H1, H2, H3. now exists m1, e1, m2, e2.
Qed.

Lemma SF64mul_constant f c :
  positive_constant c = true -> nonnegative f ->
  nonnegative (SF64mul f (Prim2SF c)).
Proof.
  intros Hpc Hf. destruct (positive_constant_spec c Hpc) as (m & e & Hc & Hm).
  rewrite Hc. change SF64mul with (SFmul 53 1024).
  destruct Hf as [s | ma ea |]; cbn [SFmul xorb]; try constructor.
  destruct (SFmul_rounded ma ea e Hm) as [Heq Hpre]. cbn [SFmul xorb] in Heq.
  rewrite Heq. apply rounded_nonnegative; [lia | exact Hpre].
Qed.

(** A product with a positive constant keeps the sign. *)
Lemma mul_nonneg a c :
  positive_constant c = true -> (0 <=? a) = true -> (0 <=? a * c) = true.
Proof.
  intros Hc Ha. apply nonnegative_iff. rewrite mul_spec.
  apply SF64mul_constant; [exact Hc | now apply nonnegative_iff].
Qed.

Lemma value_le_scale m m1 e m2 e1 e2 :
  value_le (Z.pos m1) e1 (Z.pos m2) e2 ->
  value_le (Z.pos (m * m1)) (e + e1) (Z.pos (m * m2)) (e + e2).
Proof.
  unfold value_le. rewrite Z.add_min_distr_l.
  replace (e + e1 - (e + Z.min e1 e2))%Z with (e1 - Z.min e1 e2)%Z by lia.
  replace (e + e2 - (e + Z.min e1 e2))%Z with (e2 - Z.min e1 e2)%Z by lia.
  rewrite !Pos2Z.inj_mul. intros H. rewrite <- !Z.mul_assoc.
  apply Z.mul_le_mono_nonneg_l; [lia | exact H].
Qed.

Lemma value_le_scale_r m1 m2 c e1 e2 ec :
  value_le (Z.pos m1) e1 (Z.pos m2) e2 ->
  value_le (Z.pos (m1 * c)) (e1 + ec) (Z.pos (m2 * c)) (e2 + ec).
Proof.
  unfold value_le. rewrite Z.add_min_distr_r.
  replace (e1 + ec - (Z.min e1 e2 + ec))%Z with (e1 - Z.min e1 e2)%Z by lia.
  replace (e2 + ec - (Z.min e1 e2 + ec))%Z with (e2 - Z.min e1 e2)%Z by lia.
  rewrite !Pos2Z.inj_mul. intros H.
  rewrite (Z.mul_comm (Z.pos m1)), (Z.mul_comm (Z.pos m2)), <- !Z.mul_assoc.
  apply Z.mul_le_mono_nonneg_l; [lia | exact H].
Qed.

(** A product grows with the constant. *)
Lemma mul_le_mono_constant a c1 c2 :
  constants_in_order c1 c2 = true ->
  (0 <=? a) = true -> (a * c1 <=? a * c2) = true.
Proof.
  intros Hcs Ha.
  destruct (constants_in_order_spec c1 c2 Hcs)
    as (m1 & e1 & m2 & e2 & Hc1 & Hm1 & Hc2 & Hm2 & Hle).
  apply nonnegative_iff in Ha.
  apply leb_place. rewrite !mul_spec, Hc1, Hc2. change SF64mul with (SFmul 53 1024).
  destruct Ha as [s | m e |]; cbn [SFmul xorb].
  - do 2 eexists. split; [reflexivity | split; [reflexivity |]]. unfold before. lia.
  - destruct (SFmul_rounded m e e1 Hm1) as [Heq1 Hpre1].
    destruct (SFmul_rounded m e e2 Hm2) as [Heq2 Hpre2].
    cbn [SFmul xorb] in Heq1, Heq2. rewrite Heq1, Heq2.
    apply rounded_mono; try lia; try assumption.
    now apply value_le_scale.
  - do 2 eexists. split; [reflexivity | split; [reflexivity |]]. unfold before. lia.
Qed.

(** A product with a positive constant grows with the other factor. *)
Lemma mul_le_mono_factor a b c :
  positive_constant c = true ->
  (0 <=? a) = true -> (a <=? b) = true -> (a * c <=? b * c) = true.
Proof.
  intros Hpc Ha Hab. destruct (positive_constant_spec c Hpc) as (m & e & Hc & Hm).
  apply nonnegative_iff in Ha.
  pose proof (Prim2SF_valid a) as Hva. pose proof (Prim2SF_valid b) as Hvb.
  apply leb_place in Hab. destruct Hab as (p & q & Hp & Hq & Hpq).
  apply leb_place. rewrite !mul_spec, Hc. change SF64mul with (SFmul 53 1024).
  set (fa := Prim2SF a) in *. clearbody fa.
  destruct Ha as [s | ma ea |].
  - (* zero times the constant *)
    cbn [place] in Hp. injection Hp as <-.
    assert (Hb : nonnegative (Prim2SF b)) by (eapply place_nonnegative; eassumption).
    assert (Hbc : nonnegative (SFmul 53 1024 (Prim2SF b) (S754_finite false m e))).
    { rewrite <- Hc. apply SF64mul_constant; assumption. }
    destruct (nonnegative_place Hbc) as (r & Hr & Hr0).
    exists (0, 0, 0)%Z, r. cbn [SFmul xorb place]. repeat split; assumption.
  - cbn [place] in Hp. injection Hp as <-.
    destruct (Prim2SF b) as [sb | sb | | sb mb eb]; cbn [place] in Hq;
      try discriminate; injection Hq as <-.
    + exfalso. apply Hpq. unfold before. lia.
    + destruct sb; [exfalso; apply Hpq; unfold before; lia |].
      destruct (SFmul_rounded ma ea e Hm) as [Heq Hpre].
      cbn [SFmul xorb] in Heq |- *. rewrite Heq.
      assert (Hpos : (0 < Z.pos (ma * m))%Z) by lia.
      destruct (nonnegative_place (rounded_nonnegative Hpos Hpre)) as (r & Hr & _).
      exists r, (2, 0, 0)%Z. rewrite Hr. cbn [place]. repeat split.
      rewrite (place_rounded Hpos Hpre) in Hr. injection Hr as <-.
      unfold rounded_place, before.
      destruct (_ =? 0)%Z; [lia |]. destruct (_ =? 2 ^ 53)%Z.
      * destruct (_ <=? 971)%Z; lia.
      * destruct (_ <=? 971)%Z; lia.
    + destruct sb; [exfalso; apply Hpq; unfold before; lia |].
      destruct (valid_canonical ma ea Hva) as [Hca _].
      destruct (valid_canonical mb eb Hvb) as [Hcb _].
      pose proof (canonical_value_le Hca Hcb Hpq) as Hle.
      destruct (SFmul_rounded ma ea e Hm) as [Heq1 Hpre1].
      destruct (SFmul_rounded mb eb e Hm) as [Heq2 Hpre2].
      cbn [SFmul xorb] in Heq1, Heq2 |- *. rewrite Heq1, Heq2.
      apply rounded_mono; try lia; try assumption.
      now apply value_le_scale_r.
  - cbn [place] in Hp. injection Hp as <-.
    destruct (Prim2SF b) as [sb | sb | | sb mb eb]; cbn [place] in Hq;
      try discriminate; injection Hq as <-;
      try (exfalso; apply Hpq; unfold before; destruct sb; lia).
    destruct sb; [exfalso; apply Hpq; unfold before; lia |].
    cbn [SFmul xorb]. do 2 eexists. split; [reflexivity | split; [reflexivity |]].
    unfold before. lia.
Qed.

(** Half of a number that is not negative is not negative, and no
    larger. *)
Lemma half_bounds a :
  (0 <=? a) = true -> (0 <=? a / 2) = true /\ (a / 2 <=? a) = true.
Proof.
  intros Ha. apply nonnegative_iff in Ha.
  pose proof (Prim2SF_valid a) as Hva.
  rewrite nonnegative_iff, leb_place, div_spec.
  change (Prim2SF 2) with (S754_finite false 4503599627370496 (-51)).
  change SF64div with (SFdiv 53 1024).
  set (fa := Prim2SF a) in *. clearbody fa.
  destruct Ha as [s | m e |].
  - cbn [SFdiv xorb place]. split; [constructor |].
    do 2 eexists. split; [reflexivity | split; [reflexivity |]]. unfold before. lia.
  - destruct (SFdiv_two m e Hva) as (M & e' & HM & Hpre & Heq & Hle).
    rewrite Heq. split; [now apply rounded_nonnegative |].
    destruct (valid_canonical m e Hva) as [Hc He].
    rewrite <- (rounded_valid m Hc He).
    apply rounded_mono; try lia; try assumption.
  - cbn [SFdiv xorb place]. split; [constructor |].
    do 2 eexists. split; [reflexivity | split; [reflexivity |]]. unfold before. lia.
Qed.


#[local] Set Warnings "-inexact-float".

(** The thresholds of a page that is not of negative width are in their
    order. *)
Lemma thresholds_in_order pw :
  (0 <=? pw) = true -> Binary64.thresholdsInOrder pw = true.
Proof.
  intros Hpw. unfold Binary64.thresholdsInOrder.
  destruct (half_bounds Hpw) as [Hmid Hle].
  rewrite (@mul_le_mono_constant (pw / 2) 0.6 0.7);
    [| vm_compute; reflexivity | exact Hmid].
  rewrite (@mul_le_mono_constant (pw / 2) 0.7 0.8);
    [| vm_compute; reflexivity | exact Hmid].
  rewrite (@mul_le_mono_factor (pw / 2) pw 0.8);
    [reflexivity | vm_compute; reflexivity | exact Hmid | exact Hle].
Qed.

(** So are the two thresholds of the spacing, for a font size that is not
    negative. *)
Lemma spacing_thresholds avg :
  (0 <=? avg) = true -> (avg * 0.3 * 0.5 <=? avg * 0.3 * 6) = true.
Proof.
  intros Havg. apply mul_le_mono_constant; [vm_compute; reflexivity |].
  apply mul_nonneg; [vm_compute; reflexivity | exact Havg].
Qed.

(** *** Differences *)

Lemma iter_xO m d : Z.pos (Pos.iter xO m d) = (Z.pos m * 2 ^ Z.pos d)%Z.
Proof.
  rewrite Pos2Nat.inj_iter. rewrite <- (positive_nat_Z d).
  induction (Pos.to_nat d) as [| n IH]; cbn [Nat.iter nat_rect].
  - change (2 ^ Z.of_nat 0)%Z with 1%Z. lia.
  - rewrite Pos2Z.inj_xO, IH, Nat2Z.inj_succ, Z.pow_succ_r by lia. ring.
Qed.

Lemma shl_align_fst m e ez :
  (ez <= e)%Z -> Z.pos (fst (shl_align m e ez)) = (Z.pos m * 2 ^ (e - ez))%Z.
Proof.
  intros Hle. unfold shl_align.
  destruct (ez - e)%Z as [| d | d] eqn:Hd; cbn [fst]; try lia.
  - replace (e - ez)%Z with 0%Z by lia. change (2 ^ 0)%Z with 1%Z. lia.
  - rewrite iter_xO. f_equal. f_equal. lia.
Qed.

(** Rounding a positive integer multiple of a power of two gives a number
    that is not negative. *)
Lemma binary_round_nonnegative m e : nonnegative (binary_round 53 1024 false m e).
Proof.
  unfold binary_round. rewrite fexp_64, digits2_pos_log2.
  set (E := fexp64 (digits (Z.pos m) + e)).
  unfold shl_align. destruct (E - e)%Z as [| d | d] eqn:Hd.
  - rewrite binary_round_aux_exact; [| lia | fold E; lia].
    apply rounded_nonnegative; [lia | fold E; lia].
  - rewrite binary_round_aux_exact; [| lia | fold E; lia].
    apply rounded_nonnegative; [lia | fold E; lia].
  - assert (Hdig : digits (Z.pos (Pos.iter xO m d)) = (digits (Z.pos m) + Z.pos d)%Z).
    { rewrite iter_xO. unfold digits. rewrite Z.log2_mul_pow2 by lia. lia. }
    assert (Hpre : (E <= fexp64 (digits (Z.pos (Pos.iter xO m d)) + E))%Z).
    { rewrite Hdig. replace (digits (Z.pos m) + Z.pos d + E)%Z
        with (digits (Z.pos m) + e)%Z by lia. fold E. lia. }
    rewrite binary_round_aux_exact; [| lia | exact Hpre].
    apply rounded_nonnegative; [lia | exact Hpre].
Qed.

Lemma nonnegative_not_below_zero f :
  nonnegative f -> SFltb f (S754_zero false) = false.
Proof. intros H. destruct H; reflexivity. Qed.

Lemma SFsub_finite_not_negative sa ma ea sb mb eb :
  valid_binary (S754_finite sa ma ea) = true ->
  valid_binary (S754_finite sb mb eb) = true ->
  (forall p q, place (S754_finite sb mb eb) = Some p ->
               place (S754_finite sa ma ea) = Some q -> ~ Rounding.before q p) ->
  SFltb (SFsub 53 1024 (S754_finite sa ma ea) (S754_finite sb mb eb)) (S754_zero false)
  = false.
Proof.
  intros Hva Hvb Hord. specialize (Hord _ _ eq_refl eq_refl).
  destruct (valid_canonical_signed sa ma ea Hva) as [Hca _].
  destruct (valid_canonical_signed sb mb eb Hvb) as [Hcb _].
  cbn [SFsub]. set (ez := Z.min ea eb).
  rewrite !shl_align_fst by (unfold ez; lia).
  assert (Hpa : (0 < Z.pos ma * 2 ^ (ea - ez))%Z)
    by (apply Z.mul_pos_pos; [lia | apply pow2_pos; unfold ez; lia]).
  assert (Hpb : (0 < Z.pos mb * 2 ^ (eb - ez))%Z)
    by (apply Z.mul_pos_pos; [lia | apply pow2_pos; unfold ez; lia]).
  assert (Hdiff : (0 <= cond_Zopp sa (Z.pos ma * 2 ^ (ea - ez))
                       - cond_Zopp sb (Z.pos mb * 2 ^ (eb - ez)))%Z).
  { destruct sa, sb; cbn [cond_Zopp]; unfold Rounding.before in Hord; try lia.
    - assert (Hle : ~ Rounding.before (1, eb, Z.pos mb)%Z (1, ea, Z.pos ma)%Z)
        by (unfold Rounding.before; lia).
      pose proof (canonical_value_le Hca Hcb Hle) as Hv. unfold value_le in Hv.
      fold ez in Hv. lia.
    - assert (Hle : ~ Rounding.before (1, ea, Z.pos ma)%Z (1, eb, Z.pos mb)%Z)
        by (unfold Rounding.before; lia).
      pose proof (canonical_value_le Hcb Hca Hle) as Hv. unfold value_le in Hv.
      rewrite Z.min_comm in Hv. fold ez in Hv. lia. }
  destruct (cond_Zopp sa (Z.pos ma * 2 ^ (ea - ez))
            - cond_Zopp sb (Z.pos mb * 2 ^ (eb - ez)))%Z as [| d | d];
    [reflexivity | | lia].
  cbn [binary_normalize]. apply nonnegative_not_below_zero, binary_round_nonnegative.
Qed.

(** The difference of two numbers in their order is not negative. *)
Lemma sub_not_negative a b : (b <=? a) = true -> (a - b <? 0) = false.
Proof.
  intros Hle. rewrite ltb_spec, sub_spec.
  change (Prim2SF 0) with (S754_zero false). change SF64sub with (SFsub 53 1024).
  pose proof (Prim2SF_valid a) as Hva. pose proof (Prim2SF_valid b) as Hvb.
  apply leb_place in Hle. destruct Hle as (p & q & Hp & Hq & Hpq).
  set (fa := Prim2SF a) in *. set (fb := Prim2SF b) in *. clearbody fa fb.
  destruct fa as [sa | sa | | sa ma ea], fb as [sb | sb | | sb mb eb];
    try discriminate;
    try (apply SFsub_finite_not_negative; try assumption;
         intros p' q' Hp' Hq'; rewrite Hp in Hp'; rewrite Hq in Hq';
         injection Hp' as <-; injection Hq' as <-; exact Hpq);
    cbn [place] in Hp, Hq; injection Hp as <-; injection Hq as <-;
    unfold Rounding.before in Hpq;
    repeat match goal with s : bool |- _ => destruct s end;
    try reflexivity; exfalso; lia.
Qed.

End ProductsAndHalves.

(** ** The mean font size of a page is not negative *)

Section MeanFontSize.

Import PrimFloat SpecFloat FloatOps FloatAxioms Rounding Binary64.
#[local] Open Scope float_scope.

Lemma positive_nonnegative f : positive_number f -> nonnegative f.
Proof. intros H. destruct H; constructor. Qed.

Lemma SFeqb_refl_truthy f : truthy_number f = true -> SFeqb f f = true.
Proof.
  destruct f as [s | s | | s m e]; try discriminate; intros _; unfold SFeqb; cbn [SFcompare].
  - destruct s; reflexivity.
  - rewrite Z.compare_refl, Pos.compare_cont_refl. destruct s; reflexivity.
Qed.

(** [a || b] is [a] when [a] is neither zero nor [NaN], and [b] otherwise. *)
Lemma or_else_spec a b :
  Prim2SF (or_else a b)
  = if truthy_number (Prim2SF a) then Prim2SF a else Prim2SF b.
Proof.
  unfold or_else, is_zero, is_nan. rewrite !eqb_spec.
  change (Prim2SF zero) with (S754_zero false).
  destruct (Prim2SF a) as [s | s | | s m e] eqn:Ha; cbn [truthy_number].
  - reflexivity.
  - rewrite (SFeqb_refl_truthy (S754_infinity s) eq_refl).
    destruct s; cbn [SFeqb SFcompare orb negb]; exact Ha.
  - reflexivity.
  - rewrite (SFeqb_refl_truthy (S754_finite s m e) eq_refl).
    destruct s; cbn [SFeqb SFcompare orb negb]; exact Ha.
Qed.

Lemma fontSizeOf_positive item : positive_number (Prim2SF (fontSizeOf item)).
Proof.
  unfold fontSizeOf. rewrite abs_spec, !or_else_spec.
  change (Prim2SF 10) with (S754_finite false 5629499534213120 (-49)).
  destruct (truthy_number (Prim2SF (td (item_transform item)))) eqn:Hd.
  - rewrite Hd. destruct (Prim2SF (td (item_transform item))); try discriminate; constructor.
  - destruct (truthy_number (Prim2SF (item_height item))) eqn:Hh.
    + destruct (Prim2SF (item_height item)); try discriminate; constructor.
    + constructor.
Qed.

(** The rounding of a positive integer at an exponent of the format is
    positive. *)
Lemma rounded_positive m e :
  (0 < m)%Z -> (e <= fexp64 (digits m + e))%Z ->
  (fexp64 (digits m + e) = e \/ -1074 < fexp64 (digits m + e))%Z ->
  positive_number (rounded m e).
Proof.
  intros Hm He Hcase.
  destruct (rne_bounds Hm He) as [[Hq0 Hq1] [Hr0 Hr1]].
  assert (Hq : (1 <= m / 2 ^ (fexp64 (digits m + e) - e))%Z).
  { destruct Hcase as [Heq | Hnormal].
    - rewrite Heq, Z.sub_diag. change (2 ^ 0)%Z with 1%Z. rewrite Z.div_1_r. lia.
    - pose proof (digits_bounds Hm) as [Hlo _].
      assert (Hn : (fexp64 (digits m + e) - e = digits m - 53)%Z) by (unfold fexp64 in *; lia).
      rewrite Hn. assert (H53 : (0 <= digits m - 53)%Z) by lia.
      assert (H52 : (2 ^ 52 <= m / 2 ^ (digits m - 53))%Z).
      { apply Z.div_le_lower_bound; [apply pow2_pos; lia |].
        rewrite <- Z.pow_add_r by lia.
        replace (digits m - 53 + 52)%Z with (digits m - 1)%Z by lia. exact Hlo. }
      change (2 ^ 52)%Z with 4503599627370496%Z in H52. lia. }
  unfold rounded. destruct (Z.eqb_spec (rne m (fexp64 (digits m + e) - e)) 0); [lia |].
  destruct (_ =? 2 ^ 53)%Z.
  - destruct (_ <=? 971)%Z; constructor.
  - destruct (_ <=? 971)%Z; constructor.
Qed.

Lemma binary_round_positive m e :
  (-1074 <= e)%Z -> positive_number (binary_round 53 1024 false m e).
Proof.
  intros Hmin. unfold binary_round. rewrite fexp_64, digits2_pos_log2.
  set (E := fexp64 (digits (Z.pos m) + e)).
  unfold shl_align. destruct (E - e)%Z as [| d | d] eqn:Hd.
  - rewrite binary_round_aux_exact; [| lia | fold E; lia].
    apply rounded_positive; [lia | fold E; lia | fold E; lia].
  - rewrite binary_round_aux_exact; [| lia | fold E; lia].
    apply rounded_positive; [lia | fold E; lia | fold E; lia].
  - assert (Hdig : digits (Z.pos (Pos.iter xO m d)) = (digits (Z.pos m) + Z.pos d)%Z).
    { rewrite iter_xO. unfold digits. rewrite Z.log2_mul_pow2 by lia. lia. }
    assert (HE : fexp64 (digits (Z.pos (Pos.iter xO m d)) + E) = E).
    { rewrite Hdig. replace (digits (Z.pos m) + Z.pos d + E)%Z
        with (digits (Z.pos m) + e)%Z by lia. reflexivity. }
    rewrite binary_round_aux_exact; [| lia | rewrite HE; lia].
    apply rounded_positive; [lia | rewrite HE; lia | left; exact HE].
Qed.

(** A positive number added to a number that is not negative gives a
    positive number. *)
Lemma SFadd_positive f g :
  valid_binary f = true -> valid_binary g = true ->
  nonnegative f -> positive_number g -> positive_number (SFadd 53 1024 f g).
Proof.
  intros Hvf Hvg Hf Hg.
  destruct Hf as [s | mf ef |], Hg as [mg eg |]; cbn [SFadd]; try constructor.
  destruct (valid_canonical mf ef Hvf) as [Hcf _].
  destruct (valid_canonical mg eg Hvg) as [Hcg _].
  cbn [cond_Zopp Z.add binary_normalize]. apply binary_round_positive.
  unfold fexp64 in Hcf, Hcg. lia.
Qed.

Lemma sum_positive xs :
  forall acc,
    nonnegative (Prim2SF acc) ->
    Forall (fun v => positive_number (Prim2SF v)) xs ->
    xs <> [] ->
    positive_number (Prim2SF (fold_left add xs acc)).
Proof.
  induction xs as [| v xs IH]; intros acc Hacc Hxs Hne; [congruence |].
  inversion Hxs as [| v' xs' Hv Hrest]; subst. cbn [fold_left].
  assert (Hstep : positive_number (Prim2SF (acc + v))).
  { rewrite add_spec. apply SFadd_positive; try apply Prim2SF_valid; assumption. }
  destruct xs as [| w xs]; [exact Hstep |].
  apply IH; [now apply positive_nonnegative | exact Hrest | discriminate].
Qed.

(** The halvings and the rounding of a mantissa that is not negative
    leave it so, whatever the bits already shifted out. *)
Lemma shr_nonneg mrs e n :
  (0 <= shr_m mrs)%Z -> (0 <= shr_m (fst (shr mrs e n)))%Z.
Proof.
  intros Hm. destruct n as [| k | k]; cbn [shr fst]; try exact Hm.
  rewrite iter_pos_nat. induction (Pos.to_nat k) as [| j IH]; [exact Hm |].
  cbn [Nat.iter nat_rect]. destruct (Nat.iter j shr_1 mrs) as [q r s] eqn:Hq.
  unfold Nat.iter in Hq. rewrite Hq in *. cbn [shr_m] in IH.
  rewrite (shr_1_spec r s IH). cbn [shr_m]. apply Z.div_pos; lia.
Qed.

Lemma round_nearest_even_nonneg q l :
  (0 <= q)%Z -> (0 <= round_nearest_even q l)%Z.
Proof.
  intros Hq. destruct l as [| c]; [exact Hq |].
  destruct c; cbn [round_nearest_even]; try destruct (Z.even q); lia.
Qed.

Lemma binary_round_aux_nonnegative q e l :
  (0 <= q)%Z -> nonnegative (binary_round_aux 53 1024 false q e l).
Proof.
  intros Hq. unfold binary_round_aux, shr_fexp.
  pose proof (@shr_nonneg (shr_record_of_loc q l) e
                (fexp 53 1024 (Zdigits2 q + e) - e)) as H1.
  destruct (shr (shr_record_of_loc q l) e (fexp 53 1024 (Zdigits2 q + e) - e))
    as [mrs' e'].
  cbn [fst] in H1.
  assert (Hq' : (0 <= shr_m mrs')%Z).
  { apply H1. destruct l as [| c]; [| destruct c]; exact Hq. }
  pose proof (round_nearest_even_nonneg (loc_of_shr_record mrs') Hq') as Hr.
  set (q' := round_nearest_even (shr_m mrs') (loc_of_shr_record mrs')) in *.
  pose proof (@shr_nonneg (shr_record_of_loc q' loc_Exact) e'
                (fexp 53 1024 (Zdigits2 q' + e') - e') Hr) as H2.
  destruct (shr (shr_record_of_loc q' loc_Exact) e' (fexp 53 1024 (Zdigits2 q' + e') - e'))
    as [mrs'' e''].
  cbn [fst] in H2.
  destruct (shr_m mrs'') as [| k | k]; [constructor | | lia].
  destruct (e'' <=? 1024 - 53)%Z; constructor.
Qed.

(** The length of an array is zero or a positive finite number. *)
Lemma of_nat_finite n :
  Prim2SF (of_nat n) = S754_zero false
  \/ exists m e, Prim2SF (of_nat n) = S754_finite false m e.
Proof.
  unfold of_nat. rewrite of_uint63_spec.
  pose proof (Uint63.to_Z_bounded (Uint63.of_Z (Z.of_nat n))) as Hb.
  set (k := Uint63Axioms.to_Z (Uint63.of_Z (Z.of_nat n))) in *.
  change Uint63Axioms.wB with (2 ^ 63)%Z in Hb.
  destruct k as [| k | k]; [left; reflexivity | right | lia].
  change prec with 53%Z. change emax with 1024%Z. cbn [binary_normalize].
  pose proof (binary_round_positive k (e := 0) ltac:(lia)) as Hpos.
  unfold binary_round in Hpos |- *. rewrite fexp_64, digits2_pos_log2 in Hpos |- *.
  assert (Hd : (digits (Z.pos k) <= 63)%Z).
  { unfold digits. assert (Z.log2 (Z.pos k) < 63)%Z by (apply Z.log2_lt_pow2; lia). lia. }
  pose proof (@digits_pos (Z.pos k) ltac:(lia)) as Hdp.
  set (E := fexp64 (digits (Z.pos k) + 0)) in *.
  assert (HE : (E <= 10)%Z) by (unfold E, fexp64; lia).
  unfold shl_align in Hpos |- *. destruct (E - 0)%Z as [| d | d] eqn:Hd0.
  - rewrite binary_round_aux_exact in Hpos |- * by (fold E; lia).
    revert Hpos. unfold rounded. fold E.
    destruct (_ =? 0)%Z; [intros H; inversion H |]. intros _.
    destruct (_ =? 2 ^ 53)%Z.
    + destruct (Z.leb_spec (E + 1) 971); [eauto | lia].
    + destruct (Z.leb_spec E 971); [eauto | lia].
  - rewrite binary_round_aux_exact in Hpos |- * by (fold E; lia).
    revert Hpos. unfold rounded. fold E.
    destruct (_ =? 0)%Z; [intros H; inversion H |]. intros _.
    destruct (_ =? 2 ^ 53)%Z.
    + destruct (Z.leb_spec (E + 1) 971); [eauto | lia].
    + destruct (Z.leb_spec E 971); [eauto | lia].
  - assert (Hdig : digits (Z.pos (Pos.iter xO k d)) = (digits (Z.pos k) + Z.pos d)%Z).
    { rewrite iter_xO. unfold digits. rewrite Z.log2_mul_pow2 by lia. lia. }
    assert (HfE : fexp64 (digits (Z.pos (Pos.iter xO k d)) + E) = E).
    { rewrite Hdig. replace (digits (Z.pos k) + Z.pos d + E)%Z
        with (digits (Z.pos k) + 0)%Z by lia. reflexivity. }
    rewrite binary_round_aux_exact in Hpos |- * by (rewrite ?HfE; lia).
    revert Hpos. unfold rounded. rewrite HfE.
    destruct (_ =? 0)%Z; [intros H; inversion H |]. intros _.
    destruct (_ =? 2 ^ 53)%Z.
    + destruct (Z.leb_spec (E + 1) 971); [eauto | lia].
    + destruct (Z.leb_spec E 971); [eauto | lia].
Qed.

(** A positive number divided by a length is not negative. *)
Lemma SFdiv_length f g :
  positive_number f ->
  g = S754_zero false \/ (exists m e, g = S754_finite false m e) ->
  nonnegative (SFdiv 53 1024 f g).
Proof.
  intros Hf [-> | (m & e & ->)]; destruct Hf as [mf ef |]; cbn [SFdiv xorb];
    try constructor.
  unfold SFdiv_core_binary. rewrite div_eucl_div_mod.
  apply binary_round_aux_nonnegative. apply Z.div_pos; [| lia].
  destruct (ef - e - _)%Z as [| s | s]; try lia.
  rewrite Z.shiftl_mul_pow2 by lia.
  apply Z.mul_nonneg_nonneg; [lia | apply Z.pow_nonneg; lia].
Qed.

(** The font size that the page loop passes to [buildLineText], the mean
    of absolute values, is not negative. *)
Lemma avgFontSizeOf_not_negative its :
  its <> [] -> (0 <=? avgFontSizeOf its) = true.
Proof.
  intros Hne. apply nonnegative_iff. unfold avgFontSizeOf. rewrite div_spec.
  change SF64div with (SFdiv 53 1024). apply SFdiv_length; [| apply of_nat_finite].
  apply sum_positive.
  - change (Prim2SF 0) with (S754_zero false). constructor.
  - apply Forall_forall. intros v Hv. apply in_map_iff in Hv as [item [<- _]].
    apply fontSizeOf_positive.
  - destruct its; [congruence | discriminate].
Qed.

End MeanFontSize.

(** ** Spacing inside a line *)

Lemma last_nonempty_default {A} (a : A) l d d' : last (a :: l) d = last (a :: l) d'.
Proof.
  revert a. induction l as [| b l IH]; intros a; [reflexivity |].
  change (last (b :: l) d = last (b :: l) d'). apply IH.
Qed.

Section Spacing.

Import PrimFloat Binary64.
#[local] Open Scope float_scope.
#[local] Set Warnings "-inexact-float".

Lemma buildLineText_loop_acc avg p its acc :
  buildLineText_loop avg p its acc = acc ++ buildLineText_loop avg p its [].
Proof.
  revert p acc. induction its as [| it tl IH]; intros p acc; cbn [buildLineText_loop].
  - now rewrite app_nil_r.
  - rewrite IH. rewrite (IH _ (_ ++ text it)).
    destruct p as [q |]; cbn [app]; now rewrite <- ?app_assoc.
Qed.

Lemma buildLineText_loop_app avg p its1 its2 acc :
  buildLineText_loop avg p (its1 ++ its2) acc
  = buildLineText_loop avg (last (map Some its1) p) its2
      (buildLineText_loop avg p its1 acc).
Proof.
  revert p acc. induction its1 as [| it tl IH]; intros p acc; [reflexivity |].
  cbn [app buildLineText_loop map]. rewrite IH.
  destruct tl as [| r tl]; [reflexivity |].
  cbn [map]. rewrite (last_nonempty_default (Some r) (map Some tl) (Some it) p).
  reflexivity.
Qed.

(** The text of a line splits at every pair of adjacent runs, around the
    separator computed for that pair. *)
Lemma buildLineText_split avg its1 prevItem item its2 :
  buildLineText (its1 ++ prevItem :: item :: its2) avg
  = buildLineText (its1 ++ [prevItem]) avg
      ++ separator avg prevItem item
      ++ buildLineText (item :: its2) avg.
Proof.
  unfold buildLineText.
  replace (its1 ++ prevItem :: item :: its2)
    with ((its1 ++ [prevItem]) ++ item :: its2) by now rewrite <- app_assoc.
  rewrite buildLineText_loop_app.
  rewrite map_app. cbn [map]. rewrite last_last. cbn [buildLineText_loop].
  rewrite buildLineText_loop_acc.
  rewrite (buildLineText_loop_acc avg (Some item) its2 ([] ++ text item)).
  now rewrite <- !app_assoc.
Qed.

(** The three cases of the separator. The first needs the two thresholds
    in their order, as they are when the font size is not negative. *)
Lemma separator_cases avg prevItem item :
  let gap := x item - (x prevItem + width prevItem) in
  let spaceWidth := avg * 0.3 in
  ((0 <=? avg) = true ->
   (gap <=? spaceWidth * 0.5) = true -> separator avg prevItem item = [])
  /\ ((spaceWidth * 0.5 <? gap) = true /\ (gap <=? spaceWidth * 6) = true ->
      separator avg prevItem item = [SP])
  /\ ((spaceWidth * 6 <? gap) = true -> separator avg prevItem item = [SP; SP; SP; SP]).
Proof.
  intros gap spaceWidth. unfold separator, gt. fold gap spaceWidth.
  repeat split.
  - intros Havg Hgap.
    pose proof (spacing_thresholds Havg
                : (spaceWidth * 0.5 <=? spaceWidth * 6) = true) as Hord.
    rewrite (leb_not_gtb (leb_trans Hgap Hord)).
    now rewrite (leb_not_gtb Hgap).
  - intros [Hlo Hhi]. now rewrite (leb_not_gtb Hhi), Hlo.
  - intros Hgap. now rewrite Hgap.
Qed.

(** C5. With [gap = item.x - (prevItem.x + prevItem.width)] and
    [spaceWidth = avgFontSize * 0.3], all in binary64 as the code computes
    them, the text of a line reads, at every pair of adjacent runs: nothing
    between them when [gap <= spaceWidth * 0.5], one space when
    [spaceWidth * 0.5 < gap <= spaceWidth * 6], four spaces when
    [gap > spaceWidth * 6]; the first case for a font size that is not
    negative, as is the mean that the page loop passes. Runs at x=10
    (width 20) and x=34 with font size 10 are joined by one space, and by
    four spaces when the second run is at x=200. *)
Theorem buildLineText_spacing :
  (forall pageItems, pageItems <> [] -> (0 <=? avgFontSizeOf pageItems) = true)
  /\ (forall avgFontSize its1 prevItem item its2,
      let gap := x item - (x prevItem + width prevItem) in
      let spaceWidth := avgFontSize * 0.3 in
      let front := buildLineText (its1 ++ [prevItem]) avgFontSize in
      let rest := buildLineText (item :: its2) avgFontSize in
      let lineText := buildLineText (its1 ++ prevItem :: item :: its2) avgFontSize in
      ((0 <=? avgFontSize) = true ->
       (gap <=? spaceWidth * 0.5) = true -> lineText = front ++ rest)
      /\ ((spaceWidth * 0.5 <? gap) = true /\ (gap <=? spaceWidth * 6) = true ->
          lineText = front ++ [SP] ++ rest)
      /\ ((spaceWidth * 6 <? gap) = true ->
          lineText = front ++ [SP; SP; SP; SP] ++ rest))
  /\ (forall t1 t2 w2 f1 f2,
         buildLineText [ {| x := 10; text := t1; width := 20; run_fontSize := f1 |};
                         {| x := 34; text := t2; width := w2; run_fontSize := f2 |} ] 10
         = t1 ++ [SP] ++ t2)
  /\ (forall t1 t2 w2 f1 f2,
         buildLineText [ {| x := 10; text := t1; width := 20; run_fontSize := f1 |};
                         {| x := 200; text := t2; width := w2; run_fontSize := f2 |} ] 10
         = t1 ++ [SP; SP; SP; SP] ++ t2).
Proof.
  split; [exact avgFontSizeOf_not_negative | split; [| split]].
  - intros avgFontSize its1 prevItem item its2 gap spaceWidth front rest lineText.
    unfold lineText, front, rest. rewrite buildLineText_split.
    destruct (separator_cases avgFontSize prevItem item) as [Hnone [Hone Hfour]].
    repeat split.
    + intros Havg H. now rewrite (Hnone Havg H).
    + intros H. now rewrite (Hone H).
    + intros H. now rewrite (Hfour H).
  - intros t1 t2 w2 f1 f2. unfold buildLineText. cbn [buildLineText_loop app].
    now rewrite <- app_assoc.
  - intros t1 t2 w2 f1 f2. unfold buildLineText. cbn [buildLineText_loop app].
    now rewrite <- app_assoc.
Qed.

Lemma buildLineText_spacing_witness :
  (0 <=? avgFontSizeOf [item "Jane" 10 700 20; item "Doe" 34 700 15]) = true
  /\ buildLineText [run "Jane" 10 20; run "Doe" 34 15] 10 = str "Jane Doe"
  /\ buildLineText [run "Jane" 10 20; run "Doe" 200 15] 10 = str "Jane    Doe"
  /\ buildLineText [run "Ja" 10 20; run "ne" 31 15] 10 = str "Jane"
  /\ buildLineText [run "Jane" 10 20; run "Doe" 42.600000000000001 15] 7 = str "Jane Doe".
Proof.
  destruct buildLineText_spacing as [Hmean [H _]].
  split; [| split; [| split; [| split]]].
  - apply Hmean. discriminate.
  - destruct (H 10 [] (run "Jane" 10 20) (run "Doe" 34 15) []) as [_ [Hone _]].
    cbv zeta in Hone. apply Hone. split; vm_compute; reflexivity.
  - destruct (H 10 [] (run "Jane" 10 20) (run "Doe" 200 15) []) as [_ [_ Hfour]].
    cbv zeta in Hfour. apply Hfour. vm_compute. reflexivity.
  - destruct (H 10 [] (run "Ja" 10 20) (run "ne" 31 15) []) as [Hnone _].
    cbv zeta in Hnone. apply Hnone; vm_compute; reflexivity.
  - destruct (H 7 [] (run "Jane" 10 20) (run "Doe" 42.600000000000001 15) [])
      as [_ [Hone _]].
    cbv zeta in Hone. apply Hone. split; vm_compute; reflexivity.
Defined.

End Spacing.

(** ** The normalizer on runs of spaces *)

(** C7. A run of five spaces inside a line leaves the normalizer as three
    spaces, not four: the replacement of double spaces also applies to the
    end of the four spaces that the previous replacement has just written.
    A run of exactly two spaces becomes one. *)
Theorem wide_gap_normalizes_to_three_spaces :
  postProcessText (str "ab     cd") = str "ab   cd"
  /\ postProcessText (str "ab     cd") <> str "ab    cd"
  /\ collapseSpaces (str "ab     cd") = str "ab   cd"
  /\ postProcessText (str "ab  cd") = str "ab cd".
Proof.
  repeat split; try (vm_compute; reflexivity).
  intros H. vm_compute in H. discriminate H.
Qed.

(** ** The image preprocessor *)

Lemma setByte_length i v data : length (setByte i v data) = length data.
Proof.
  revert i. induction data as [| b tl IH]; intros [| i]; simpl; auto.
Qed.

Lemma nth_setByte_same i v data :
  i < length data -> nth i (setByte i v data) 0%Z = clampByte v.
Proof.
  revert i. induction data as [| b tl IH]; intros [| i] Hi; simpl in *;
    try lia; [reflexivity | apply IH; lia].
Qed.

Lemma nth_setByte_other i j v data :
  i <> j -> nth j (setByte i v data) 0%Z = nth j data 0%Z.
Proof.
  revert i j. induction data as [| b tl IH]; intros [| i] [| j] Hij; simpl;
    try reflexivity; try lia.
  apply IH. lia.
Qed.

(** The value computed for a pixel depends on its three colour bytes only. *)
Lemma stretched_ext pow lowVal range data data' i :
  nth i data 0%Z = nth i data' 0%Z ->
  nth (i + 1) data 0%Z = nth (i + 1) data' 0%Z ->
  nth (i + 2) data 0%Z = nth (i + 2) data' 0%Z ->
  stretched pow lowVal range data i = stretched pow lowVal range data' i.
Proof.
  intros H0 H1 H2. unfold stretched, luminance, byteAt. now rewrite H0, H1, H2.
Qed.

(** The stretching loop, started at byte [i] with enough fuel to reach the
    end: bytes before [i] stay, every complete pixel from [i] on gets one
    value in its three colour bytes, and its alpha byte stays. *)
Lemma stretchLoop_spec pow lowVal range fuel :
  forall i data,
    length data <= i + 4 * fuel ->
    let out := stretchLoop pow lowVal range fuel i data in
    length out = length data
    /\ (forall j, j < i -> nth j out 0%Z = nth j data 0%Z)
    /\ (forall q, i + 4 * q + 3 < length data ->
          let gray := clampByte (stretched pow lowVal range data (i + 4 * q)) in
          nth (i + 4 * q) out 0%Z = gray
          /\ nth (i + 4 * q + 1) out 0%Z = gray
          /\ nth (i + 4 * q + 2) out 0%Z = gray
          /\ nth (i + 4 * q + 3) out 0%Z = nth (i + 4 * q + 3) data 0%Z).
Proof.
  induction fuel as [| fuel IH]; intros i data Hfuel; cbv zeta; cbn [stretchLoop].
  - repeat split; intros; lia.
  - destruct (Nat.ltb_spec i (length data)) as [Hi | Hi].
    2:{ repeat split; intros; lia. }
    set (gray := stretched pow lowVal range data i).
    set (data' := setByte (i + 2) gray (setByte (i + 1) gray (setByte i gray data))).
    assert (Hlen : length data' = length data)
      by (unfold data'; now rewrite !setByte_length).
    assert (Hother : forall j, j <> i -> j <> i + 1 -> j <> i + 2 ->
                               nth j data' 0%Z = nth j data 0%Z).
    { intros j H0 H1 H2. unfold data'.
      rewrite !nth_setByte_other by lia. reflexivity. }
    destruct (IH (i + 4) data') as [IHlen [IHbefore IHpixels]]; [lia |].
    cbv zeta in IHpixels.
    split; [congruence | split].
    + intros j Hj. rewrite IHbefore by lia. apply Hother; lia.
    + intros [| q] Hq.
      * replace (i + 4 * 0) with i in * by lia. fold gray.
        rewrite !IHbefore by lia. unfold data'. repeat split.
        -- rewrite !nth_setByte_other by lia. apply nth_setByte_same. lia.
        -- rewrite nth_setByte_other by lia. apply nth_setByte_same.
           rewrite setByte_length. lia.
        -- apply nth_setByte_same. rewrite !setByte_length. lia.
        -- rewrite !nth_setByte_other by lia. reflexivity.
      * replace (i + 4 * S q) with (i + 4 + 4 * q) in * by lia.
        destruct (IHpixels q) as [H0 [H1 [H2 H3]]]; [lia |].
        assert (Hsame : stretched pow lowVal range data' (i + 4 + 4 * q)
                        = stretched pow lowVal range data (i + 4 + 4 * q))
          by (apply stretched_ext; apply Hother; lia).
        rewrite <- Hsame.
        repeat split; [exact H0 | exact H1 | exact H2 |].
        rewrite H3. apply Hother; lia.
Qed.

(** C9. In the image that [preprocessCanvasForOCR] leaves on the canvas,
    every pixel has one gray value, a byte, in its R, G and B channels, and
    the alpha byte it had before. *)
Theorem preprocess_gray_channels_alpha_kept pow canvas p :
  length (pixels canvas) = 4 * (canvas_width canvas * canvas_height canvas) ->
  p < canvas_width canvas * canvas_height canvas ->
  let out := pixels (preprocessCanvasForOCR pow canvas) in
  exists gray,
    (0 <= gray <= 255)%Z
    /\ nth (4 * p) out 0%Z = gray
    /\ nth (4 * p + 1) out 0%Z = gray
    /\ nth (4 * p + 2) out 0%Z = gray
    /\ nth (4 * p + 3) out 0%Z = nth (4 * p + 3) (pixels canvas) 0%Z.
Proof.
  intros Hlen Hp out. unfold out, preprocessCanvasForOCR.
  destruct (percentileLoop 256 0 _ _ 0 0) as [lowVal highVal].
  cbn [pixels].
  set (range := if (highVal - lowVal =? 0)%Z then 1%Z else (highVal - lowVal)%Z).
  destruct (@stretchLoop_spec pow lowVal range (length (pixels canvas))
              0 (pixels canvas)) as [_ [_ Hpixels]]; [lia |].
  cbv zeta in Hpixels.
  destruct (Hpixels p) as [H0 [H1 [H2 H3]]]; [lia |].
  cbn [Nat.add] in *.
  exists (clampByte (stretched pow lowVal range (pixels canvas) (4 * p))).
  repeat split; try assumption; unfold clampByte; lia.
Qed.

Lemma preprocess_gray_channels_alpha_kept_witness :
  pixels (preprocessCanvasForOCR (fun b _ => b) Samples.canvas_two_tone)
  = [0; 0; 0; 200; 255; 255; 255; 128]%Z
  /\ exists gray,
       (0 <= gray <= 255)%Z
       /\ nth 4 (pixels (preprocessCanvasForOCR (fun b _ => b) Samples.canvas_two_tone)) 0%Z = gray
       /\ nth 5 (pixels (preprocessCanvasForOCR (fun b _ => b) Samples.canvas_two_tone)) 0%Z = gray
       /\ nth 6 (pixels (preprocessCanvasForOCR (fun b _ => b) Samples.canvas_two_tone)) 0%Z = gray
       /\ nth 7 (pixels (preprocessCanvasForOCR (fun b _ => b) Samples.canvas_two_tone)) 0%Z = 128%Z.
Proof.
  split; [reflexivity |].
  exact (@preprocess_gray_channels_alpha_kept (fun b _ => b) Samples.canvas_two_tone 1
           eq_refl (le_n 2)).
Defined.

(** ** Sorting, sums and extrema *)

Lemma insert_sorted_perm {A} (cmp : A -> A -> Q) a l :
  Permutation (insert_sorted cmp a l) (a :: l).
Proof.
  induction l as [| e tl IH]; cbn [insert_sorted]; [reflexivity |].
  destruct (lt (cmp a e) 0); [reflexivity |].
  etransitivity; [apply perm_skip, IH | apply perm_swap].
Qed.

Lemma Array_sort_perm {A} (cmp : A -> A -> Q) l : Permutation (Array_sort cmp l) l.
Proof.
  unfold Array_sort.
  assert (H : forall acc,
             Permutation (fold_left (fun acc a => insert_sorted cmp a acc) l acc)
                         (l ++ acc)).
  { induction l as [| a tl IH]; intros acc; cbn [fold_left app]; [reflexivity |].
    rewrite IH. rewrite insert_sorted_perm. symmetry. apply Permutation_middle. }
  rewrite H. now rewrite app_nil_r.
Qed.

(** ** Column detection and the two-column order *)

Lemma emitLine_acc acc t s : emitLine (acc ++ t) s = acc ++ emitLine t s.
Proof.
  unfold emitLine. destruct (truthy (trim s)); [now rewrite <- app_assoc | reflexivity].
Qed.

Section RunsInOrder.

Import PrimFloat Binary64.
#[local] Open Scope float_scope.

(** A run that is not to the left of any filed run is filed last. *)
Lemma insert_sorted_last a acc :
  Forall (fun e => (x e <=? x a) = true) acc ->
  insert_sorted (fun a b => x a - x b) a acc = acc ++ [a].
Proof.
  induction 1 as [| e acc He _ IH]; cbn [insert_sorted app]; [reflexivity |].
  unfold lt. rewrite (sub_not_negative He). now rewrite IH.
Qed.

Lemma ascending_tail a its : ascending (a :: its) = true -> ascending its = true.
Proof.
  destruct its as [| b its]; [reflexivity |]. cbn [ascending].
  intros H. now apply andb_prop in H as [_ H].
Qed.

Lemma ascending_head a its :
  ascending (a :: its) = true -> Forall (fun b => (x a <=? x b) = true) its.
Proof.
  revert a. induction its as [| b its IH]; intros a H; [constructor |].
  cbn [ascending] in H. apply andb_prop in H as [Hab Hrest].
  constructor; [exact Hab |].
  apply Forall_impl with (P := fun c => (x b <=? x c) = true); [| now apply IH].
  intros c Hbc. exact (leb_trans Hab Hbc).
Qed.

Lemma sort_in_order its :
  forall acc,
    ascending its = true ->
    Forall (fun e => Forall (fun a => (x e <=? x a) = true) its) acc ->
    fold_left (fun acc a => insert_sorted (fun a b => x a - x b) a acc) its acc
    = acc ++ its.
Proof.
  induction its as [| a its IH]; intros acc Hasc Hacc; cbn [fold_left].
  - now rewrite app_nil_r.
  - rewrite insert_sorted_last.
    + rewrite IH; [now rewrite <- app_assoc | exact (ascending_tail _ _ Hasc) |].
      apply Forall_app. split.
      * apply Forall_impl with (2 := Hacc). intros e He. now inversion He.
      * constructor; [exact (ascending_head _ _ Hasc) | constructor].
    + apply Forall_impl with (2 := Hacc). intros e He. now inversion He.
Qed.

(** Sorting by x leaves runs that are in ascending x order as they are. *)
Lemma sortByX_ascending its : ascending its = true -> sortByX its = its.
Proof.
  intros Hasc. unfold sortByX, Array_sort. now rewrite sort_in_order.
Qed.

End RunsInOrder.

Section Columns.

Import PrimFloat Binary64.
#[local] Open Scope float_scope.
#[local] Set Warnings "-inexact-float".

Variables (pageWidth avgFontSize : float).
Hypothesis pageWidth_not_negative : (0 <=? pageWidth) = true.

#[local] Abbreviation leftLine := (leansLeft pageWidth).
#[local] Abbreviation rightLine := (onTheRight pageWidth).
#[local] Abbreviation columnar := (columnarLine pageWidth).

Lemma thresholds_60_70 : (pageWidth / 2 * 0.6 <=? pageWidth / 2 * 0.7) = true.
Proof.
  pose proof (thresholds_in_order pageWidth_not_negative) as H.
  unfold thresholdsInOrder in H.
  apply andb_prop in H as [H _]. now apply andb_prop in H as [H _].
Qed.

Lemma thresholds_70_80 : (pageWidth / 2 * 0.7 <=? pageWidth / 2 * 0.8) = true.
Proof.
  pose proof (thresholds_in_order pageWidth_not_negative) as H.
  unfold thresholdsInOrder in H.
  apply andb_prop in H as [H _]. now apply andb_prop in H as [_ H].
Qed.

Lemma thresholds_80_page : (pageWidth / 2 * 0.8 <=? pageWidth * 0.8) = true.
Proof.
  pose proof (thresholds_in_order pageWidth_not_negative) as H.
  unfold thresholdsInOrder in H.
  now apply andb_prop in H as [_ H].
Qed.

(** A line on the right of the page is above the three thresholds of the
    page loop. *)
Lemma right_above_80 line :
  rightLine line = true -> (pageWidth / 2 * 0.8 <? avgX (items line)) = true.
Proof.
  unfold onTheRight, above, gt. intros H. exact (leb_ltb_trans thresholds_80_page H).
Qed.

Lemma right_above_70 line :
  rightLine line = true -> (pageWidth / 2 * 0.7 <? avgX (items line)) = true.
Proof.
  intros H. exact (leb_ltb_trans thresholds_70_80 (right_above_80 H)).
Qed.

Lemma right_above_60 line :
  rightLine line = true -> (pageWidth / 2 * 0.6 <? avgX (items line)) = true.
Proof.
  intros H. exact (leb_ltb_trans thresholds_60_70 (right_above_70 H)).
Qed.

Lemma left_not_right line : leftLine line = true -> rightLine line = false.
Proof.
  intros Hl. destruct (rightLine line) eqn:Hr; [| reflexivity].
  unfold leansLeft, lt in Hl. rewrite (ltb_not_gtb (right_above_60 Hr)) in Hl.
  discriminate Hl.
Qed.

Lemma right_not_left line : rightLine line = true -> leftLine line = false.
Proof.
  intros Hr. unfold leansLeft, lt. exact (ltb_not_gtb (right_above_60 Hr)).
Qed.

Lemma countStep_left line a b :
  leftLine line = true -> countStep (pageWidth / 2) (a, b) line = (S a, b).
Proof.
  unfold leansLeft, countStep. intros H. now rewrite H.
Qed.

Lemma countStep_right line a b :
  rightLine line = true -> countStep (pageWidth / 2) (a, b) line = (a, S b).
Proof.
  intros Hr. unfold countStep.
  pose proof (right_not_left Hr) as Hl. unfold leansLeft in Hl. rewrite Hl.
  unfold gt. now rewrite (right_above_80 Hr).
Qed.

Lemma columnCounts_columnar lines :
  Forall columnar lines ->
  forall a b,
    fold_left (countStep (pageWidth / 2)) lines (a, b)
    = (a + length (filter leftLine lines), b + length (filter rightLine lines))%nat.
Proof.
  induction 1 as [| line lines [_ [_ Hside]] _ IH]; intros a b; cbn [fold_left filter].
  - cbn [length]. f_equal; lia.
  - destruct Hside as [Hl | Hr].
    + rewrite (countStep_left _ _ Hl), IH, Hl, (left_not_right Hl).
      cbn [length]. f_equal; lia.
    + rewrite (countStep_right _ _ Hr), IH, Hr, (right_not_left Hr).
      cbn [length]. f_equal; lia.
Qed.

Lemma bucketStep_left line ls rs :
  columnar line -> leftLine line = true ->
  bucketStep pageWidth avgFontSize (ls, rs) line
  = (ls ++ [columnLine avgFontSize line], rs).
Proof.
  intros [Hasc [Hspan _]] Hl. unfold bucketStep, columnLine.
  rewrite (sortByX_ascending _ Hasc).
  unfold lineSpan in Hspan. rewrite Hspan.
  unfold leansLeft, lt in Hl. unfold lt.
  now rewrite (ltb_leb_trans Hl thresholds_60_70).
Qed.

Lemma bucketStep_right line ls rs :
  columnar line -> rightLine line = true ->
  bucketStep pageWidth avgFontSize (ls, rs) line
  = (ls, rs ++ [columnLine avgFontSize line]).
Proof.
  intros [Hasc [Hspan _]] Hr. unfold bucketStep, columnLine.
  rewrite (sortByX_ascending _ Hasc).
  unfold lineSpan in Hspan. rewrite Hspan.
  unfold lt. now rewrite (ltb_not_gtb (right_above_70 Hr)).
Qed.

Lemma buckets_columnar lines :
  Forall columnar lines ->
  forall ls rs,
    fold_left (bucketStep pageWidth avgFontSize) lines (ls, rs)
    = (ls ++ map (columnLine avgFontSize) (filter leftLine lines),
       rs ++ map (columnLine avgFontSize) (filter rightLine lines)).
Proof.
  induction 1 as [| line lines Hline _ IH]; intros ls rs; cbn [fold_left filter].
  - now rewrite !app_nil_r.
  - destruct (proj2 (proj2 Hline)) as [Hl | Hr].
    + rewrite (bucketStep_left _ _ Hline Hl), IH, Hl, (left_not_right Hl).
      cbn [map]. now rewrite <- app_assoc.
    + rewrite (bucketStep_right _ _ Hline Hr), IH, Hr, (right_not_left Hr).
      cbn [map]. now rewrite <- app_assoc.
Qed.

Lemma singleColumn_acc lines :
  forall acc,
    fold_left (fun t line =>
                 emitLine t (buildLineText (sortByX (items line)) avgFontSize)) lines acc
    = acc ++ singleColumnText avgFontSize lines.
Proof.
  unfold singleColumnText.
  induction lines as [| line lines IH]; intros acc; cbn [fold_left].
  - now rewrite app_nil_r.
  - rewrite IH. rewrite (IH (emitLine [] _)).
    rewrite <- (app_nil_r acc) at 1. rewrite emitLine_acc. now rewrite <- app_assoc.
Qed.

Lemma emit_column_lines lines :
  forall acc,
    fold_left (fun t l => emitLine t (cl_text l)) (map (columnLine avgFontSize) lines) acc
    = acc ++ singleColumnText avgFontSize lines.
Proof.
  intros acc. rewrite <- singleColumn_acc. revert acc.
  induction lines as [| line lines IH]; intros acc; cbn [map fold_left]; [reflexivity |].
  apply IH.
Qed.

Lemma column_lines_not_full_width lines :
  filter fullWidth (map (columnLine avgFontSize) lines) = []
  /\ filter (fun l => negb (fullWidth l)) (map (columnLine avgFontSize) lines)
     = map (columnLine avgFontSize) lines.
Proof.
  induction lines as [| line lines [IH1 IH2]]; cbn [map filter columnLine fullWidth negb];
    [split; reflexivity |].
  split; [exact IH1 | now rewrite IH2].
Qed.

Lemma twoColumnText_columnar lines :
  Forall columnar lines ->
  filter leftLine lines <> [] ->
  filter rightLine lines <> [] ->
  twoColumnText pageWidth avgFontSize lines
  = singleColumnText avgFontSize (filter leftLine lines)
      ++ [LF] ++ singleColumnText avgFontSize (filter rightLine lines).
Proof.
  intros Hall Hleft Hright. unfold twoColumnText.
  rewrite (buckets_columnar Hall). cbn [app].
  destruct (column_lines_not_full_width (filter leftLine lines)) as [Hfw Hpure].
  rewrite Hfw, Hpure. cbn [fold_left nonEmpty andb].
  destruct (filter leftLine lines) as [| l1 ls] eqn:El; [congruence |].
  destruct (filter rightLine lines) as [| r1 rs] eqn:Er; [congruence |].
  cbn [map nonEmpty andb]. rewrite <- !(map_cons (columnLine avgFontSize)).
  rewrite !emit_column_lines. cbn [app]. now rewrite <- app_assoc.
Qed.

End Columns.

Section ColumnOrder.

Import PrimFloat Binary64.
#[local] Open Scope float_scope.
#[local] Set Warnings "-inexact-float".




(** The bound on the span is needed: a line on the right that spans more
    than 60% of the page is taken for a full-width line and comes out first,
    before the left column. *)
Lemma wide_right_line_comes_first :
  let lines := wide_right_line_page in
  length (filter (leansLeft 600) lines) = 5%nat
  /\ length (filter (onTheRight 600) lines) = 5%nat
  /\ length lines = 10%nat
  /\ isTwoColumn 600 lines = true
  /\ linesText 600 10 lines
     = join [LF] (map str ["a    R1bcd"; ""; "L1"; "L2"; "L3"; "L4"; "L5"; "";
                           "R2"; "R3"; "R4"; "R5"; ""]%string).
Proof.
  repeat split; vm_compute; reflexivity.
Qed.

(** The left threshold is the binary64 product: on a page of width 612 it
    is the double nearest to 183.6, and a line at that x is not below it. *)
Lemma letter_page_left_threshold :
  612 / 2 * 0.6 = 183.6
  /\ leansLeft 612 (line 700 [run "L" 183.6 40]) = false
  /\ isTwoColumn 612 (two_column_lines 183.6 500) = false.
Proof.
  repeat split; vm_compute; reflexivity.
Qed.

End ColumnOrder.

(** * Further properties *)

(** ** Replacement never invents characters *)

Lemma Forall_prefix {A} (Q : A -> Prop) n : forall l,
  Forall Q l -> Forall Q (firstn n l).
Proof.
  induction n as [| n IH]; intros l Hl; [constructor |].
  destruct Hl as [| a l Ha Hl]; cbn [firstn]; [constructor |].
  constructor; [exact Ha | now apply IH].
Qed.

Section ReplaceWithin.

Variable P : N -> Prop.

Lemma advance_within n : forall st,
  stateWithin P st -> stateWithin P (RegExp.advance n st).
Proof.
  induction n as [| n IH]; intros st Hst; cbn [RegExp.advance]; [exact Hst |].
  destruct (RegExp.rest st) as [| c tl] eqn:Hrest; [exact Hst |].
  apply IH. destruct Hst as [Hr Hc]. rewrite Hrest in Hr.
  split; cbn [RegExp.rest RegExp.caps]; [now inversion Hr | exact Hc].
Qed.

Lemma try_down_within k st lo n res :
  (forall st' r, stateWithin P st' -> k st' = Some r -> stateWithin P r) ->
  stateWithin P st ->
  RegExp.try_down k st lo n = Some res ->
  stateWithin P res.
Proof.
  intros Hk Hst. induction n as [| n IH]; cbn [RegExp.try_down].
  - destruct (0 <? lo); [discriminate |].
    destruct (k (RegExp.advance 0 st)) eqn:Hres; [| discriminate].
    intros [= <-]. eapply Hk; [| exact Hres]. now apply advance_within.
  - destruct (S n <? lo); [discriminate |].
    destruct (k (RegExp.advance (S n) st)) eqn:Hres; [| exact IH].
    intros [= <-]. eapply Hk; [| exact Hres]. now apply advance_within.
Qed.

Lemma exec_within fl r : forall st k res,
  (forall st' r', stateWithin P st' -> k st' = Some r' -> stateWithin P r') ->
  stateWithin P st ->
  RegExp.exec fl r st k = Some res ->
  stateWithin P res.
Proof.
  induction r as [c | p | p lo hi | c lo hi | r1 IH1 r2 IH2 | r1 IH1 r2 IH2
                  | | | r1 IH1 | n r1 IH1];
    intros st k res Hk Hst; cbn [RegExp.exec].
  - destruct (RegExp.rest st) as [| a tl] eqn:Hrest; [discriminate |].
    destruct (RegExp.chr_matches fl c a); [| discriminate].
    intros Hres. eapply Hk; [| exact Hres]. now apply advance_within.
  - destruct (RegExp.rest st) as [| a tl] eqn:Hrest; [discriminate |].
    destruct (p a); [| discriminate].
    intros Hres. eapply Hk; [| exact Hres]. now apply advance_within.
  - now apply try_down_within.
  - now apply try_down_within.
  - apply IH1; [| exact Hst]. intros st1 r' Hst1. now apply IH2.
  - destruct (RegExp.exec fl r1 st k) eqn:H1.
    + intros [= <-]. eapply IH1; eauto.
    + now apply IH2.
  - destruct (RegExp.at_line_start fl st); [| discriminate]. now apply Hk.
  - destruct (RegExp.at_line_end fl st); [| discriminate]. now apply Hk.
  - destruct (RegExp.exec fl r1 st (fun st1 => Some st1)); [discriminate |]. now apply Hk.
  - apply IH1; [| exact Hst]. intros st1 r' Hst1. apply Hk.
    destruct Hst as [Hr _], Hst1 as [Hr1 Hc1].
    split; cbn [RegExp.rest RegExp.caps]; [exact Hr1 |].
    constructor; [| exact Hc1]. cbn [snd]. unfold RegExp.captured.
    now apply Forall_prefix.
Qed.

Lemma match_here_within fl r p s st :
  Forall P s -> RegExp.match_here fl r p s = Some st -> stateWithin P st.
Proof.
  intros Hs. unfold RegExp.match_here. apply exec_within.
  - now intros st' r' Hst' [= <-].
  - split; [exact Hs | constructor].
Qed.

Lemma lookup_cap_within n cs :
  Forall (fun c => Forall P (snd c)) cs -> Forall P (RegExp.lookup_cap n cs).
Proof.
  induction 1 as [| [m t] cs Ht _ IH]; cbn [RegExp.lookup_cap]; [constructor |].
  destruct (Nat.eqb m n); [exact Ht | exact IH].
Qed.

Lemma expand_within tpl st :
  templateWithin P tpl -> stateWithin P st ->
  Forall P (RegExp.expand tpl (RegExp.caps st)).
Proof.
  intros Htpl [_ Hcaps]. unfold RegExp.expand.
  induction Htpl as [| pc tpl Hpc _ IH]; cbn [flat_map]; [constructor |].
  apply Forall_app. split; [| exact IH].
  destruct pc as [t | n]; [exact Hpc | now apply lookup_cap_within].
Qed.

Lemma replace_from_within fl r tpl fuel : forall p s,
  templateWithin P tpl -> Forall P s ->
  Forall P (RegExp.replace_from fuel fl r tpl p s).
Proof.
  induction fuel as [| fuel IH]; intros p s Htpl Hs; cbn [RegExp.replace_from];
    [exact Hs |].
  assert (Hstep : Forall P match s with
                           | [] => []
                           | c :: tl => c :: RegExp.replace_from fuel fl r tpl (Some c) tl
                           end).
  { destruct s as [| c tl]; [constructor |].
    inversion Hs; subst. constructor; [assumption | now apply IH]. }
  destruct (RegExp.match_here fl r p s) as [st |] eqn:Hm; [| exact Hstep].
  pose proof (match_here_within _ _ _ Hs Hm) as Hst.
  destruct (length (RegExp.rest st) <? length s);
    apply Forall_app; (split; [now apply expand_within |]);
    [apply IH; [exact Htpl | exact (proj1 Hst)] | exact Hstep].
Qed.

Lemma replaceAll_within fl r tpl s :
  templateWithin P tpl -> Forall P s -> Forall P (RegExp.replaceAll fl r tpl s).
Proof. intros. now apply replace_from_within. Qed.

Lemma replaceFirst_within fl r tpl s :
  templateWithin P tpl -> Forall P s -> Forall P (RegExp.replaceFirst fl r tpl s).
Proof.
  intros Htpl. unfold RegExp.replaceFirst. generalize (@None N) as p.
  induction s as [| c tl IH]; intros p Hs; cbn [RegExp.replaceFirst_from].
  - destruct (RegExp.match_here fl r p []) as [st |] eqn:Hm; [| constructor].
    pose proof (match_here_within _ _ _ Hs Hm) as Hst.
    apply Forall_app. split; [now apply expand_within | exact (proj1 Hst)].
  - destruct (RegExp.match_here fl r p (c :: tl)) as [st |] eqn:Hm.
    + pose proof (match_here_within _ _ _ Hs Hm) as Hst.
      apply Forall_app. split; [now apply expand_within | exact (proj1 Hst)].
    + inversion Hs; subst. constructor; [assumption | now apply IH].
Qed.

Lemma trimStart_within s : Forall P s -> Forall P (trimStart s).
Proof.
  induction 1 as [| c tl Hc Htl IH]; cbn [trimStart]; [constructor |].
  destruct (isWhiteSpace c); [exact IH | now constructor].
Qed.

Lemma trim_within s : Forall P s -> Forall P (trim s).
Proof.
  intros Hs. unfold trim, trimEnd.
  apply Forall_rev, trimStart_within, Forall_rev, trimStart_within, Hs.
Qed.

Lemma split_on_within sep s : Forall P s -> Forall (Forall P) (split_on sep s).
Proof.
  induction 1 as [| c tl Hc Htl IH]; cbn [split_on]; [repeat constructor |].
  destruct (c =? sep)%N; [constructor; [constructor | exact IH] |].
  destruct (split_on sep tl) as [| piece pieces]; [repeat constructor; exact Hc |].
  inversion IH; subst. constructor; [now constructor | assumption].
Qed.

Lemma join_within sep pieces :
  Forall P sep -> Forall (Forall P) pieces -> Forall P (join sep pieces).
Proof.
  intros Hsep. induction 1 as [| piece pieces Hp Hps IH]; cbn [join]; [constructor |].
  destruct pieces as [| q qs]; [exact Hp |].
  apply Forall_app. split; [exact Hp |]. apply Forall_app. split; [exact Hsep | exact IH].
Qed.

End ReplaceWithin.

(** ** The normalizer on misread characters *)

(** Replacing a one-character class everywhere is a character-wise map. *)
Lemma replace_from_class fl p t fuel : forall q s,
  length s < fuel ->
  RegExp.replace_from fuel fl (RegExp.Cls p) [RegExp.Text t] q s
  = flat_map (fun c => if p c then t else [c]) s.
Proof.
  induction fuel as [| fuel IH]; intros q s Hfuel; [lia |].
  destruct s as [| c tl]; [reflexivity |].
  cbn [RegExp.replace_from flat_map RegExp.match_here RegExp.exec RegExp.rest].
  cbn [length] in Hfuel.
  destruct (p c).
  - cbn [RegExp.advance RegExp.rest RegExp.caps RegExp.prev RegExp.expand
         RegExp.lookup_cap flat_map length].
    rewrite (proj2 (Nat.ltb_lt _ _) (Nat.lt_succ_diag_r _)).
    rewrite app_nil_r. f_equal. apply IH. lia.
  - cbn [app]. f_equal. apply IH. lia.
Qed.

Lemma replace_from_chr c0 t fuel : forall q s,
  length s < fuel ->
  RegExp.replace_from fuel RegExp.no_flags (RegExp.Chr c0) [RegExp.Text t] q s
  = flat_map (fun c => if (c0 =? c)%N then t else [c]) s.
Proof.
  induction fuel as [| fuel IH]; intros q s Hfuel; [lia |].
  destruct s as [| c tl]; [reflexivity |].
  cbn [RegExp.replace_from flat_map RegExp.match_here RegExp.exec RegExp.rest].
  cbn [length] in Hfuel.
  change (RegExp.chr_matches RegExp.no_flags c0 c) with (c0 =? c)%N.
  destruct (c0 =? c)%N.
  - cbn [RegExp.advance RegExp.rest RegExp.caps RegExp.prev RegExp.expand
         RegExp.lookup_cap flat_map length].
    rewrite (proj2 (Nat.ltb_lt _ _) (Nat.lt_succ_diag_r _)).
    rewrite app_nil_r. f_equal. apply IH. lia.
  - cbn [app]. f_equal. apply IH. lia.
Qed.

Lemma Forall_flat_map_replace (Q : N -> Prop) (p : N -> bool) t s :
  Forall Q t ->
  (forall c, In c s -> p c = false -> Q c) ->
  Forall Q (flat_map (fun c => if p c then t else [c]) s).
Proof.
  intros Ht. induction s as [| c tl IH]; intros Hs; cbn [flat_map]; [constructor |].
  apply Forall_app. split.
  - destruct (p c) eqn:Hp; [exact Ht |]. constructor; [| constructor].
    apply Hs; [now left | exact Hp].
  - apply IH. intros c' Hin. apply Hs. now right.
Qed.

(** Step 5 of the normalizer leaves no vertical bar and no curly brace. *)
Lemma misreads_replaced s :
  Forall (fun c => isMisread c = false)
    (RegExp.replaceAll RegExp.no_flags (RegExp.Chr 125) [RegExp.Text (str ")")]
       (RegExp.replaceAll RegExp.no_flags (RegExp.Chr 123) [RegExp.Text (str "(")]
          (RegExp.replaceAll RegExp.no_flags (RegExp.Cls (N.eqb 124))
             [RegExp.Text (str "l")] s))).
Proof.
  unfold RegExp.replaceAll.
  rewrite (@replace_from_class _ _ _ _ None s) by lia.
  set (s1 := flat_map _ s).
  assert (H1 : Forall (fun c => (124 =? c)%N = false) s1).
  { apply Forall_flat_map_replace; [repeat constructor | auto]. }
  rewrite (@replace_from_chr _ _ _ None s1) by lia.
  set (s2 := flat_map _ s1).
  assert (H2 : Forall (fun c => (124 =? c)%N = false /\ (123 =? c)%N = false) s2).
  { apply Forall_flat_map_replace; [repeat constructor |].
    intros c Hin Hc. split; [| exact Hc].
    rewrite Forall_forall in H1. now apply H1. }
  rewrite (@replace_from_chr _ _ _ None s2) by lia.
  apply Forall_flat_map_replace; [repeat constructor |].
  intros c Hin Hc. rewrite Forall_forall in H2. destruct (H2 c Hin) as [Ha Hb].
  unfold isMisread. rewrite (N.eqb_sym c 124), (N.eqb_sym c 123), (N.eqb_sym c 125).
  now rewrite Ha, Hb, Hc.
Qed.

(** X1. The normalized text never holds a vertical bar or a curly brace:
    step 5 rewrites every one of them, and no later step brings one back. *)
Theorem postProcessText_no_misread text :
  Forall (fun c => isMisread c = false) (postProcessText text).
Proof.
  unfold postProcessText. destruct (negb (truthy text)); [constructor |].
  cbv zeta.
  apply replaceAll_within; [repeat constructor |].
  apply replaceFirst_within; [constructor |].
  apply replaceFirst_within; [constructor |].
  apply join_within; [repeat constructor |].
  apply Forall_map. 
  eapply Forall_impl; [intros piece Hp; apply trim_within; exact Hp |].
  apply split_on_within.
  apply replaceAll_within; [constructor |].
  apply misreads_replaced.
Qed.

Lemma outcome_text_normalized env file onProgress o :
  outcome (extractTextFromPDF env file onProgress) = Ok o ->
  exists t, out_text o = postProcessText t.
Proof.
  intros Hrun. unfold extractTextFromPDF in Hrun.
  autorewrite with effects in Hrun.
  destruct (arrayBuffer file) as [buf | e]; [| discriminate].
  autorewrite with effects in Hrun.
  destruct (getDocument env buf) as [pdf | e]; [| discriminate].
  autorewrite with effects in Hrun.
  destruct (outcome (extractWithStandardMethod pdf (pdf_numPages pdf))) as [t | e];
    [| discriminate].
  autorewrite with effects in Hrun.
  destruct (MIN_TEXT_THRESHOLD <=? length (trim t)).
  - autorewrite with effects in Hrun. injection Hrun as <-. now exists t.
  - autorewrite with effects in Hrun.
    destruct (outcome (extractWithOCR env pdf (pdf_numPages pdf) onProgress)) as [t' | e];
      [| discriminate].
    autorewrite with effects in Hrun. injection Hrun as <-. now exists t'.
Qed.

(** X2. Whatever the method, the text that the pipeline returns holds no
    vertical bar and no curly brace. *)
Theorem extracted_text_has_no_misread env file onProgress o :
  outcome (extractTextFromPDF env file onProgress) = Ok o ->
  Forall (fun c => isMisread c = false) (out_text o).
Proof.
  intros Hrun. destruct (outcome_text_normalized _ _ _ Hrun) as [t ->].
  clear Hrun. revert t.
  assert (H : forall t, Forall (fun c => isMisread c = false) (postProcessText t)).
  { intros t. unfold postProcessText. destruct (negb (truthy t)); [constructor |].
    cbv zeta.
    apply replaceAll_within; [repeat constructor |].
    apply replaceFirst_within; [constructor |].
    apply replaceFirst_within; [constructor |].
    apply join_within; [repeat constructor |].
    apply Forall_map.
    eapply Forall_impl; [intros piece Hp; apply trim_within; exact Hp |].
    apply split_on_within.
    apply replaceAll_within; [constructor |].
    apply misreads_replaced. }
  exact H.
Qed.

Lemma extracted_text_has_no_misread_witness :
  Forall (fun c => isMisread c = false) (str "Hello world").
Proof.
  exact (@extracted_text_has_no_misread Samples.env_scan Samples.file_ok true
           {| out_text := str "Hello world"; out_numPages := 1; out_method := MethodOcr |}
           eq_refl).
Defined.

(** ** Grouping runs into lines *)

Lemma groupStep_keeps_runs th lines cur item :
  Forall (fun l => items l <> []) lines ->
  Forall (fun l => items l <> []) (fst (groupStep th (lines, cur) item))
  /\ items (snd (groupStep th (lines, cur) item)) <> []
  /\ flat_map items (fst (groupStep th (lines, cur) item))
       ++ items (snd (groupStep th (lines, cur) item))
     = (flat_map items lines ++ items cur) ++ [runOf item].
Proof.
  intros Hlines. unfold groupStep.
  set (startsNew := match y cur with
                    | None => true
                    | Some cy => gt (Math_abs (cy - tf (item_transform item))) th
                    end).
  fold (runOf item).
  destruct startsNew.
  - destruct (items cur) as [| r rs] eqn:Hcur;
      cbn [items y fontSize app];
      destruct (gt (fontSizeOf item) (fontSizeOf item)); cbn [fst snd items].
    + repeat split; [exact Hlines | discriminate | now rewrite app_nil_r].
    + repeat split; [exact Hlines | discriminate | now rewrite app_nil_r].
    + repeat split.
      * apply Forall_app. split; [exact Hlines |]. constructor; [| constructor].
        rewrite Hcur. discriminate.
      * discriminate.
      * rewrite flat_map_app. cbn [flat_map]. now rewrite Hcur, app_nil_r.
    + repeat split.
      * apply Forall_app. split; [exact Hlines |]. constructor; [| constructor].
        rewrite Hcur. discriminate.
      * discriminate.
      * rewrite flat_map_app. cbn [flat_map]. now rewrite Hcur, app_nil_r.
  - cbn [items y fontSize].
    destruct (gt (fontSizeOf item) (fontSize cur)); cbn [fst snd items];
      (repeat split; [exact Hlines | now destruct (items cur) | now rewrite app_assoc]).
Qed.

Lemma groupFold_keeps_runs th its : forall lines cur,
  Forall (fun l => items l <> []) lines ->
  Forall (fun l => items l <> []) (fst (fold_left (groupStep th) its (lines, cur)))
  /\ (its <> [] -> items (snd (fold_left (groupStep th) its (lines, cur))) <> [])
  /\ flat_map items (fst (fold_left (groupStep th) its (lines, cur)))
       ++ items (snd (fold_left (groupStep th) its (lines, cur)))
     = (flat_map items lines ++ items cur) ++ map runOf its.
Proof.
  induction its as [| item its IH]; intros lines cur Hlines; cbn [fold_left map].
  - repeat split; [exact Hlines | congruence | now rewrite app_nil_r].
  - destruct (groupStep_keeps_runs th cur item Hlines) as [H1 [H2 H3]].
    destruct (groupStep th (lines, cur) item) as [lines1 cur1] eqn:Hstep.
    cbn [fst snd] in *.
    destruct (IH lines1 cur1 H1) as [I1 [I2 I3]].
    repeat split; [exact I1 | |].
    + intros _. destruct its as [| it2 its2]; [exact H2 | apply I2; discriminate].
    + rewrite I3, H3. now rewrite <- !app_assoc.
Qed.

(** X3. Grouping loses nothing: every line it builds holds at least one
    run, and the runs of the lines, read line after line, are the runs of
    the sorted items in their order. *)
Theorem groupLines_keeps_runs lineThreshold sortedItems :
  Forall (fun l => items l <> []) (groupLines lineThreshold sortedItems)
  /\ flat_map items (groupLines lineThreshold sortedItems) = map runOf sortedItems.
Proof.
  unfold groupLines.
  destruct (@groupFold_keeps_runs lineThreshold sortedItems []
              {| y := None; items := []; fontSize := 0 |} (Forall_nil _))
    as [H1 [_ H3]].
  destruct (fold_left (groupStep lineThreshold) sortedItems _) as [lines cur].
  cbn [fst snd items flat_map app] in *.
  destruct (items cur) as [| r rs] eqn:Hcur.
  - split; [exact H1 |]. now rewrite app_nil_r in H3.
  - split.
    + apply Forall_app. split; [exact H1 |]. constructor; [| constructor].
      rewrite Hcur. discriminate.
    + rewrite flat_map_app. cbn [flat_map]. now rewrite Hcur, app_nil_r.
Qed.

(** ** Small pages are never split into columns *)

Lemma countStep_total midPage cnt line :
  fst (countStep midPage cnt line) + snd (countStep midPage cnt line)
  <= S (fst cnt + snd cnt).
Proof.
  unfold countStep. destruct cnt as [l r].
  destruct (lt (avgX (items line)) (midPage * (6 # 10)));
    [| destruct (gt (avgX (items line)) (midPage * (8 # 10)))];
    cbn [fst snd]; lia.
Qed.

Lemma columnCounts_total midPage lines : forall cnt,
  fst (fold_left (countStep midPage) lines cnt)
  + snd (fold_left (countStep midPage) lines cnt)
  <= fst cnt + snd cnt + length lines.
Proof.
  induction lines as [| line lines IH]; intros cnt; cbn [fold_left length]; [lia |].
  pose proof (IH (countStep midPage cnt line)).
  pose proof (countStep_total midPage cnt line). lia.
Qed.

(** X4. A page with fewer than eight lines is never taken for a two-column
    page: its lines are emitted one after the other, in their order. *)
Theorem short_page_is_single_column pageWidth avgFontSize lines :
  length lines < 8 ->
  isTwoColumn pageWidth lines = false
  /\ linesText pageWidth avgFontSize lines = singleColumnText avgFontSize lines.
Proof.
  intros Hshort.
  assert (Hone : isTwoColumn pageWidth lines = false).
  { unfold isTwoColumn, columnCounts.
    pose proof (columnCounts_total (pageWidth / 2) lines (O, O)) as Htotal.
    destruct (fold_left (countStep (pageWidth / 2)) lines (O, O)) as [l r].
    cbn [fst snd] in Htotal.
    destruct (Nat.ltb_spec 3 l) as [Hl | Hl]; [| reflexivity].
    destruct (Nat.ltb_spec 3 r) as [Hr | Hr]; [lia | reflexivity]. }
  split; [exact Hone |]. unfold linesText. now rewrite Hone.
Qed.

Lemma short_page_is_single_column_witness :
  let lines := Samples.lines_of (firstn 6 (Samples.two_column_items 100 500)) in
  isTwoColumn 600 lines = false
  /\ linesText 600 10 lines = singleColumnText 10 lines.
Proof.
  apply short_page_is_single_column. vm_compute. lia.
Defined.

(** ** Font sizes and the line threshold *)

Lemma Qabs_nonzero_pos a : ~ (a == 0)%Q -> (0 < Qabs a)%Q.
Proof.
  intros Hnz. destruct (Qlt_le_dec 0 a) as [Hpos | Hle].
  - rewrite Qabs_pos; lra.
  - rewrite Qabs_neg by exact Hle.
    destruct (Qeq_dec a 0) as [Hz | _]; [contradiction |]. 
    assert (a < 0)%Q; [| lra].
    apply Qle_lteq in Hle. destruct Hle as [Hlt | Heq]; [exact Hlt | contradiction].
Qed.

Lemma fontSizeOf_pos item : (0 < fontSizeOf item)%Q.
Proof.
  unfold fontSizeOf, Math_abs, or_else.
  destruct (Qeq_bool (td (item_transform item)) 0) eqn:Hd; cbv iota.
  - destruct (Qeq_bool (item_height item) 0) eqn:Hh; cbv iota.
    + reflexivity.
    + apply Qabs_nonzero_pos, Qeq_bool_neq. exact Hh.
  - rewrite Hd. apply Qabs_nonzero_pos, Qeq_bool_neq. exact Hd.
Qed.

Lemma sum_from_pos xs a :
  (0 < a)%Q -> Forall (fun v => 0 < v)%Q xs -> (0 < fold_left Qplus xs a)%Q.
Proof.
  intros Ha Hxs. revert a Ha. induction Hxs as [| v xs Hv _ IH]; intros a Ha; simpl.
  - exact Ha.
  - apply IH. lra.
Qed.

(** X5. Font-size thresholds are never zero or negative: the font size of
    an item is positive (falling back on its height, then on 10), so is the
    average over a page with items, and the line threshold is at least 2. *)
Theorem font_size_thresholds_positive :
  (forall item, (0 < fontSizeOf item)%Q)
  /\ (forall its, its <> [] -> (0 < avgFontSizeOf its)%Q)
  /\ (forall its, (2 <= Math_max (avgFontSizeOf its * (4 # 10)) 2)%Q).
Proof.
  split; [exact fontSizeOf_pos | split].
  - intros [| it its] Hne; [congruence |].
    unfold avgFontSizeOf, Num.sum. cbn [map fold_left].
    apply Qlt_shift_div_l.
    + unfold of_nat. change 0%Q with (inject_Z 0). rewrite <- Zlt_Qlt.
      cbn [length]. lia.
    + rewrite Qmult_0_l. apply sum_from_pos.
      * pose proof (fontSizeOf_pos it). lra.
      * apply Forall_forall. intros v Hv.
        apply in_map_iff in Hv as [it' [<- _]]. apply fontSizeOf_pos.
  - intros its. unfold Math_max.
    destruct (Qle_bool (avgFontSizeOf its * (4 # 10)) 2) eqn:Hle; [lra |].
    apply Qlt_le_weak, Qnot_le_lt. rewrite <- Qle_bool_iff. congruence.
Qed.

Lemma font_size_thresholds_positive_witness :
  (0 < avgFontSizeOf [Samples.item "Jane" 10 700 20])%Q.
Proof.
  destruct font_size_thresholds_positive as [_ [H _]].
  apply H. discriminate.
Defined.

(** ** The contrast range *)

Lemma percentileLoop_bounds histogram totalPixels fuel :
  forall i cumulative lowVal,
    (0 <= i)%Z -> (i + Z.of_nat fuel = 256)%Z ->
    (0 <= lowVal <= i)%Z -> (lowVal <= 255)%Z ->
    (0 <= fst (percentileLoop fuel i histogram totalPixels cumulative lowVal)
     <= snd (percentileLoop fuel i histogram totalPixels cumulative lowVal))%Z
    /\ (snd (percentileLoop fuel i histogram totalPixels cumulative lowVal) <= 255)%Z.
Proof.
  induction fuel as [| fuel IH]; intros i cumulative lowVal Hi Hfuel Hlow Hcap;
    cbn [percentileLoop].
  - cbn [fst snd]. lia.
  - set (cumulative' := (cumulative + nth (Z.to_nat i) histogram 0)%Z).
    set (lowVal' := if ge (inject_Z cumulative') (totalPixels * (2 # 100))
                       && (lowVal =? 0)%Z then i else lowVal).
    assert (Hlow' : (0 <= lowVal' <= i)%Z /\ (lowVal' <= 255)%Z).
    { unfold lowVal'.
      destruct (ge (inject_Z cumulative') (totalPixels * (2 # 100)) && (lowVal =? 0)%Z); lia. }
    destruct (ge (inject_Z cumulative') (totalPixels * (98 # 100))).
    + cbn [fst snd]. lia.
    + apply IH; lia.
Qed.

(** X6. Whatever the histogram, the percentile loop ends with
    [0 <= lowVal <= highVal <= 255], so the range that the stretch divides
    by lies between 1 and 255. *)
Theorem contrast_range_bounds histogram totalPixels :
  let lowVal := fst (percentileLoop 256 0 histogram totalPixels 0 0) in
  let highVal := snd (percentileLoop 256 0 histogram totalPixels 0 0) in
  let range := if (highVal - lowVal =? 0)%Z then 1%Z else (highVal - lowVal)%Z in
  (0 <= lowVal <= highVal)%Z /\ (highVal <= 255)%Z /\ (1 <= range <= 255)%Z.
Proof.
  intros lowVal highVal range.
  destruct (@percentileLoop_bounds histogram totalPixels 256 0 0 0) as [H1 H2];
    try lia.
  fold lowVal highVal in H1, H2.
  repeat split; try lia; unfold range;
    destruct (Z.eqb_spec (highVal - lowVal) 0); lia.
Qed.

(** X7. Preprocessing works in place: the canvas keeps its width, its
    height and the number of its bytes. *)
Theorem preprocess_keeps_size pow canvas :
  canvas_width (preprocessCanvasForOCR pow canvas) = canvas_width canvas
  /\ canvas_height (preprocessCanvasForOCR pow canvas) = canvas_height canvas
  /\ length (pixels (preprocessCanvasForOCR pow canvas)) = length (pixels canvas).
Proof.
  unfold preprocessCanvasForOCR.
  destruct (percentileLoop 256 0 _ _ 0 0) as [lowVal highVal].
  cbn [canvas_width canvas_height pixels].
  repeat split.
  set (range := if (highVal - lowVal =? 0)%Z then 1%Z else (highVal - lowVal)%Z).
  destruct (@stretchLoop_spec pow lowVal range (length (pixels canvas))
              0 (pixels canvas)) as [Hlen _]; [lia | exact Hlen].
Qed.

(** ** Events of the OCR strategy *)

Section OcrEvents.

Variables (env : Env) (pdf : PDFDocument) (worker : Worker).
Variables (numPages : nat) (onProgress : bool).

(** A property of events that holds of everything the page loop does. *)
Variable Q : event -> Prop.
Hypothesis Q_page : forall i, Q (GetPage i).
Hypothesis Q_render : forall i, Q (RenderPage i).
Hypothesis Q_recognize : forall i, Q (Recognize i).
Hypothesis Q_progress : onProgress = true -> forall status, Q (Progress status).

Lemma report_events status :
  Forall Q (if onProgress then [Progress status] else []).
Proof.
  destruct onProgress eqn:Hp; [| constructor].
  constructor; [now apply Q_progress | constructor].
Qed.

Lemma logAll_events currentPage infos :
  Forall Q (trace (logAll onProgress numPages currentPage infos)).
Proof.
  induction infos as [| info rest IH]; cbn [logAll]; [constructor |].
  autorewrite with effects. apply Forall_app. split.
  - unfold logger.
    destruct (String.eqb (status info) "recognizing text") ; cbn [andb];
      [| constructor].
    destruct onProgress eqn:Hp; [| constructor].
    constructor; [now apply Q_progress | constructor].
  - destruct (outcome (logger onProgress numPages currentPage info)); [exact IH | constructor].
Qed.

Lemma ocrPage_events i fullText :
  Forall Q (trace (ocrPage env pdf worker numPages onProgress i fullText)).
Proof.
  unfold ocrPage, renderPageToImage. autorewrite with effects.
  apply Forall_app. split; [apply report_events |].
  constructor; [apply Q_page |].
  destruct (getPage pdf i) as [page | e]; [| constructor].
  autorewrite with effects. constructor; [apply Q_render |].
  destruct (renderToCanvas page 3) as [canvas | e]; [| constructor].
  autorewrite with effects. constructor; [apply Q_recognize |].
  rewrite outcome_logAll. apply Forall_app. split; [apply logAll_events |].
  cbn [trace fst outcome snd app].
  destruct (snd (recognize worker i _)); constructor.
Qed.

Lemma ocrLoop_events k : forall i fullText,
  Forall Q (trace (ocrLoop env pdf worker numPages onProgress k i fullText)).
Proof.
  induction k as [| k IH]; intros i fullText; cbn [ocrLoop]; [constructor |].
  rewrite trace_bind. apply Forall_app. split; [apply ocrPage_events |].
  destruct (outcome (ocrPage env pdf worker numPages onProgress i fullText));
    [apply IH | constructor].
Qed.

End OcrEvents.

Lemma filter_none {A} (f : A -> bool) l :
  Forall (fun a => f a = false) l -> filter f l = [].
Proof.
  induction 1 as [| a l Ha _ IH]; cbn [filter]; [reflexivity |]. now rewrite Ha.
Qed.

(** X8. Once the worker is created and configured it is terminated exactly
    once, whether the page loop returns or throws; the strategy then ends
    as the loop did, unless [terminate] itself throws. *)
Theorem configured_worker_terminated_once env pdf numPages onProgress worker :
  snd (createWorker env) = Ok worker ->
  setParameters worker = Ok tt ->
  length (filter isTerminate (trace (extractWithOCR env pdf numPages onProgress))) = 1
  /\ outcome (extractWithOCR env pdf numPages onProgress)
     = match terminate worker with
       | Ok _ => outcome (ocrLoop env pdf worker numPages onProgress numPages 1 [])
       | Throw e => Throw e
       end.
Proof.
  intros Hcreate Hconfig. unfold extractWithOCR.
  autorewrite with effects. rewrite outcome_logAll.
  autorewrite with effects. cbn [outcome trace fst snd]. rewrite Hcreate.
  autorewrite with effects. rewrite Hconfig.
  autorewrite with effects.
  split.
  - rewrite !filter_app.
    rewrite (filter_none isTerminate
               (l := trace (logAll onProgress numPages 0 (fst (createWorker env)))))
      by (apply logAll_events; reflexivity).
    rewrite (filter_none isTerminate
               (l := trace (ocrLoop env pdf worker numPages onProgress numPages 1 [])))
      by (apply ocrLoop_events; reflexivity).
    cbn [filter isTerminate app length].
    destruct (terminate worker) as [u | e]; [| reflexivity].
    destruct (outcome (ocrLoop env pdf worker numPages onProgress numPages 1 []));
      [| reflexivity].
    autorewrite with effects. destruct onProgress; reflexivity.
  - destruct (terminate worker) as [u | e]; [| reflexivity].
    destruct (outcome (ocrLoop env pdf worker numPages onProgress numPages 1 []));
      autorewrite with effects; reflexivity.
Qed.

Lemma configured_worker_terminated_once_witness :
  length (filter isTerminate
            (trace (extractWithOCR Samples.env_scan Samples.pdf_hello 1 true))) = 1
  /\ outcome (extractWithOCR Samples.env_scan Samples.pdf_hello 1 true)
     = Ok (str "Hello world" ++ [LF; LF]).
Proof.
  exact (@configured_worker_terminated_once Samples.env_scan Samples.pdf_hello 1 true
           (Samples.worker_of (Ok tt) Samples.data_hello) eq_refl eq_refl).
Defined.

(** X9. When the worker cannot be created, the strategy throws at once:
    nothing is configured, no page is loaded or drawn, and nothing is
    terminated. *)
Theorem failed_worker_creation_stops_ocr env pdf numPages onProgress e :
  snd (createWorker env) = Throw e ->
  outcome (extractWithOCR env pdf numPages onProgress) = Throw e
  /\ filter (fun ev => negb (isProgress ev))
       (trace (extractWithOCR env pdf numPages onProgress)) = [CreateWorker].
Proof.
  intros Hcreate. unfold extractWithOCR.
  autorewrite with effects. rewrite outcome_logAll.
  autorewrite with effects. cbn [outcome trace fst snd]. rewrite Hcreate.
  split; [reflexivity |].
  rewrite !filter_app. cbn [filter isProgress negb app].
  rewrite (filter_none (fun ev => negb (isProgress ev))
             (l := trace (logAll onProgress numPages 0 (fst (createWorker env))))).
  - reflexivity.
  - apply logAll_events; try discriminate. reflexivity.
Qed.

Lemma failed_worker_creation_stops_ocr_witness :
  outcome (extractWithOCR MoreSamples.env_no_worker Samples.pdf_hello 1 true)
  = Throw (Exn "worker failed")
  /\ filter (fun ev => negb (isProgress ev))
       (trace (extractWithOCR MoreSamples.env_no_worker Samples.pdf_hello 1 true))
     = [CreateWorker].
Proof.
  exact (@failed_worker_creation_stops_ocr MoreSamples.env_no_worker Samples.pdf_hello
           1 true (Exn "worker failed") eq_refl).
Defined.

(** ** Progress is reported to a callback only *)

(** X10. Without a progress callback the pipeline reports nothing: its
    trace holds no progress event, whichever way it ends. *)
Theorem no_callback_no_progress env file :
  filter isProgress (trace (extractTextFromPDF env file false)) = [].
Proof.
  apply filter_none. unfold extractTextFromPDF.
  autorewrite with effects. constructor; [reflexivity |].
  destruct (arrayBuffer file) as [buf | e]; [| constructor].
  autorewrite with effects. constructor; [reflexivity |].
  destruct (getDocument env buf) as [pdf | e]; [| constructor].
  autorewrite with effects. cbn [app].
  apply Forall_app. split.
  { eapply Forall_impl; [| apply standardLoop_trace].
    intros ev Hev. destruct ev; try contradiction; reflexivity. }
  destruct (outcome (extractWithStandardMethod pdf (pdf_numPages pdf))) as [t | e];
    [| constructor].
  autorewrite with effects. cbn [app].
  destruct (MIN_TEXT_THRESHOLD <=? length (trim t)); [constructor |].
  autorewrite with effects. cbn [app].
  apply Forall_app. split.
  - unfold extractWithOCR. autorewrite with effects.
    constructor; [reflexivity |].
    apply Forall_app. split; [apply logAll_events; (reflexivity || discriminate) |].
    rewrite outcome_logAll. autorewrite with effects. cbn [trace fst outcome snd app].
    destruct (snd (createWorker env)) as [worker | e]; [| constructor].
    autorewrite with effects. constructor; [reflexivity |].
    destruct (setParameters worker) as [u | e]; [| constructor].
    autorewrite with effects.
    apply Forall_app. split.
    + apply Forall_app. split.
      * apply ocrLoop_events; (reflexivity || discriminate).
      * constructor; [reflexivity | constructor].
    + destruct (terminate worker); [| constructor].
      destruct (outcome (ocrLoop _ _ _ _ _ _ _ _)); [| constructor].
      autorewrite with effects. constructor.
  - destruct (outcome (extractWithOCR env pdf (pdf_numPages pdf) false)); constructor.
Qed.

(** ** The page loop of the standard method *)

Lemma standardPage_run pdf numPages i fullText page textContent :
  getPage pdf i = Ok page ->
  getTextContent page = Ok textContent ->
  standardPage pdf numPages i fullText
  = ([GetPage i; GetTextContent i],
     Ok (fullText ++ standardContribution numPages i page textContent)).
Proof.
  intros Hpage Hcontent. unfold standardPage, call, bind.
  rewrite Hpage, Hcontent.
  unfold standardContribution, textItems.
  destruct (tc_items textContent) as [[| it its] |];
    cbn [filter]; try (now rewrite app_nil_r).
  destruct (filter hasText (it :: its)) as [| kept0 kept] eqn:Hkept;
    cbn [filter] in Hkept; rewrite Hkept; cbn [ret app].
  - now rewrite app_nil_r.
  - destruct (i <? numPages); now rewrite ?app_nil_r, <- ?app_assoc.
Qed.

Lemma standardPage_visit pdf numPages i fullText :
  (exists rest, trace (standardPage pdf numPages i fullText) ++ rest
                = [GetPage i; GetTextContent i])
  /\ (forall t, outcome (standardPage pdf numPages i fullText) = Ok t ->
                trace (standardPage pdf numPages i fullText)
                = [GetPage i; GetTextContent i]).
Proof.
  destruct (getPage pdf i) as [page | e] eqn:Hpage.
  - destruct (getTextContent page) as [tc | e] eqn:Hcontent.
    + rewrite (@standardPage_run pdf numPages i fullText page tc Hpage Hcontent).
      cbn [trace fst].
      split; [exists []; reflexivity | reflexivity].
    + unfold standardPage, call, bind. rewrite Hpage, Hcontent. cbn [trace fst outcome snd app].
      split; [exists []; reflexivity | discriminate].
  - unfold standardPage, call, bind. rewrite Hpage. cbn [trace fst outcome snd].
    split; [exists [GetTextContent i]; reflexivity | discriminate].
Qed.

Lemma standardLoop_visits pdf numPages k : forall i fullText,
  (exists rest, trace (standardLoop pdf numPages k i fullText) ++ rest = pageVisits i k)
  /\ (forall t, outcome (standardLoop pdf numPages k i fullText) = Ok t ->
                trace (standardLoop pdf numPages k i fullText) = pageVisits i k).
Proof.
  induction k as [| k IH]; intros i fullText; cbn [standardLoop].
  - split; [exists []; reflexivity | reflexivity].
  - rewrite trace_bind, outcome_bind.
    destruct (standardPage_visit pdf numPages i fullText) as [[rest Hrest] Hfull].
    unfold pageVisits. cbn [seq flat_map]. fold (pageVisits (S i) k).
    destruct (outcome (standardPage pdf numPages i fullText)) as [t |] eqn:Hout.
    + rewrite (Hfull t eq_refl).
      destruct (IH (S i) t) as [[rest' Hrest'] Hfull'].
      split.
      * exists rest'. rewrite <- app_assoc, Hrest'. reflexivity.
      * intros t' Ht'. now rewrite (Hfull' t' Ht').
    + split; [| discriminate].
      exists (rest ++ pageVisits (S i) k).
      rewrite app_nil_r, app_assoc, Hrest. reflexivity.
Qed.

(** X11. The standard method loads the pages in order, from page 1, each
    page once and its text right after it: its trace is always a prefix of
    that sequence of calls, and the whole of it when the method returns. *)
Theorem standard_method_visits_pages_in_order pdf numPages :
  (exists rest, trace (extractWithStandardMethod pdf numPages) ++ rest
                = pageVisits 1 numPages)
  /\ (forall t, outcome (extractWithStandardMethod pdf numPages) = Ok t ->
                trace (extractWithStandardMethod pdf numPages) = pageVisits 1 numPages).
Proof.
  exact (standardLoop_visits pdf numPages numPages 1 []).
Qed.

Lemma standard_method_visits_pages_in_order_witness :
  trace (extractWithStandardMethod MoreSamples.pdf_two_pages 2)
  = [GetPage 1; GetTextContent 1; GetPage 2; GetTextContent 2].
Proof.
  destruct (standard_method_visits_pages_in_order MoreSamples.pdf_two_pages 2) as [_ H].
  exact (H _ eq_refl).
Defined.

Lemma join_cons_more sep (c x : jsstring) xs :
  join sep (c :: x :: xs) = c ++ sep ++ join sep (x :: xs).
Proof. reflexivity. Qed.

Lemma standardLoop_joined pdf numPages (pageOf : nat -> PDFPage)
                          (contentOf : nat -> TextContent) k :
  forall i fullText,
    i + k = S numPages ->
    (forall j, i <= j <= numPages ->
               getPage pdf j = Ok (pageOf j)
               /\ getTextContent (pageOf j) = Ok (contentOf j)
               /\ textItems (contentOf j) <> []) ->
    outcome (standardLoop pdf numPages k i fullText)
    = Ok (fullText
            ++ join pageBreak
                 (map (fun j => pageText (viewportWidth (pageOf j)) (textItems (contentOf j)))
                      (seq i k))).
Proof.
  induction k as [| k IH]; intros i fullText Hik Hpages; cbn [standardLoop seq map].
  - cbn [join]. now rewrite app_nil_r.
  - destruct (Hpages i) as [Hpage [Hcontent Htext]]; [lia |].
    rewrite outcome_bind.
    rewrite (@standardPage_run pdf numPages i fullText _ _ Hpage Hcontent).
    cbn [outcome snd]. rewrite IH; [| lia | intros j Hj; apply Hpages; lia].
    unfold standardContribution.
    destruct (textItems (contentOf i)) as [| it its] eqn:Hits; [congruence |].
    destruct k as [| k].
    + assert (Hlast : (i <? numPages) = false) by (apply Nat.ltb_ge; lia).
      rewrite Hlast. cbn [seq map join]. now rewrite !app_nil_r.
    + assert (Hmore : (i <? numPages) = true) by (apply Nat.ltb_lt; lia).
      rewrite Hmore. cbn [seq map]. rewrite join_cons_more.
      now rewrite <- !app_assoc.
Qed.

(** X12. When every page loads and bears text, the standard method returns
    the texts of the pages in order, joined by the page-break marker. *)
Theorem standard_text_joins_pages pdf numPages pageOf contentOf :
  (forall j, 1 <= j <= numPages ->
             getPage pdf j = Ok (pageOf j)
             /\ getTextContent (pageOf j) = Ok (contentOf j)
             /\ textItems (contentOf j) <> []) ->
  outcome (extractWithStandardMethod pdf numPages)
  = Ok (join pageBreak
          (map (fun j => pageText (viewportWidth (pageOf j)) (textItems (contentOf j)))
               (seq 1 numPages))).
Proof.
  intros Hpages. unfold extractWithStandardMethod.
  now rewrite (@standardLoop_joined pdf numPages pageOf contentOf numPages 1 []).
Qed.

Lemma standard_text_joins_pages_witness :
  outcome (extractWithStandardMethod MoreSamples.pdf_two_pages 2)
  = Ok (join pageBreak [str "Hello" ++ [LF]; str Samples.long_line ++ [LF]]).
Proof.
  apply (@standard_text_joins_pages MoreSamples.pdf_two_pages 2
           (fun j => match j with 1 => Samples.page_hello | _ => Samples.page_long end)
           (fun j => match j with
                     | 1 => {| tc_items := Some [Samples.item "Hello" 50 700 30] |}
                     | _ => {| tc_items := Some [Samples.item Samples.long_line 50 700 400] |}
                     end)).
  intros j Hj.
  destruct j as [| [| [| j]]]; try lia;
    (split; [reflexivity | split; [reflexivity | discriminate]]).
Defined.

Lemma standardLoop_textless pdf numPages k : forall i fullText,
  (forall j, i <= j < i + k ->
             exists page textContent,
               getPage pdf j = Ok page
               /\ getTextContent page = Ok textContent
               /\ textItems textContent = []) ->
  outcome (standardLoop pdf numPages k i fullText) = Ok fullText.
Proof.
  induction k as [| k IH]; intros i fullText Hpages; cbn [standardLoop]; [reflexivity |].
  destruct (Hpages i) as [page [tc [Hpage [Hcontent Htext]]]]; [lia |].
  rewrite outcome_bind.
  rewrite (@standardPage_run pdf numPages i fullText _ _ Hpage Hcontent).
  cbn [outcome snd]. unfold standardContribution. rewrite Htext, app_nil_r.
  apply IH. intros j Hj. apply Hpages. lia.
Qed.

(** X13. A document none of whose pages bears text always goes to OCR: the
    standard text is empty, the worker is created, and an outcome, if there
    is one, has method "ocr". *)
Theorem textless_document_goes_to_ocr env file onProgress buf pdf :
  arrayBuffer file = Ok buf ->
  getDocument env buf = Ok pdf ->
  (forall j, 1 <= j <= pdf_numPages pdf ->
             exists page textContent,
               getPage pdf j = Ok page
               /\ getTextContent page = Ok textContent
               /\ textItems textContent = []) ->
  outcome (extractWithStandardMethod pdf (pdf_numPages pdf)) = Ok []
  /\ In CreateWorker (trace (extractTextFromPDF env file onProgress))
  /\ (forall o, outcome (extractTextFromPDF env file onProgress) = Ok o ->
                out_method o = MethodOcr).
Proof.
  intros Hfile Hdoc Hpages.
  assert (Hstd : outcome (extractWithStandardMethod pdf (pdf_numPages pdf)) = Ok []).
  { apply standardLoop_textless. intros j Hj. apply Hpages. lia. }
  destruct (extractWithStandardMethod pdf (pdf_numPages pdf)) as [tr r] eqn:Hrun.
  cbn [outcome snd] in Hstd. subst r.
  split; [reflexivity | split].
  - apply (@run_creates_worker_iff env file onProgress _ _ _ _ Hfile Hdoc Hrun).
    cbn. unfold MIN_TEXT_THRESHOLD. lia.
  - intros o Ho.
    rewrite (@run_outcome env file onProgress _ _ _ _ Hfile Hdoc Hrun) in Ho.
    cbn [trim trimEnd trimStart rev length Nat.leb MIN_TEXT_THRESHOLD] in Ho.
    destruct (outcome (extractWithOCR env pdf (pdf_numPages pdf) onProgress));
      [injection Ho as <-; reflexivity | discriminate].
Qed.

Lemma textless_document_goes_to_ocr_witness :
  outcome (extractWithStandardMethod MoreSamples.pdf_scanned 2) = Ok []
  /\ In CreateWorker (trace (extractTextFromPDF MoreSamples.env_scanned Samples.file_ok false))
  /\ (forall o, outcome (extractTextFromPDF MoreSamples.env_scanned Samples.file_ok false) = Ok o ->
                out_method o = MethodOcr).
Proof.
  apply (@textless_document_goes_to_ocr MoreSamples.env_scanned Samples.file_ok false
           [37; 80; 68; 70]%Z MoreSamples.pdf_scanned eq_refl eq_refl).
  intros j Hj. exists Samples.page_blank, {| tc_items := Some [] |}.
  destruct j as [| [| [| j]]]; cbn in Hj; try lia; repeat split.
Defined.

(** ** The text of the OCR strategy *)

Lemma ocrLoop_joined env pdf worker numPages onProgress (dataOf : nat -> OCRData) k :
  forall i fullText,
    i + k = S numPages ->
    (forall j, i <= j <= numPages ->
               exists page canvas,
                 getPage pdf j = Ok page
                 /\ renderToCanvas page 3 = Ok canvas
                 /\ snd (recognize worker j (preprocessCanvasForOCR (Math_pow env) canvas))
                    = Ok (dataOf j)) ->
    outcome (ocrLoop env pdf worker numPages onProgress k i fullText)
    = Ok (fullText
            ++ join pageBreak (map (fun j => pageContribution (dataOf j)) (seq i k))).
Proof.
  induction k as [| k IH]; intros i fullText Hik Hpages; cbn [ocrLoop seq map].
  - cbn [join]. now rewrite app_nil_r.
  - destruct (Hpages i) as [page [canvas [Hpage [Hrender Hdata]]]]; [lia |].
    rewrite outcome_bind.
    rewrite (@ocrPage_outcome env pdf numPages onProgress worker i fullText
               page canvas (dataOf i) Hpage Hrender Hdata).
    cbv zeta. rewrite IH; [| lia | intros j Hj; apply Hpages; lia].
    unfold pageContribution.
    destruct k as [| k].
    + assert (Hlast : (i <? numPages) = false) by (apply Nat.ltb_ge; lia).
      rewrite Hlast. cbn [seq map join].
      destruct (hasVisibleText (data_text (dataOf i))); now rewrite !app_nil_r.
    + assert (Hmore : (i <? numPages) = true) by (apply Nat.ltb_lt; lia).
      rewrite Hmore. cbn [seq map]. rewrite join_cons_more.
      destruct (hasVisibleText (data_text (dataOf i))); cbn [app];
        now rewrite <- ?app_assoc.
Qed.

(** X14. When the worker is created, configured and terminated without
    error and every page is loaded, drawn and recognized, the OCR strategy
    returns the contributions of the pages in order, joined by the
    page-break marker: a page without visible flat text still holds its
    place between two markers. *)
Theorem ocr_text_joins_pages env pdf numPages onProgress worker dataOf :
  snd (createWorker env) = Ok worker ->
  setParameters worker = Ok tt ->
  terminate worker = Ok tt ->
  (forall j, 1 <= j <= numPages ->
             exists page canvas,
               getPage pdf j = Ok page
               /\ renderToCanvas page 3 = Ok canvas
               /\ snd (recognize worker j (preprocessCanvasForOCR (Math_pow env) canvas))
                  = Ok (dataOf j)) ->
  outcome (extractWithOCR env pdf numPages onProgress)
  = Ok (join pageBreak (map (fun j => pageContribution (dataOf j)) (seq 1 numPages))).
Proof.
  intros Hcreate Hconfig Hterminate Hpages. unfold extractWithOCR.
  autorewrite with effects. rewrite outcome_logAll.
  autorewrite with effects. cbn [outcome snd]. rewrite Hcreate.
  autorewrite with effects. rewrite Hconfig.
  autorewrite with effects. rewrite Hterminate.
  rewrite (@ocrLoop_joined env pdf worker numPages onProgress dataOf numPages 1 []
             eq_refl Hpages).
  autorewrite with effects. reflexivity.
Qed.

Lemma ocr_text_joins_pages_witness :
  outcome (extractWithOCR MoreSamples.env_scanned MoreSamples.pdf_scanned 2 true)
  = Ok (join pageBreak [str "Hello world" ++ [LF; LF]; str "Hello world" ++ [LF; LF]]).
Proof.
  apply (@ocr_text_joins_pages MoreSamples.env_scanned MoreSamples.pdf_scanned 2 true
           (Samples.worker_of (Ok tt) Samples.data_hello)
           (fun _ => Samples.data_hello) eq_refl eq_refl eq_refl).
  intros j Hj. exists Samples.page_blank, Samples.canvas_white.
  destruct j as [| [| [| j]]]; try lia; repeat split.
Defined.

(** ** Words below the confidence bar *)

Lemma lineTextOf_unconfident ws :
  Forall (fun w => (confidence w <= 30)%Q) ws -> lineTextOf ws = [].
Proof.
  intros Hws. unfold lineTextOf. rewrite lineText_from.
  replace (filter kept ws) with (@nil Word); [reflexivity |].
  symmetry. apply filter_none.
  eapply Forall_impl; [| exact Hws].
  intros w Hw. unfold kept, confident.
  now rewrite (proj2 (gt_false_iff _ _) Hw).
Qed.

Lemma lines_unconfident ls : forall paraText,
  Forall (fun w => (confidence w <= 30)%Q) (flat_map wordsOfLine ls) ->
  fold_left lineStep ls paraText = paraText.
Proof.
  induction ls as [| line ls IH]; intros paraText Hws; cbn [fold_left]; [reflexivity |].
  cbn [flat_map] in Hws. apply Forall_app in Hws as [Hline Hrest].
  unfold lineStep at 2. unfold wordsOfLine in Hline.
  destruct (words line) as [ws |]; [| now apply IH].
  rewrite (lineTextOf_unconfident Hline). cbn. now apply IH.
Qed.

Lemma paragraphs_unconfident ps : forall result,
  Forall (fun w => (confidence w <= 30)%Q) (flat_map wordsOfParagraph ps) ->
  fold_left paragraphStep ps result = result.
Proof.
  induction ps as [| para ps IH]; intros result Hws; cbn [fold_left]; [reflexivity |].
  cbn [flat_map] in Hws. apply Forall_app in Hws as [Hpara Hrest].
  unfold paragraphStep at 2. unfold wordsOfParagraph in Hpara.
  destruct (lines para) as [ls |]; [| now apply IH].
  rewrite (lines_unconfident ls [] Hpara). cbn. now apply IH.
Qed.

Lemma blocks_unconfident bs : forall result,
  Forall (fun w => (confidence w <= 30)%Q) (flat_map wordsOfBlock bs) ->
  fold_left blockStep bs result = result.
Proof.
  induction bs as [| block bs IH]; intros result Hws; cbn [fold_left]; [reflexivity |].
  cbn [flat_map] in Hws. apply Forall_app in Hws as [Hblock Hrest].
  unfold blockStep at 2. unfold wordsOfBlock in Hblock.
  destruct (paragraphs block) as [ps |]; [| now apply IH].
  rewrite (paragraphs_unconfident ps result Hblock). now apply IH.
Qed.

(** X15. When no word of the recognition result has a confidence above 30
    (in particular when there are no blocks at all), the reconstruction is
    the flat text of the result. *)
Theorem unconfident_result_falls_back_on_flat_text data :
  Forall (fun w => (confidence w <= 30)%Q) (wordsOf data) ->
  reconstructTextFromOCRData data = orEmpty (data_text data).
Proof.
  intros Hws. unfold reconstructTextFromOCRData. unfold wordsOf in Hws.
  destruct (blocks data) as [[| b bs] |]; try reflexivity.
  now rewrite (blocks_unconfident (b :: bs) [] Hws).
Qed.

Lemma unconfident_result_falls_back_on_flat_text_witness :
  reconstructTextFromOCRData Samples.data_low_confidence = str "He11o".
Proof.
  apply (@unconfident_result_falls_back_on_flat_text Samples.data_low_confidence).
  repeat constructor. vm_compute. discriminate.
Defined.

(** ** The preview of the pages *)

Lemma renderLoop_result pdf scale k : forall i acc canvases,
  outcome (renderLoop pdf scale k i acc) = Ok canvases ->
  exists drawn,
    canvases = acc ++ drawn
    /\ length drawn = k
    /\ (forall j, j < k ->
          exists page canvas,
            getPage pdf (i + j) = Ok page
            /\ renderToCanvas page scale = Ok canvas
            /\ nth_error drawn j = Some canvas).
Proof.
  induction k as [| k IH]; intros i acc canvases; cbn [renderLoop].
  - intros [= <-]. exists []. rewrite app_nil_r. repeat split. intros j Hj. lia.
  - unfold renderPageToImage. autorewrite with effects.
    destruct (getPage pdf i) as [page | e] eqn:Hpage; [| discriminate].
    autorewrite with effects.
    destruct (renderToCanvas page scale) as [canvas | e] eqn:Hrender; [| discriminate].
    intros Hrest. destruct (IH _ _ _ Hrest) as [drawn [-> [Hlen Hdrawn]]].
    exists (canvas :: drawn). rewrite <- app_assoc. repeat split.
    + cbn [length]. now rewrite Hlen.
    + intros [| j] Hj.
      * exists page, canvas. rewrite Nat.add_0_r. repeat split; assumption.
      * destruct (Hdrawn j) as [page' [canvas' [H1 [H2 H3]]]]; [lia |].
        exists page', canvas'. rewrite Nat.add_succ_r. repeat split; assumption.
Qed.

(** X16. When [renderPDFPagesToImages] returns, it returns one canvas per
    page of the loaded document, in page order, each the drawing of its
    page at the requested scale. *)
Theorem preview_draws_every_page env file scale canvases :
  outcome (renderPDFPagesToImages env file scale) = Ok canvases ->
  exists buf pdf,
    arrayBuffer file = Ok buf
    /\ getDocument env buf = Ok pdf
    /\ length canvases = pdf_numPages pdf
    /\ (forall j, j < pdf_numPages pdf ->
          exists page canvas,
            getPage pdf (S j) = Ok page
            /\ renderToCanvas page scale = Ok canvas
            /\ nth_error canvases j = Some canvas).
Proof.
  unfold renderPDFPagesToImages. autorewrite with effects.
  destruct (arrayBuffer file) as [buf | e] eqn:Hfile; [| discriminate].
  autorewrite with effects.
  destruct (getDocument env buf) as [pdf | e] eqn:Hdoc; [| discriminate].
  intros Hloop. destruct (renderLoop_result _ _ _ _ _ Hloop) as [drawn [-> [Hlen Hdrawn]]].
  exists buf, pdf.
  split; [reflexivity | split; [exact Hdoc | split; [exact Hlen | exact Hdrawn]]].
Qed.

Lemma preview_draws_every_page_witness :
  exists buf pdf,
    arrayBuffer Samples.file_ok = Ok buf
    /\ getDocument MoreSamples.env_two_pages buf = Ok pdf
    /\ 2 = pdf_numPages pdf
    /\ (forall j, j < pdf_numPages pdf ->
          exists page canvas,
            getPage pdf (S j) = Ok page
            /\ renderToCanvas page (12 # 10) = Ok canvas
            /\ nth_error [Samples.canvas_white; Samples.canvas_white] j = Some canvas).
Proof.
  exact (@preview_draws_every_page MoreSamples.env_two_pages Samples.file_ok (12 # 10)
           [Samples.canvas_white; Samples.canvas_white] eq_refl).
Defined.

(** ** Progress percentages *)

Lemma page_progress_bounds i numPages :
  1 <= i <= numPages ->
  (0 <= Math_round (of_nat (i - 1) / of_nat numPages * 100) <= 100)%Z.
Proof.
  intros Hi. unfold Math_round.
  assert (Hn : (0 < of_nat numPages)%Q).
  { unfold of_nat. change 0%Q with (inject_Z 0). rewrite <- Zlt_Qlt. lia. }
  assert (H0 : (0 <= of_nat (i - 1))%Q).
  { unfold of_nat. change 0%Q with (inject_Z 0). rewrite <- Zle_Qle. lia. }
  assert (H1 : (of_nat (i - 1) <= of_nat numPages)%Q).
  { unfold of_nat. rewrite <- Zle_Qle. lia. }
  assert (Hlo : (0 <= of_nat (i - 1) / of_nat numPages)%Q).
  { apply Qle_shift_div_l; [exact Hn | lra]. }
  assert (Hhi : (of_nat (i - 1) / of_nat numPages <= 1)%Q).
  { apply Qle_shift_div_r; [exact Hn | lra]. }
  set (q := (of_nat (i - 1) / of_nat numPages)%Q) in *.
  assert (Hfloor0 : (Qfloor 0 <= Qfloor (q * 100 + (1 # 2)))%Z)
    by (apply Qfloor_resp_le; lra).
  assert (Hfloor1 : (Qfloor (q * 100 + (1 # 2)) <= Qfloor (201 # 2))%Z)
    by (apply Qfloor_resp_le; lra).
  split; [exact Hfloor0 | exact Hfloor1].
Qed.

Lemma logAll_bounded onProgress numPages currentPage infos :
  Forall boundedProgress (trace (logAll onProgress numPages currentPage infos)).
Proof.
  induction infos as [| info rest IH]; cbn [logAll]; [constructor |].
  autorewrite with effects. apply Forall_app. split.
  - unfold logger.
    destruct (String.eqb (status info) "recognizing text" && onProgress); [| constructor].
    constructor; [| constructor]. cbn. congruence.
  - destruct (outcome (logger onProgress numPages currentPage info)); [exact IH | constructor].
Qed.

Lemma ocrPage_bounded env pdf worker numPages onProgress i fullText :
  1 <= i <= numPages ->
  Forall boundedProgress (trace (ocrPage env pdf worker numPages onProgress i fullText)).
Proof.
  intros Hi. unfold ocrPage, renderPageToImage. autorewrite with effects.
  apply Forall_app. split.
  { destruct onProgress; [| constructor]. constructor; [| constructor].
    cbn [boundedProgress ev_phase ev_progress]. intros _. now apply page_progress_bounds. }
  constructor; [exact I |].
  destruct (getPage pdf i) as [page | e]; [| constructor].
  autorewrite with effects. constructor; [exact I |].
  destruct (renderToCanvas page 3) as [canvas | e]; [| constructor].
  autorewrite with effects. constructor; [exact I |].
  rewrite outcome_logAll. apply Forall_app. split; [apply logAll_bounded |].
  cbn [trace fst outcome snd app].
  destruct (snd (recognize worker i _)); constructor.
Qed.

Lemma ocrLoop_bounded env pdf worker numPages onProgress k : forall i fullText,
  1 <= i -> i + k = S numPages ->
  Forall boundedProgress (trace (ocrLoop env pdf worker numPages onProgress k i fullText)).
Proof.
  induction k as [| k IH]; intros i fullText Hi Hik; cbn [ocrLoop]; [constructor |].
  rewrite trace_bind. apply Forall_app. split; [apply ocrPage_bounded; lia |].
  destruct (outcome (ocrPage env pdf worker numPages onProgress i fullText));
    [apply IH; lia | constructor].
Qed.

(** X17. Every progress event that the pipeline itself computes (all but
    the relays of the worker's own progress) carries a percentage between
    0 and 100. *)
Theorem progress_is_a_percentage env file onProgress :
  Forall boundedProgress (trace (extractTextFromPDF env file onProgress)).
Proof.
  unfold extractTextFromPDF.
  autorewrite with effects. constructor; [exact I |].
  destruct (arrayBuffer file) as [buf | e]; [| constructor].
  autorewrite with effects. constructor; [exact I |].
  destruct (getDocument env buf) as [pdf | e]; [| constructor].
  autorewrite with effects.
  apply Forall_app. split.
  { destruct onProgress; constructor; [cbn; lia | constructor]. }
  apply Forall_app. split.
  { eapply Forall_impl; [| apply standardLoop_trace].
    intros ev Hev. destruct ev; try contradiction; exact I. }
  destruct (outcome (extractWithStandardMethod pdf (pdf_numPages pdf))) as [t | e];
    [| constructor].
  autorewrite with effects.
  apply Forall_app. split.
  { destruct onProgress; constructor; [cbn; lia | constructor]. }
  destruct (MIN_TEXT_THRESHOLD <=? length (trim t)); [constructor |].
  autorewrite with effects.
  apply Forall_app. split.
  { destruct onProgress; constructor; [cbn; lia | constructor]. }
  apply Forall_app. split.
  - unfold extractWithOCR. autorewrite with effects.
    constructor; [exact I |].
    apply Forall_app. split; [apply logAll_bounded |].
    rewrite outcome_logAll. autorewrite with effects. cbn [trace fst outcome snd app].
    destruct (snd (createWorker env)) as [worker | e]; [| constructor].
    autorewrite with effects. constructor; [exact I |].
    destruct (setParameters worker) as [u | e]; [| constructor].
    autorewrite with effects.
    apply Forall_app. split.
    + apply Forall_app. split.
      * apply ocrLoop_bounded; lia.
      * constructor; [exact I | constructor].
    + destruct (terminate worker); [| constructor].
      destruct (outcome (ocrLoop _ _ _ _ _ _ _ _)); [| constructor].
      autorewrite with effects.
      apply Forall_app. split; [| constructor].
      destruct onProgress; constructor; [cbn; lia | constructor].
  - destruct (outcome (extractWithOCR env pdf (pdf_numPages pdf) onProgress)); constructor.
Qed.

(** ** The order of the runs of a line *)

Lemma insert_by_x_sorted a l :
  StronglySorted leftOf l ->
  StronglySorted leftOf (insert_sorted (fun a b => (x a - x b)%Q) a l).
Proof.
  induction 1 as [| e tl Htl IH He]; cbn [insert_sorted].
  - repeat constructor.
  - destruct (lt (x a - x e) 0) eqn:Hlt.
    + apply lt_true_iff in Hlt.
      constructor; [now constructor |].
      constructor; [unfold leftOf; lra |].
      eapply Forall_impl; [| exact He].
      intros b Hb. unfold leftOf in *. lra.
    + apply lt_false_iff in Hlt.
      constructor; [exact IH |].
      apply Forall_forall. intros b Hb.
      apply (Permutation_in _ (insert_sorted_perm _ a tl)) in Hb.
      destruct Hb as [<- | Hb]; [unfold leftOf; lra |].
      rewrite Forall_forall in He. now apply He.
Qed.

(** X18. Before a line is turned into text its runs are sorted from left to
    right: the sorted runs are the runs of the line, each once, in
    ascending order of x. *)
Theorem sortByX_sorts_runs its :
  Permutation (sortByX its) its /\ StronglySorted leftOf (sortByX its).
Proof.
  split; [apply Array_sort_perm |].
  unfold sortByX, Array_sort.
  assert (H : forall acc, StronglySorted leftOf acc ->
                          StronglySorted leftOf
                            (fold_left (fun acc a =>
                                          insert_sorted (fun a b => (x a - x b)%Q) a acc)
                                       its acc)).
  { induction its as [| a tl IH]; intros acc Hacc; cbn [fold_left]; [exact Hacc |].
    apply IH. now apply insert_by_x_sorted. }
  apply H. constructor.
Qed.

(** ** The order of recognition *)

Lemma logAll_no_recognize onProgress numPages currentPage infos :
  filter isRecognize (trace (logAll onProgress numPages currentPage infos)) = [].
Proof.
  apply filter_none. apply logAll_events; reflexivity.
Qed.

Lemma ocrPage_recognitions env pdf worker numPages onProgress i fullText :
  (exists rest,
      filter isRecognize (trace (ocrPage env pdf worker numPages onProgress i fullText))
        ++ rest = [Recognize i])
  /\ (forall t, outcome (ocrPage env pdf worker numPages onProgress i fullText) = Ok t ->
                filter isRecognize
                  (trace (ocrPage env pdf worker numPages onProgress i fullText))
                = [Recognize i]).
Proof.
  unfold ocrPage, renderPageToImage. autorewrite with effects.
  rewrite !filter_app.
  replace (filter isRecognize (if onProgress then _ else []))
    with (@nil event) by (destruct onProgress; reflexivity).
  cbn [app filter isRecognize].
  destruct (getPage pdf i) as [page | e].
  2:{ split; [exists [Recognize i]; reflexivity | discriminate]. }
  autorewrite with effects. cbn [app filter isRecognize].
  destruct (renderToCanvas page 3) as [canvas | e].
  2:{ split; [exists [Recognize i]; reflexivity | discriminate]. }
  autorewrite with effects. rewrite outcome_logAll.
  cbn [app filter isRecognize]. rewrite filter_app, logAll_no_recognize.
  cbn [trace fst outcome snd app].
  destruct (snd (recognize worker i _)); cbn [filter trace fst ret app];
    (split; [exists []; reflexivity | intros; reflexivity]).
Qed.

Lemma ocrLoop_recognitions env pdf worker numPages onProgress k : forall i fullText,
  (exists rest,
      filter isRecognize (trace (ocrLoop env pdf worker numPages onProgress k i fullText))
        ++ rest = map Recognize (seq i k))
  /\ (forall t, outcome (ocrLoop env pdf worker numPages onProgress k i fullText) = Ok t ->
                filter isRecognize
                  (trace (ocrLoop env pdf worker numPages onProgress k i fullText))
                = map Recognize (seq i k)).
Proof.
  induction k as [| k IH]; intros i fullText; cbn [ocrLoop seq map].
  - split; [exists []; reflexivity | reflexivity].
  - rewrite trace_bind, outcome_bind, filter_app.
    destruct (ocrPage_recognitions env pdf worker numPages onProgress i fullText)
      as [[rest Hrest] Hfull].
    destruct (outcome (ocrPage env pdf worker numPages onProgress i fullText))
      as [t |] eqn:Hout.
    + rewrite (Hfull t eq_refl).
      destruct (IH (S i) t) as [[rest' Hrest'] Hfull'].
      split.
      * exists rest'. cbn [app]. now rewrite Hrest'.
      * intros t' Ht'. cbn [app]. now rewrite (Hfull' t' Ht').
    + split; [| discriminate].
      exists (rest ++ map Recognize (seq (S i) k)).
      cbn [filter]. rewrite app_nil_r, app_assoc, Hrest. reflexivity.
Qed.

(** X19. The OCR strategy recognizes the pages in order, from page 1, each
    at most once: its recognitions are always a prefix of pages
    1..numPages, and all of them when the strategy returns. *)
Theorem ocr_recognizes_pages_in_order env pdf numPages onProgress :
  (exists rest,
      filter isRecognize (trace (extractWithOCR env pdf numPages onProgress)) ++ rest
      = map Recognize (seq 1 numPages))
  /\ (forall t, outcome (extractWithOCR env pdf numPages onProgress) = Ok t ->
                filter isRecognize (trace (extractWithOCR env pdf numPages onProgress))
                = map Recognize (seq 1 numPages)).
Proof.
  unfold extractWithOCR. autorewrite with effects. rewrite outcome_logAll.
  autorewrite with effects. cbn [trace fst outcome snd app filter isRecognize].
  rewrite filter_app, logAll_no_recognize. cbn [app].
  destruct (snd (createWorker env)) as [worker | e].
  2:{ split; [exists (map Recognize (seq 1 numPages)); reflexivity | discriminate]. }
  autorewrite with effects. cbn [filter isRecognize app].
  destruct (setParameters worker) as [u | e].
  2:{ split; [exists (map Recognize (seq 1 numPages)); reflexivity | discriminate]. }
  autorewrite with effects. rewrite !filter_app. cbn [filter isRecognize].
  destruct (ocrLoop_recognitions env pdf worker numPages onProgress numPages 1 [])
    as [[rest Hrest] Hfull].
  assert (Hdone : forall r : result jsstring,
             filter isRecognize
               match r with
               | Ok a => trace (report onProgress
                                  {| ev_phase := PhaseOcrDone; ev_progress := 100;
                                     ev_page := Some numPages;
                                     ev_totalPages := Some numPages |} ;;; ret a)
               | Throw _ => []
               end = []).
  { intros [a | e]; [| reflexivity]. autorewrite with effects.
    destruct onProgress; reflexivity. }
  rewrite Hdone, !app_nil_r.
  split; [exists rest; exact Hrest |].
  intros t Ht.
  destruct (terminate worker); [| discriminate].
  destruct (outcome (ocrLoop env pdf worker numPages onProgress numPages 1 []))
    as [t' |] eqn:Hloop; [| discriminate].
  exact (Hfull t' eq_refl).
Qed.

Lemma ocr_recognizes_pages_in_order_witness :
  filter isRecognize (trace (extractWithOCR MoreSamples.env_scanned MoreSamples.pdf_scanned 2 true))
  = [Recognize 1; Recognize 2].
Proof.
  destruct (ocr_recognizes_pages_in_order MoreSamples.env_scanned MoreSamples.pdf_scanned
              2 true) as [_ H].
  exact (H _ eq_refl).
Defined.

(** ** Images of one colour *)

Lemma ge_true_iff a b : ge a b = true <-> (b <= a)%Q.
Proof. unfold ge. apply Qle_bool_iff. Qed.

Lemma ge_false_iff a b : ge a b = false <-> (a < b)%Q.
Proof.
  unfold ge. rewrite <- not_true_iff_false, Qle_bool_iff.
  split; [apply Qnot_le_lt | apply Qlt_not_le].
Qed.

Lemma uniformPixels_length r g b a n : length (uniformPixels r g b a n) = 4 * n.
Proof.
  unfold uniformPixels. induction n as [| n IH]; [reflexivity |].
  cbn [repeat List.concat app length]. rewrite IH. lia.
Qed.

Lemma nth_uniformPixels r g b a n : forall q c,
  q < n -> c < 4 ->
  nth (4 * q + c) (uniformPixels r g b a n) 0%Z = nth c [r; g; b; a] 0%Z.
Proof.
  unfold uniformPixels. induction n as [| n IH]; intros q c Hq Hc; [lia |].
  cbn [repeat List.concat app]. destruct q as [| q].
  - destruct c as [| [| [| [| c]]]]; try lia; reflexivity.
  - replace (4 * S q + c) with (S (S (S (S (4 * q + c))))) by lia.
    cbn [nth]. apply IH; lia.
Qed.

Lemma luminance_uniform r g b a n q :
  q < n ->
  luminance (uniformPixels r g b a n) (4 * q)
  = Math_round ((299 # 1000) * inject_Z r + (587 # 1000) * inject_Z g
                + (114 # 1000) * inject_Z b)%Q.
Proof.
  intros Hq. unfold luminance, byteAt.
  replace (4 * q) with (4 * q + 0) at 1 by lia.
  rewrite !nth_uniformPixels by lia. reflexivity.
Qed.

Lemma luminance_byte r g b :
  (0 <= r <= 255)%Z -> (0 <= g <= 255)%Z -> (0 <= b <= 255)%Z ->
  (0 <= Math_round ((299 # 1000) * inject_Z r + (587 # 1000) * inject_Z g
                    + (114 # 1000) * inject_Z b)%Q <= 255)%Z.
Proof.
  intros Hr Hg Hb. unfold Math_round.
  assert (Qr : (0 <= inject_Z r <= 255)%Q).
  { split; [change 0%Q with (inject_Z 0) | change 255%Q with (inject_Z 255)];
      rewrite <- Zle_Qle; lia. }
  assert (Qg : (0 <= inject_Z g <= 255)%Q).
  { split; [change 0%Q with (inject_Z 0) | change 255%Q with (inject_Z 255)];
      rewrite <- Zle_Qle; lia. }
  assert (Qb : (0 <= inject_Z b <= 255)%Q).
  { split; [change 0%Q with (inject_Z 0) | change 255%Q with (inject_Z 255)];
      rewrite <- Zle_Qle; lia. }
  set (v := ((299 # 1000) * inject_Z r + (587 # 1000) * inject_Z g
             + (114 # 1000) * inject_Z b)%Q).
  assert (Hv : (0 <= v <= 255)%Q) by (unfold v; lra).
  assert (Hlo : (Qfloor 0 <= Qfloor (v + (1 # 2)))%Z) by (apply Qfloor_resp_le; lra).
  assert (Hhi : (Qfloor (v + (1 # 2)) <= Qfloor (511 # 2))%Z)
    by (apply Qfloor_resp_le; lra).
  split; [exact Hlo | exact Hhi].
Qed.

Lemma bump_length bin histogram : length (bump bin histogram) = length histogram.
Proof.
  revert bin. induction histogram as [| c tl IH]; intros [| bin]; cbn [bump length]; auto.
Qed.

Lemma nth_bump_same bin histogram :
  bin < length histogram ->
  nth bin (bump bin histogram) 0%Z = (nth bin histogram 0 + 1)%Z.
Proof.
  revert bin. induction histogram as [| c tl IH]; intros [| bin] Hbin;
    cbn [bump nth length] in *; try lia; try reflexivity.
  apply IH. lia.
Qed.

Lemma nth_bump_other bin j histogram :
  j <> bin -> nth j (bump bin histogram) 0%Z = nth j histogram 0%Z.
Proof.
  revert bin j. induction histogram as [| c tl IH]; intros [| bin] [| j] Hj;
    cbn [bump nth]; try reflexivity; try lia.
  apply IH. lia.
Qed.

Lemma iter_bump bin histogram m :
  bin < length histogram ->
  length (Nat.iter m (bump bin) histogram) = length histogram
  /\ nth bin (Nat.iter m (bump bin) histogram) 0%Z
     = (nth bin histogram 0 + Z.of_nat m)%Z
  /\ (forall j, j <> bin ->
        nth j (Nat.iter m (bump bin) histogram) 0%Z = nth j histogram 0%Z).
Proof.
  intros Hbin. induction m as [| m [IHlen [IHsame IHother]]].
  - cbn [Nat.iter nat_rect]. repeat split; lia.
  - cbn [Nat.iter nat_rect]. fold (Nat.iter m (bump bin) histogram). repeat split.
    + now rewrite bump_length.
    + rewrite nth_bump_same by lia. rewrite IHsame. lia.
    + intros j Hj. rewrite nth_bump_other by exact Hj. now apply IHother.
Qed.

Lemma histogramLoop_uniform r g b a n gray :
  (forall q, q < n -> luminance (uniformPixels r g b a n) (4 * q) = gray) ->
  forall fuel q histogram,
    q <= n -> n - q <= fuel ->
    histogramLoop fuel (4 * q) (uniformPixels r g b a n) histogram
    = Nat.iter (n - q) (increment gray) histogram.
Proof.
  intros Hgray. induction fuel as [| fuel IH]; intros q histogram Hq Hfuel;
    cbn [histogramLoop].
  - replace (n - q) with 0 by lia. reflexivity.
  - rewrite uniformPixels_length.
    destruct (Nat.ltb_spec (4 * q) (4 * n)) as [Hlt | Hge].
    + replace (4 * q + 4) with (4 * S q) by lia.
      rewrite IH by lia. rewrite Hgray by lia.
      replace (n - q) with (S (n - S q)) by lia.
      now rewrite Nat.iter_succ_r.
    + replace (n - q) with 0 by lia. reflexivity.
Qed.

Lemma percentileLoop_uniform histogram n gray :
  0 < n ->
  (0 <= gray)%Z ->
  (forall j, (0 <= j < gray)%Z -> nth (Z.to_nat j) histogram 0%Z = 0%Z) ->
  nth (Z.to_nat gray) histogram 0%Z = Z.of_nat n ->
  forall fuel i,
    (0 <= i <= gray)%Z -> Z.to_nat (gray - i) < fuel ->
    percentileLoop fuel i histogram (of_nat n) 0 0 = (gray, gray).
Proof.
  intros Hn Hgray Hbelow Hat.
  assert (Htotal : (0 < of_nat n)%Q).
  { unfold of_nat. change 0%Q with (inject_Z 0). rewrite <- Zlt_Qlt. lia. }
  induction fuel as [| fuel IH]; intros i Hi Hfuel; [lia |].
  cbn [percentileLoop].
  destruct (Z.eq_dec i gray) as [-> | Hne].
  - rewrite Hat. cbn [Z.add].
    assert (H2 : ge (inject_Z (Z.of_nat n)) (of_nat n * (2 # 100)) = true).
    { apply ge_true_iff. fold (of_nat n). lra. }
    assert (H98 : ge (inject_Z (Z.of_nat n)) (of_nat n * (98 # 100)) = true).
    { apply ge_true_iff. fold (of_nat n). lra. }
    rewrite H2, H98. reflexivity.
  - rewrite Hbelow by lia. cbn [Z.add].
    assert (H2 : ge (inject_Z 0) (of_nat n * (2 # 100)) = false).
    { apply ge_false_iff. change (inject_Z 0) with 0%Q. lra. }
    assert (H98 : ge (inject_Z 0) (of_nat n * (98 # 100)) = false).
    { apply ge_false_iff. change (inject_Z 0) with 0%Q. lra. }
    rewrite H2, H98. cbn [andb]. apply IH; lia.
Qed.

Lemma stretched_uniform pow r g b a n gray q :
  (forall base, (base == 0)%Q -> (pow base (85 # 100) == 0)%Q) ->
  (forall q, q < n -> luminance (uniformPixels r g b a n) (4 * q) = gray) ->
  q < n ->
  stretched pow gray 1 (uniformPixels r g b a n) (4 * q) = 0%Z.
Proof.
  intros Hpow Hgray Hq. unfold stretched. rewrite Hgray by exact Hq.
  rewrite Z.sub_diag.
  replace (Math_round (inject_Z 0 / inject_Z 1 * 255)) with 0%Z by reflexivity.
  replace (Z.max 0 (Z.min 255 0)) with 0%Z by reflexivity.
  unfold Math_round.
  assert (Hzero : (pow (inject_Z 0 / 255) (85 # 100) == 0)%Q)
    by (apply Hpow; reflexivity).
  rewrite Hzero. reflexivity.
Qed.

(** X20. An image of one colour comes out of the preprocessor entirely
    black: the 2nd and the 98th percentile both fall on its gray level, the
    range of the stretch is 1, and every pixel is mapped to 0 (with
    [Math.pow(0, 0.85) = 0]); the alpha bytes stay. A blank white page is
    such an image. *)
Theorem uniform_canvas_turns_black pow w h r g b a :
  (forall base, (base == 0)%Q -> (pow base (85 # 100) == 0)%Q) ->
  0 < w * h ->
  (0 <= r <= 255)%Z -> (0 <= g <= 255)%Z -> (0 <= b <= 255)%Z ->
  pixels (preprocessCanvasForOCR pow
            {| canvas_width := w; canvas_height := h;
               pixels := uniformPixels r g b a (w * h) |})
  = uniformPixels 0 0 0 a (w * h).
Proof.
  intros Hpow Hn Hr Hg Hb.
  set (n := w * h) in *.
  set (gray := Math_round ((299 # 1000) * inject_Z r + (587 # 1000) * inject_Z g
                           + (114 # 1000) * inject_Z b)%Q).
  assert (Hbyte : (0 <= gray <= 255)%Z) by (apply luminance_byte; assumption).
  assert (Hgray : forall q, q < n -> luminance (uniformPixels r g b a n) (4 * q) = gray)
    by (intros q Hq; now apply luminance_uniform).
  unfold preprocessCanvasForOCR. cbn [canvas_width canvas_height pixels]. fold n.
  change (histogramLoop (length (uniformPixels r g b a n)) 0)
    with (histogramLoop (length (uniformPixels r g b a n)) (4 * 0)).
  rewrite (histogramLoop_uniform _ _ _ _ Hgray) by (rewrite ?uniformPixels_length; lia).
  rewrite Nat.sub_0_r. unfold increment.
  rewrite (proj2 (Z.leb_le 0 gray) (proj1 Hbyte)).
  destruct (@iter_bump (Z.to_nat gray) (repeat 0%Z 256) n) as [_ [Hsame Hother]];
    [rewrite repeat_length; lia |].
  rewrite nth_repeat in Hsame.
  rewrite (@percentileLoop_uniform _ n gray Hn (proj1 Hbyte)); try lia.
  2:{ intros j Hj.
      transitivity (nth (Z.to_nat j) (repeat 0%Z 256) 0%Z);
        [apply Hother; lia | apply nth_repeat]. }
  2:{ transitivity (0 + Z.of_nat n)%Z; [exact Hsame | lia]. }
  rewrite Z.sub_diag. cbn [Z.eqb pixels].
  destruct (@stretchLoop_spec pow gray 1 (length (uniformPixels r g b a n)) 0
              (uniformPixels r g b a n)) as [Hlen [_ Hpixels]]; [lia |].
  cbv zeta in Hpixels.
  apply (nth_ext _ _ 0%Z 0%Z).
  - rewrite Hlen. now rewrite !uniformPixels_length.
  - intros j Hj. rewrite Hlen, uniformPixels_length in Hj.
    pose proof (Nat.div_mod_eq j 4) as Hdiv.
    pose proof (Nat.mod_upper_bound j 4 ltac:(lia)) as Hmod.
    set (q := j / 4) in *. set (c := j mod 4) in *.
    assert (Hq : q < n) by lia.
    destruct (Hpixels q) as [H0 [H1 [H2 H3]]];
      [rewrite uniformPixels_length; lia |].
    cbn [Nat.add] in H0, H1, H2, H3.
    rewrite (stretched_uniform _ _ _ _ a Hpow Hgray Hq) in H0, H1, H2.
    rewrite Hdiv. rewrite (nth_uniformPixels 0 0 0 a Hq Hmod).
    destruct c as [| [| [| [| c]]]]; try lia; cbn [nth].
    + rewrite Nat.add_0_r. exact H0.
    + exact H1.
    + exact H2.
    + rewrite H3. rewrite (nth_uniformPixels r g b a Hq (c := 3)) by lia. reflexivity.
Qed.

Lemma uniform_canvas_turns_black_witness :
  pixels (preprocessCanvasForOCR (fun base _ => base) Samples.canvas_white)
  = [0; 0; 0; 255; 0; 0; 0; 255]%Z.
Proof.
  apply (@uniform_canvas_turns_black (fun base _ => base) 2 1 255 255 255 255).
  - intros base Hbase. exact Hbase.
  - vm_compute. lia.
  - lia.
  - lia.
  - lia.
Defined.
